(** * Multicomponent transport properties (Cantera, [MultiTransport.cpp])

    A shallow embedding of class [MultiTransport]: the lazily updated
    temperature tier, the composition tier, the L-matrix equation and the
    species-flux solver, followed by the properties proved about them.

    The C++ scalars are [doublereal] (IEEE binary64).  The embedding is
    written once over a scalar interface [Scalar]; its instance at
    [PrimFloat.float] is the arithmetic the program runs, its instance at
    [Qc] is exact arithmetic.  Array dimensions and indices are [nat]
    (the C++ [int] values are sizes and positions of arrays). *)

From Stdlib Require Import ZArith List Bool Lia Floats QArith Qcanon Ring String.
From stdpp Require Import base list.

Set Warnings "-inexact-float".
Set Default Proof Using "Type".

(* ================================================================== *)
(** * Scalars                                                           *)
(* ================================================================== *)

(** The operations [MultiTransport.cpp] applies to a [doublereal]:
    literals, the four arithmetic operations, the comparisons [>] and
    [!=], and [fabs]. *)
Class Scalar (R : Type) := {
  lit  : float -> R;
  sadd : R -> R -> R;
  ssub : R -> R -> R;
  smul : R -> R -> R;
  sdiv : R -> R -> R;
  sgt  : R -> R -> bool;
  sne  : R -> R -> bool;
  fabs : R -> R
}.

Arguments lit {R _} _%_float.

Declare Scope fp_scope.
Delimit Scope fp_scope with fp.
Infix "+" := sadd : fp_scope.
Infix "-" := ssub : fp_scope.
Infix "*" := smul : fp_scope.
Infix "/" := sdiv : fp_scope.

#[global] Instance scalar_inhabited {R} `{Scalar R} : Inhabited R :=
  populate (lit 0).

(** IEEE binary64: the arithmetic of the compiled program. *)
#[global] Instance float_scalar : Scalar float := {|
  lit  := fun x => x;
  sadd := PrimFloat.add;
  ssub := PrimFloat.sub;
  smul := PrimFloat.mul;
  sdiv := PrimFloat.div;
  sgt  := fun x y => PrimFloat.ltb y x;
  sne  := fun x y => negb (PrimFloat.eqb x y);
  fabs := PrimFloat.abs
|}.

(** The rational number a binary64 value denotes (0 for infinities and
    NaN, which no literal of the program is). *)
Definition Qc_of_float (x : float) : Qc :=
  match Prim2SF x with
  | S754_finite sg m e =>
      let z := if sg then Z.neg m else Z.pos m in
      Q2Qc (inject_Z z * (2 ^ e))%Q
  | _ => Q2Qc 0
  end.

Definition Qc_abs (x : Qc) : Qc :=
  match (x ?= 0)%Qc with Lt => (- x)%Qc | _ => x end.

(** Exact rational arithmetic. *)
#[global] Instance Qc_scalar : Scalar Qc := {|
  lit  := Qc_of_float;
  sadd := Qcplus;
  ssub := Qcminus;
  smul := Qcmult;
  sdiv := Qcdiv;
  sgt  := fun x y => match (x ?= y)%Qc with Gt => true | _ => false end;
  sne  := fun x y => negb (Qeq_bool x y);
  fabs := Qc_abs
|}.

(* ================================================================== *)
(** * Data model                                                        *)
(* ================================================================== *)

(** [CanteraError(proc, msg)], [ctexceptions.h]. *)
Record CanteraError := { err_proc : string; err_msg : string }.

(** How a member function ends: it returns, it throws a [CanteraError]
    (the object, and the caller's array where the function writes one,
    keep the state [s] they had at the [throw]), it ends the process
    with [exit(code)], or it writes past the end of a vector it
    allocated itself, from where on its behaviour is undefined. *)
Inductive Outcome (S A : Type) : Type :=
| Ok (a : A)
| Throw (e : CanteraError) (s : S)
| Exit (code : Z)
| Overrun.
Arguments Ok {S A} a.
Arguments Throw {S A} e s.
Arguments Exit {S A} code.
Arguments Overrun {S A}.

(** Calls made to the linear-algebra collaborators, in program order
    (ghost state: it records the calls, the program does not read it). *)
Inductive Event :=
| EvAssembleL      (* the nine eval_L.. calls of solveLMatrixEquation *)
| EvSolveLU        (* solve(m_Lmatrix, m_a) *)
| EvSolveGMRES     (* gmres(...) *)
| EvInvert         (* invert(m_Lmatrix, m_nsp) *)
| EvFactor         (* ct_dgetrf on m_aa *)
| EvBackSolve.     (* ct_dgetrs on m_aa *)

(** The nine blocks of the L matrix, in the order they are evaluated. *)
Inductive LBlock :=
| L0000 | L0010 | L0001 | L1000 | L1010 | L1001 | L0100 | L0110 | L0101.

(** Modelled from the spec: the valid/invalid tags of section 3, kept by
    the thermodynamic phase (its updater table is not among the
    sources): one per updater installed by [init], in installation
    order. *)
Record Updaters := {
  ok_transport_T : bool;
  ok_transport_C : bool;
  ok_spvisc_T    : bool;
  ok_visc_T      : bool;
  ok_diff_T      : bool;
  ok_thermal_T   : bool
}.

Section Data.
Context {R : Type}.

(** [DenseMatrix] ([DenseMatrix.h] and [Array2D.h] are not among the
    sources): what [MultiTransport.cpp] uses of it, the row and column
    counts, the flat storage [begin()] handed to LAPACK with leading
    dimension [nRows], so that element (i,j) is [mdata[nRows*j + i]],
    and the pivot vector. *)
Record DenseMatrix := {
  nRows    : nat;
  nColumns : nat;
  mdata    : list R;
  ipiv     : list Z
}.

(** Modelled from the spec: the thermodynamic-phase collaborator (section 6,
    "Consumed"): temperature, pressure, mole and mass fractions, density,
    mean molecular weight, molecular weights, the reference-state heat
    capacities cp/R, and (section 4.1) the valid/invalid tag of every
    installed updater. *)
Record ThermoPhase := {
  nSpecies            : nat;
  minTemp             : R;
  maxTemp             : R;
  temperature         : R;
  pressure            : R;
  density             : R;
  meanMolecularWeight : R;
  molecularWeights    : list R;
  moleFractions       : list R;
  massFractions       : list R;
  cp_R                : list R;
  updaters            : Updaters
}.

(** The fields of [TransportParams] that [init] reads. *)
Record TransportParams := {
  tr_thermo       : ThermoPhase;
  tr_poly         : list (list nat);
  tr_visccoeffs   : list (list R);
  tr_diffcoeffs   : list (list R);
  tr_astar_poly   : list (list R);
  tr_bstar_poly   : list (list R);
  tr_cstar_poly   : list (list R);
  tr_omega22_poly : list (list R);
  tr_zrot         : list R;
  tr_crot         : list R;
  tr_epsilon      : DenseMatrix;
  tr_mode         : Z;
  tr_diam         : DenseMatrix;
  tr_eps          : list R
}.

(** Members fixed by [init] (and the solver options). *)
Record Params := {
  m_nsp        : nat;
  m_tmin       : R;
  m_tmax       : R;
  m_mw         : list R;
  m_poly       : list (list nat);
  m_visccoeffs : list (list R);
  m_diffcoeffs : list (list R);
  m_astar_poly : list (list R);
  m_bstar_poly : list (list R);
  m_cstar_poly : list (list R);
  m_om22_poly  : list (list R);
  m_zrot       : list R;
  m_crot       : list R;
  m_epsilon    : DenseMatrix;
  m_mode       : Z;
  m_diam       : DenseMatrix;
  m_eps        : list R;
  m_log_eps_k  : DenseMatrix;
  m_sqrt_eps_k : list R;
  m_frot_298   : list R;
  m_gmres      : bool;
  m_mgmres     : nat;
  m_eps_gmres  : R
}.

(** Temperature tier: everything the [_update_.._T] methods write. *)
Record TCache := {
  m_temp        : R;
  m_logt        : R;
  m_kbt         : R;
  m_sqrt_t      : R;
  m_t32         : R;
  m_sqrt_kbt    : R;
  m_polytempvec : list R;
  m_visc        : list R;
  m_phi         : DenseMatrix;
  m_bdiff       : DenseMatrix;
  m_om22        : DenseMatrix;
  m_astar       : DenseMatrix;
  m_bstar       : DenseMatrix;
  m_cstar       : DenseMatrix;
  m_rotrelax    : list R;
  m_cinternal   : list R
}.

(** The boolean members. *)
Record Flags := {
  m_visc_ok         : bool;
  m_spvisc_ok       : bool;
  m_diff_ok         : bool;
  m_abc_ok          : bool;
  m_l0000_ok        : bool;
  m_lmatrix_soln_ok : bool
}.

(** Solve tier and work space. *)
Record Work := {
  m_Lmatrix : DenseMatrix;
  m_a       : list R;
  m_b       : list R;
  m_aa      : DenseMatrix;
  m_spwork  : list R
}.

(** A [MultiTransport] object together with the phase it points to. *)
Record MultiTransport := {
  par         : Params;
  tc          : TCache;
  fl          : Flags;
  wk          : Work;
  m_molefracs : list R;
  m_thermo    : ThermoPhase;
  calls       : list Event
}.

End Data.

Arguments DenseMatrix R : clear implicits.
Arguments ThermoPhase R : clear implicits.
Arguments TransportParams R : clear implicits.
Arguments Params R : clear implicits.
Arguments TCache R : clear implicits.
Arguments Work R : clear implicits.
Arguments MultiTransport R : clear implicits.

(* ================================================================== *)
(** * Collaborators                                                     *)
(* ================================================================== *)

(** What [MultiTransport.cpp] uses and does not define: the constants of
    [ct_defs.h], the C library, the small templates of [utilities.h] and
    [polyfit.h], [hasInternalModes] of [MultiTransport.h], the block
    evaluators of [L_matrix.h], and the linear algebra of [DenseMatrix.h],
    [gmres.h] and [ctlapack.h].  They are parameters of the embedding.

    - [hasInternalModes] and [eval_L] are member functions; they are given
      the members they may read (the fixed members, the temperature tier
      and the mole fractions) and, for [eval_L], the matrix they write.
    - [solve M v] overwrites [M] with its factors and [v] with the
      solution and returns LAPACK's [info]; [invert M n] inverts the
      leading [n] by [n] block in place and returns [ierr].
    - [ct_dgetrf m n a lda] returns the factored storage, the pivots and
      [info]; [ct_dgetrs n nrhs a lda ipiv b ldb] (always called with
      [NoTranspose]) returns the overwritten right-hand sides and [info]. *)
Class Collab (R : Type) := {
  GasConstant : R;
  Boltzmann   : R;
  Pi          : R;
  SqrtPi      : R;
  SqrtEight   : R;
  CK_Mode     : Z;
  sqrt : R -> R;
  log  : R -> R;
  exp  : R -> R;
  dot4  : list R -> list R -> R;
  dot5  : list R -> list R -> R;
  poly6 : R -> list R -> R;
  poly8 : R -> list R -> R;
  hasInternalModes : Params R -> TCache R -> nat -> bool;
  eval_L : LBlock -> Params R -> TCache R -> list R -> DenseMatrix R -> DenseMatrix R;
  solve  : DenseMatrix R -> list R -> Z * DenseMatrix R * list R;
  invert : DenseMatrix R -> nat -> Z * DenseMatrix R;
  gmres  : nat -> nat -> DenseMatrix R -> list R -> list R -> R -> list R;
  ct_dgetrf : nat -> nat -> list R -> nat -> list R * list Z * Z;
  ct_dgetrs : nat -> nat -> list R -> nat -> list Z -> list R -> nat -> list R * Z
}.

(* ================================================================== *)
(** * The program                                                       *)
(* ================================================================== *)

Section Program.
Context {R : Type} {SC : Scalar R} {CO : Collab R}.

Local Abbreviation MT := (MultiTransport R).
Local Abbreviation Result := (Outcome (MultiTransport R)).

(** ** Loops, vectors, matrices *)

(** [for (k = lo; k < hi; k++) a = body k a]. *)
Definition for_range {A : Type} (lo hi : nat) (body : nat -> A -> A) (a : A) : A :=
  fold_left (fun acc k => body k acc) (seq lo (hi - lo)) a.

(** [std::vector::resize(n, v)]. *)
Definition vec_resize (n : nat) (v : R) (l : list R) : list R :=
  take n l ++ replicate (n - length l) v.

(** [std::copy(src + from, src + from + n, dst + to)]. *)
Definition copy (src : list R) (from n : nat) (dst : list R) (to : nat) : list R :=
  for_range 0 n (fun k d => <[(to + k)%nat := src !!! (from + k)%nat]> d) dst.

(** [M(i,j)] read and written. *)
Definition value (M : DenseMatrix R) (i j : nat) : R :=
  mdata M !!! (nRows M * j + i)%nat.

Definition mat_set (M : DenseMatrix R) (i j : nat) (v : R) : DenseMatrix R :=
  {| nRows := nRows M; nColumns := nColumns M;
     mdata := <[(nRows M * j + i)%nat := v]> (mdata M); ipiv := ipiv M |}.

Definition empty_matrix : DenseMatrix R :=
  {| nRows := 0; nColumns := 0; mdata := []; ipiv := [] |}.

(** [M.resize(n, m, v)]. *)
Definition resize (n m : nat) (v : R) (M : DenseMatrix R) : DenseMatrix R :=
  {| nRows := n; nColumns := m;
     mdata := vec_resize (n * m) v (mdata M); ipiv := ipiv M |}.

(** The loop shape shared by [init], [_update_diff_T] and
    [_update_thermal_T]: [for i < n, for j in i..n-1], the body seeing
    both indices. *)
Definition for_upper {A : Type} (n : nat) (body : nat -> nat -> A -> A) (a : A) : A :=
  for_range 0 n (fun i => for_range i n (fun j => body i j)) a.

(** ** Field updates *)

Definition set_tc (s : MT) (c : TCache R) : MT :=
  {| par := par s; tc := c; fl := fl s; wk := wk s;
     m_molefracs := m_molefracs s; m_thermo := m_thermo s; calls := calls s |}.

Definition set_fl (s : MT) (f : Flags) : MT :=
  {| par := par s; tc := tc s; fl := f; wk := wk s;
     m_molefracs := m_molefracs s; m_thermo := m_thermo s; calls := calls s |}.

Definition set_wk (s : MT) (w : Work R) : MT :=
  {| par := par s; tc := tc s; fl := fl s; wk := w;
     m_molefracs := m_molefracs s; m_thermo := m_thermo s; calls := calls s |}.

Definition set_molefracs (s : MT) (x : list R) : MT :=
  {| par := par s; tc := tc s; fl := fl s; wk := wk s;
     m_molefracs := x; m_thermo := m_thermo s; calls := calls s |}.

Definition set_thermo (s : MT) (th : ThermoPhase R) : MT :=
  {| par := par s; tc := tc s; fl := fl s; wk := wk s;
     m_molefracs := m_molefracs s; m_thermo := th; calls := calls s |}.

Definition set_par (s : MT) (p : Params R) : MT :=
  {| par := p; tc := tc s; fl := fl s; wk := wk s;
     m_molefracs := m_molefracs s; m_thermo := m_thermo s; calls := calls s |}.

Definition log_call (ev : Event) (s : MT) : MT :=
  {| par := par s; tc := tc s; fl := fl s; wk := wk s;
     m_molefracs := m_molefracs s; m_thermo := m_thermo s;
     calls := calls s ++ [ev] |}.

Definition set_visc (c : TCache R) (v : list R) : TCache R :=
  {| m_temp := m_temp c; m_logt := m_logt c; m_kbt := m_kbt c;
     m_sqrt_t := m_sqrt_t c; m_t32 := m_t32 c; m_sqrt_kbt := m_sqrt_kbt c;
     m_polytempvec := m_polytempvec c; m_visc := v; m_phi := m_phi c;
     m_bdiff := m_bdiff c; m_om22 := m_om22 c; m_astar := m_astar c;
     m_bstar := m_bstar c; m_cstar := m_cstar c;
     m_rotrelax := m_rotrelax c; m_cinternal := m_cinternal c |}.

Definition set_phi (c : TCache R) (M : DenseMatrix R) : TCache R :=
  {| m_temp := m_temp c; m_logt := m_logt c; m_kbt := m_kbt c;
     m_sqrt_t := m_sqrt_t c; m_t32 := m_t32 c; m_sqrt_kbt := m_sqrt_kbt c;
     m_polytempvec := m_polytempvec c; m_visc := m_visc c; m_phi := M;
     m_bdiff := m_bdiff c; m_om22 := m_om22 c; m_astar := m_astar c;
     m_bstar := m_bstar c; m_cstar := m_cstar c;
     m_rotrelax := m_rotrelax c; m_cinternal := m_cinternal c |}.

Definition set_bdiff (c : TCache R) (M : DenseMatrix R) : TCache R :=
  {| m_temp := m_temp c; m_logt := m_logt c; m_kbt := m_kbt c;
     m_sqrt_t := m_sqrt_t c; m_t32 := m_t32 c; m_sqrt_kbt := m_sqrt_kbt c;
     m_polytempvec := m_polytempvec c; m_visc := m_visc c; m_phi := m_phi c;
     m_bdiff := M; m_om22 := m_om22 c; m_astar := m_astar c;
     m_bstar := m_bstar c; m_cstar := m_cstar c;
     m_rotrelax := m_rotrelax c; m_cinternal := m_cinternal c |}.

(** The four collision-integral matrices, written together. *)
Definition set_stars (c : TCache R) (q : DenseMatrix R * DenseMatrix R * DenseMatrix R * DenseMatrix R) : TCache R :=
  {| m_temp := m_temp c; m_logt := m_logt c; m_kbt := m_kbt c;
     m_sqrt_t := m_sqrt_t c; m_t32 := m_t32 c; m_sqrt_kbt := m_sqrt_kbt c;
     m_polytempvec := m_polytempvec c; m_visc := m_visc c; m_phi := m_phi c;
     m_bdiff := m_bdiff c; m_om22 := fst (fst (fst q)); m_astar := snd (fst (fst q));
     m_bstar := snd (fst q); m_cstar := snd q;
     m_rotrelax := m_rotrelax c; m_cinternal := m_cinternal c |}.

Definition set_rotrelax (c : TCache R) (v : list R) : TCache R :=
  {| m_temp := m_temp c; m_logt := m_logt c; m_kbt := m_kbt c;
     m_sqrt_t := m_sqrt_t c; m_t32 := m_t32 c; m_sqrt_kbt := m_sqrt_kbt c;
     m_polytempvec := m_polytempvec c; m_visc := m_visc c; m_phi := m_phi c;
     m_bdiff := m_bdiff c; m_om22 := m_om22 c; m_astar := m_astar c;
     m_bstar := m_bstar c; m_cstar := m_cstar c;
     m_rotrelax := v; m_cinternal := m_cinternal c |}.

Definition set_cinternal (c : TCache R) (v : list R) : TCache R :=
  {| m_temp := m_temp c; m_logt := m_logt c; m_kbt := m_kbt c;
     m_sqrt_t := m_sqrt_t c; m_t32 := m_t32 c; m_sqrt_kbt := m_sqrt_kbt c;
     m_polytempvec := m_polytempvec c; m_visc := m_visc c; m_phi := m_phi c;
     m_bdiff := m_bdiff c; m_om22 := m_om22 c; m_astar := m_astar c;
     m_bstar := m_bstar c; m_cstar := m_cstar c;
     m_rotrelax := m_rotrelax c; m_cinternal := v |}.

Definition set_Lmatrix (w : Work R) (M : DenseMatrix R) : Work R :=
  {| m_Lmatrix := M; m_a := m_a w; m_b := m_b w; m_aa := m_aa w; m_spwork := m_spwork w |}.

Definition set_a (w : Work R) (v : list R) : Work R :=
  {| m_Lmatrix := m_Lmatrix w; m_a := v; m_b := m_b w; m_aa := m_aa w; m_spwork := m_spwork w |}.

Definition set_b (w : Work R) (v : list R) : Work R :=
  {| m_Lmatrix := m_Lmatrix w; m_a := m_a w; m_b := v; m_aa := m_aa w; m_spwork := m_spwork w |}.

Definition set_aa (w : Work R) (M : DenseMatrix R) : Work R :=
  {| m_Lmatrix := m_Lmatrix w; m_a := m_a w; m_b := m_b w; m_aa := M; m_spwork := m_spwork w |}.

Definition set_spwork (w : Work R) (v : list R) : Work R :=
  {| m_Lmatrix := m_Lmatrix w; m_a := m_a w; m_b := m_b w; m_aa := m_aa w; m_spwork := v |}.

Definition set_l0000_ok (f : Flags) (b : bool) : Flags :=
  {| m_visc_ok := m_visc_ok f; m_spvisc_ok := m_spvisc_ok f; m_diff_ok := m_diff_ok f;
     m_abc_ok := m_abc_ok f; m_l0000_ok := b; m_lmatrix_soln_ok := m_lmatrix_soln_ok f |}.

Definition set_lmatrix_soln_ok (f : Flags) (b : bool) : Flags :=
  {| m_visc_ok := m_visc_ok f; m_spvisc_ok := m_spvisc_ok f; m_diff_ok := m_diff_ok f;
     m_abc_ok := m_abc_ok f; m_l0000_ok := m_l0000_ok f; m_lmatrix_soln_ok := b |}.

Definition set_diff_ok (f : Flags) (b : bool) : Flags :=
  {| m_visc_ok := m_visc_ok f; m_spvisc_ok := m_spvisc_ok f; m_diff_ok := b;
     m_abc_ok := m_abc_ok f; m_l0000_ok := m_l0000_ok f; m_lmatrix_soln_ok := m_lmatrix_soln_ok f |}.

Definition set_spvisc_ok (f : Flags) (b : bool) : Flags :=
  {| m_visc_ok := m_visc_ok f; m_spvisc_ok := b; m_diff_ok := m_diff_ok f;
     m_abc_ok := m_abc_ok f; m_l0000_ok := m_l0000_ok f; m_lmatrix_soln_ok := m_lmatrix_soln_ok f |}.

Definition set_visc_ok (f : Flags) (b : bool) : Flags :=
  {| m_visc_ok := b; m_spvisc_ok := m_spvisc_ok f; m_diff_ok := m_diff_ok f;
     m_abc_ok := m_abc_ok f; m_l0000_ok := m_l0000_ok f; m_lmatrix_soln_ok := m_lmatrix_soln_ok f |}.

Definition set_abc_ok (f : Flags) (b : bool) : Flags :=
  {| m_visc_ok := m_visc_ok f; m_spvisc_ok := m_spvisc_ok f; m_diff_ok := m_diff_ok f;
     m_abc_ok := b; m_l0000_ok := m_l0000_ok f; m_lmatrix_soln_ok := m_lmatrix_soln_ok f |}.

Definition set_updaters (th : ThermoPhase R) (u : Updaters) : ThermoPhase R :=
  {| nSpecies := nSpecies th; minTemp := minTemp th; maxTemp := maxTemp th;
     temperature := temperature th; pressure := pressure th; density := density th;
     meanMolecularWeight := meanMolecularWeight th;
     molecularWeights := molecularWeights th; moleFractions := moleFractions th;
     massFractions := massFractions th; cp_R := cp_R th; updaters := u |}.

(** ** Constants and helper functions *)

(** [#define MIN_X 1.e-20]. *)
Definition MIN_X : R := lit 1e-20.

Definition ThreeSixteenths : R := (lit 3 / lit 16)%fp.

(** Modelled from the spec: [fmaxx] ([utilities.h] is not among the
    sources) is the floor clamp of section 3, the larger of its two
    arguments. *)
Definition fmaxx (x y : R) : R := if sgt x y then x else y.

(** The Parker temperature correction to the rotational collision number. *)
Definition Frot (tr sqtr : R) : R :=
  let c1 := (lit 0.5 * SqrtPi * Pi)%fp in
  let c2 := (lit 0.25 * Pi * Pi + lit 2)%fp in
  let c3 := (SqrtPi * Pi)%fp in
  (lit 1 + c1 * sqtr + c2 * tr + c3 * sqtr * tr)%fp.

(** [pressure_ig()] ([MultiTransport.h] is not among the sources).
    Modelled from the spec: the current pressure the phase supplies. *)
Definition pressure_ig (s : MT) : R := pressure (m_thermo s).

(** ** The property updaters of the phase *)

Inductive UpdaterId :=
| U_transport_T | U_transport_C | U_spvisc_T | U_visc_T | U_diff_T | U_thermal_T.

Definition is_ok (u : Updaters) (id : UpdaterId) : bool :=
  match id with
  | U_transport_T => ok_transport_T u
  | U_transport_C => ok_transport_C u
  | U_spvisc_T    => ok_spvisc_T u
  | U_visc_T      => ok_visc_T u
  | U_diff_T      => ok_diff_T u
  | U_thermal_T   => ok_thermal_T u
  end.

Definition mark_ok (id : UpdaterId) (u : Updaters) : Updaters :=
  {| ok_transport_T := match id with U_transport_T => true | _ => ok_transport_T u end;
     ok_transport_C := match id with U_transport_C => true | _ => ok_transport_C u end;
     ok_spvisc_T    := match id with U_spvisc_T => true | _ => ok_spvisc_T u end;
     ok_visc_T      := match id with U_visc_T => true | _ => ok_visc_T u end;
     ok_diff_T      := match id with U_diff_T => true | _ => ok_diff_T u end;
     ok_thermal_T   := match id with U_thermal_T => true | _ => ok_thermal_T u end |}.

(** Every updater as [installUpdater_T] / [installUpdater_C] leaves it:
    nothing is valid before it has been computed (section 4.1). *)
Definition none_ok : Updaters :=
  {| ok_transport_T := false; ok_transport_C := false; ok_spvisc_T := false;
     ok_visc_T := false; ok_diff_T := false; ok_thermal_T := false |}.

(** Modelled from the spec: section 3, a temperature change marks every
    temperature-tier entry invalid. *)
Definition need_update_T (u : Updaters) : Updaters :=
  {| ok_transport_T := false; ok_transport_C := ok_transport_C u; ok_spvisc_T := false;
     ok_visc_T := false; ok_diff_T := false; ok_thermal_T := false |}.

(** Modelled from the spec: section 3, a composition change marks the
    composition tier invalid. *)
Definition need_update_C (u : Updaters) : Updaters :=
  {| ok_transport_T := ok_transport_T u; ok_transport_C := false;
     ok_spvisc_T := ok_spvisc_T u; ok_visc_T := ok_visc_T u;
     ok_diff_T := ok_diff_T u; ok_thermal_T := ok_thermal_T u |}.

(** Modelled from the spec: [m_thermo->update_T(id)] and
    [m_thermo->update_C(id)] (the phase's updater table is not among the
    sources).  Section 4.1: a quantity is recomputed only when first
    requested after invalidation, and is tagged valid once its updater
    has run. *)
Definition update (id : UpdaterId) (run : MT -> MT) (s : MT) : MT :=
  if is_ok (updaters (m_thermo s)) id then s
  else
    let s' := run s in
    set_thermo s' (set_updaters (m_thermo s') (mark_ok id (updaters (m_thermo s')))).

(** ** Temperature and composition tiers *)

Definition _update_transport_T (s : MT) : MT :=
  let c := tc s in
  let T := temperature (m_thermo s) in
  let logt := log T in
  let sqrt_t := sqrt T in
  let ptv := <[0%nat := lit 1]> (m_polytempvec c) in
  let ptv := <[1%nat := logt]> ptv in
  let ptv := <[2%nat := (logt * logt)%fp]> ptv in
  let ptv := <[3%nat := (logt * logt * logt)%fp]> ptv in
  let ptv := <[4%nat := (logt * logt * logt * logt)%fp]> ptv in
  let c' :=
    {| m_temp := T; m_logt := logt; m_kbt := (Boltzmann * T)%fp;
       m_sqrt_t := sqrt_t; m_t32 := (T * sqrt_t)%fp;
       m_sqrt_kbt := sqrt (Boltzmann * T)%fp;
       m_polytempvec := ptv; m_visc := m_visc c; m_phi := m_phi c;
       m_bdiff := m_bdiff c; m_om22 := m_om22 c; m_astar := m_astar c;
       m_bstar := m_bstar c; m_cstar := m_cstar c;
       m_rotrelax := m_rotrelax c; m_cinternal := m_cinternal c |} in
  set_fl (set_tc s c')
    {| m_visc_ok := false; m_spvisc_ok := false; m_diff_ok := false;
       m_abc_ok := false; m_l0000_ok := false; m_lmatrix_soln_ok := false |}.

Definition updateTransport_T : MT -> MT := update U_transport_T _update_transport_T.

(** Modelled from the spec: [m_thermo->getMoleFractions(x)], section 6:
    the mole-fraction vector of the phase (length N), copied to [x]. *)
Definition getMoleFractions (th : ThermoPhase R) (x : list R) : list R :=
  copy (moleFractions th) 0 (nSpecies th) x 0.

Definition _update_transport_C (s : MT) : MT :=
  let s := set_fl s (set_lmatrix_soln_ok (set_l0000_ok (fl s) false) false) in
  let x := getMoleFractions (m_thermo s) (m_molefracs s) in
  let x := for_range 0 (m_nsp (par s))
             (fun k x => <[k := fmaxx MIN_X (x !!! k)]> x) x in
  set_molefracs s x.

Definition updateTransport_C : MT -> MT := update U_transport_C _update_transport_C.

(** The body shared by the two modes of [_update_diff_T]: entry (i,j)
    gets the fit numbered [ic], entry (j,i) is copied from it. *)
Definition diff_body (fit : nat -> R) (i j : nat) (q : DenseMatrix R * nat)
  : DenseMatrix R * nat :=
  let '(bd, ic) := q in
  let bd := mat_set bd i j (fit ic) in
  let bd := mat_set bd j i (value bd i j) in
  (bd, S ic).

Definition _update_diff_T (s : MT) : MT :=
  let s := updateTransport_T s in
  let c := tc s in
  let p := par s in
  let fit : nat -> R :=
    if Z.eqb (m_mode p) CK_Mode
    then fun ic => exp (dot4 (m_polytempvec c) (m_diffcoeffs p !!! ic))
    else fun ic => (m_temp c * m_sqrt_t c * dot5 (m_polytempvec c) (m_diffcoeffs p !!! ic))%fp in
  let bd := fst (for_upper (m_nsp p) (diff_body fit) (m_bdiff c, 0%nat)) in
  set_fl (set_tc s (set_bdiff c bd)) (set_diff_ok (fl s) true).

Definition updateDiff_T : MT -> MT := update U_diff_T _update_diff_T.

Definition _update_species_visc_T (s : MT) : MT :=
  let s := updateTransport_T s in
  let c := tc s in
  let p := par s in
  let fit : nat -> R :=
    if Z.eqb (m_mode p) CK_Mode
    then fun k => exp (dot4 (m_polytempvec c) (m_visccoeffs p !!! k))
    else fun k => (m_sqrt_t c * dot5 (m_polytempvec c) (m_visccoeffs p !!! k))%fp in
  let v := for_range 0 (m_nsp p) (fun k v => <[k := fit k]> v) (m_visc c) in
  set_fl (set_tc s (set_visc c v)) (set_spvisc_ok (fl s) true).

Definition updateSpeciesViscosities_T : MT -> MT :=
  update U_spvisc_T _update_species_visc_T.

(** Eq. (9-5.15) of Reid, Prausnitz and Poling. *)
Definition phi_body (visc mw : list R) (j k : nat) (phi : DenseMatrix R) : DenseMatrix R :=
  let vratiokj := (visc !!! k / visc !!! j)%fp in
  let wratiojk := (mw !!! j / mw !!! k)%fp in
  let rootwjk := sqrt wratiojk in
  let factor1 := (lit 1 + sqrt (vratiokj * rootwjk))%fp in
  let phi := mat_set phi k j
    (factor1 * factor1 / (SqrtEight * sqrt (lit 1 + mw !!! k / mw !!! j)))%fp in
  mat_set phi j k (value phi k j / (vratiokj * wratiojk))%fp.

Definition _update_visc_T (s : MT) : MT :=
  let s := updateSpeciesViscosities_T s in
  let c := tc s in
  let phi := for_upper (m_nsp (par s)) (phi_body (m_visc c) (m_mw (par s))) (m_phi c) in
  set_fl (set_tc s (set_phi c phi)) (set_visc_ok (fl s) true).

Definition updateViscosity_T : MT -> MT := update U_visc_T _update_visc_T.

(** One (i,j) step of the collision-integral loop of [_update_thermal_T]. *)
Definition star_body (p : Params R) (logt : R) (i j : nat)
    (q : DenseMatrix R * DenseMatrix R * DenseMatrix R * DenseMatrix R)
  : DenseMatrix R * DenseMatrix R * DenseMatrix R * DenseMatrix R :=
  let '(om, as_, bs, cs) := q in
  let z := (logt - value (m_log_eps_k p) i j)%fp in
  let ipoly := (m_poly p !!! i) !!! j in
  let poly := if Z.eqb (m_mode p) CK_Mode then poly6 else poly8 in
  let om  := mat_set om  i j (poly z (m_om22_poly  p !!! ipoly)) in
  let as_ := mat_set as_ i j (poly z (m_astar_poly p !!! ipoly)) in
  let bs  := mat_set bs  i j (poly z (m_bstar_poly p !!! ipoly)) in
  let cs  := mat_set cs  i j (poly z (m_cstar_poly p !!! ipoly)) in
  (mat_set om  j i (value om  i j),
   mat_set as_ j i (value as_ i j),
   mat_set bs  j i (value bs  i j),
   mat_set cs  j i (value cs  i j)).

(** The self-diffusion estimate written on the diagonal of [m_bdiff]. *)
Definition self_diffusion (p : Params R) (c : TCache R) (k : nat) : R :=
  let cc := (lit 1.2 * GasConstant * m_temp c)%fp in
  (cc * m_visc c !!! k * value (m_astar c) k k / m_mw p !!! k)%fp.

Definition _update_thermal_T (s : MT) : MT :=
  let s := updateSpeciesViscosities_T s in
  let s := updateDiff_T s in
  let p := par s in
  let n := m_nsp p in
  let c := tc s in
  let c := set_stars c
    (for_upper n (star_body p (m_logt c))
       (m_om22 c, m_astar c, m_bstar c, m_cstar c)) in
  let s := set_fl (set_tc s c) (set_abc_ok (fl s) true) in
  let rot := for_range 0 n
    (fun k v =>
       let tr := (m_eps p !!! k / m_kbt c)%fp in
       let sqtr := (m_sqrt_eps_k p !!! k / m_sqrt_t c)%fp in
       <[k := (fmaxx (lit 1) (m_zrot p !!! k) * m_frot_298 p !!! k / Frot tr sqtr)%fp]> v)
    (m_rotrelax c) in
  let c := set_rotrelax c rot in
  let bd := for_range 0 n
    (fun k bd => mat_set bd k k (self_diffusion p c k)) (m_bdiff c) in
  let c := set_bdiff c bd in
  let cp := cp_R (m_thermo s) in
  let ci := for_range 0 n
    (fun k v => <[k := (cp !!! k - lit 2.5)%fp]> v) (m_cinternal c) in
  set_tc s (set_cinternal c ci).

Definition updateThermal_T : MT -> MT := update U_thermal_T _update_thermal_T.

(** ** Sequencing of results *)

Definition bind {S A B : Type} (m : Outcome S A) (f : A -> Outcome S B) : Outcome S B :=
  match m with
  | Ok a => f a
  | Throw e s => Throw e s
  | Exit c => Exit c
  | Overrun => Overrun
  end.

(** A throw inside a function that writes the caller's array [v]: the
    array is as it is at the throw. *)
Definition with_array {A : Type} (v : list R) (m : Result A) : Outcome (MT * list R) A :=
  match m with
  | Ok a => Ok a
  | Throw e s => Throw e (s, v)
  | Exit c => Exit c
  | Overrun => Overrun
  end.

(** The outcome as far as the object goes. *)
Definition object_of {A : Type} (m : Outcome (MT * list R) A) : Result A :=
  match m with
  | Ok a => Ok a
  | Throw e s => Throw e (fst s)
  | Exit c => Exit c
  | Overrun => Overrun
  end.

(** ** Viscosity *)

Definition viscosity (s : MT) : MT * R :=
  let s := updateViscosity_T s in
  let s := updateTransport_C s in
  let n := m_nsp (par s) in
  let x := m_molefracs s in
  let vismix := for_range 0 n
    (fun k vismix =>
       let denom := for_range 0 n
         (fun j denom => (denom + value (m_phi (tc s)) k j * x !!! j)%fp) (lit 0) in
       (vismix + x !!! k * m_visc (tc s) !!! k / denom)%fp)
    (lit 0) in
  (s, vismix).

(** ** Binary diffusion coefficients *)

Definition getBinaryDiffCoeffs (ld : nat) (d : list R) (s : MT) : MT * list R :=
  let s := updateDiff_T s in
  let p := pressure_ig s in
  let rp := (lit 1 / p)%fp in
  let n := m_nsp (par s) in
  let d := for_range 0 n
    (fun i => for_range 0 n
       (fun j d => <[(ld * j + i)%nat := (rp * value (m_bdiff (tc s)) i j)%fp]> d)) d in
  (s, d).

(** ** The L-matrix equation *)

(** The right-hand side [m_b] as the two loops of [solveLMatrixEquation]
    leave it. *)
Definition rhs_vector (p : Params R) (c : TCache R) (x b : list R) : list R :=
  let n := m_nsp p in
  let b := for_range 0 n
    (fun k b =>
       let b := <[k := lit 0]> b in
       let b := <[(k + n)%nat := x !!! k]> b in
       <[(k + 2 * n)%nat := x !!! k]> b) b in
  for_range 0 n
    (fun k b => if hasInternalModes p c k then b else <[(2 * n + k)%nat := lit 0]> b) b.

(** The nine block evaluations, in program order. *)
Definition assemble_L (p : Params R) (c : TCache R) (x : list R) (L : DenseMatrix R)
  : DenseMatrix R :=
  fold_left (fun L blk => eval_L blk p c x L)
    [L0000; L0010; L0001; L1000; L1010; L1001; L0100; L0110; L0101] L.

Definition solveLMatrixEquation (s : MT) : Result MT :=
  let s := updateThermal_T s in
  let s := updateTransport_C s in
  let n := m_nsp (par s) in
  let b := rhs_vector (par s) (tc s) (m_molefracs s) (m_b (wk s)) in
  let s := set_wk s (set_b (wk s) b) in
  let L := resize (3 * n) (3 * n) (lit 0) (m_Lmatrix (wk s)) in
  let L := assemble_L (par s) (tc s) (m_molefracs s) L in
  let s := log_call EvAssembleL (set_wk s (set_Lmatrix (wk s) L)) in
  if m_gmres (par s) then
    let a := gmres (m_mgmres (par s)) (3 * n) L b (m_a (wk s)) (m_eps_gmres (par s)) in
    let s := log_call EvSolveGMRES (set_wk s (set_a (wk s) a)) in
    Ok (set_fl s (set_lmatrix_soln_ok (set_l0000_ok (set_lmatrix_soln_ok (fl s) true) true) true))
  else
    let a0 := copy b 0 (length b) (m_a (wk s)) 0 in
    let '(info, L', a) := solve L a0 in
    let s := log_call EvSolveLU (set_wk s (set_a (set_Lmatrix (wk s) L') a)) in
    if negb (Z.eqb info 0) then
      Throw {| err_proc := "MultiTransport::solveLMatrixEquation";
               err_msg := "error in solving L matrix." |} s
    else
      Ok (set_fl s (set_lmatrix_soln_ok (set_l0000_ok (set_lmatrix_soln_ok (fl s) true) false) true)).

(** ** Thermal conductivity *)

Definition thermalConductivity (s : MT) : Result (MT * R) :=
  bind (solveLMatrixEquation s) (fun s =>
    let n := m_nsp (par s) in
    let sum := for_range 0 (2 * n)
      (fun k sum => (sum + m_b (wk s) !!! (k + n)%nat * m_a (wk s) !!! (k + n)%nat)%fp)
      (lit 0) in
    Ok (s, (lit (-4) * sum)%fp)).

(** ** Thermal diffusion coefficients *)

Definition getThermalDiffCoeffs (dt : list R) (s : MT) : Result (MT * list R) :=
  bind (solveLMatrixEquation s) (fun s =>
    let c := (lit 1.6 / GasConstant)%fp in
    let dt := for_range 0 (m_nsp (par s))
      (fun k dt =>
         <[k := (c * m_mw (par s) !!! k * m_molefracs s !!! k * m_a (wk s) !!! k)%fp]> dt)
      dt in
    Ok (s, dt)).

(** ** Species fluxes *)

(** [addThermalDiffusion]: some component of [grad_T] differs from 0. *)
Definition any_nonzero (ndim : nat) (grad_T : list R) : bool :=
  for_range 0 ndim (fun i acc => if sne (grad_T !!! i) (lit 0) then true else acc) false.

(** The matrix of the Stefan-Maxwell equations, before the row
    replacement. *)
Definition flux_matrix (n : nat) (x : list R) (bdiff aa : DenseMatrix R) : DenseMatrix R :=
  for_range 0 n
    (fun i aa =>
       let '(aa, sum) := for_range 0 n
         (fun j '(aa, sum) =>
            let aa := mat_set aa i j (x !!! j * x !!! i / value bdiff i j)%fp in
            (aa, (sum + value aa i j)%fp))
         (aa, lit 0) in
       mat_set aa i i (value aa i i - sum)%fp)
    aa.

(** The species with the largest gradient component in the first
    coordinate direction. *)
Definition find_jmax (n : nat) (grad_X : list R) : nat :=
  fst (for_range 0 n
    (fun j '(jmax, gradmax) =>
       if sgt (fabs (grad_X !!! j)) gradmax then (j, fabs (grad_X !!! j))
       else (jmax, gradmax))
    (0%nat, lit (-1))).

(** "copy grad_X to fluxes", zeroing the entry of species [jmax]. *)
Definition flux_rhs (n ndim ldx ldf jmax : nat) (grad_X fluxes : list R) : list R :=
  for_range 0 ndim
    (fun d fluxes =>
       let fluxes := copy grad_X (ldx * d) n fluxes (ldf * d) in
       <[(jmax + d * ldf)%nat := lit 0]> fluxes)
    fluxes.

(** Diffusion velocities to mass fluxes. *)
Definition flux_scale (n ndim ldf : nat) (rho pp : R) (y fluxes : list R) : list R :=
  for_range 0 ndim
    (fun d => let offset := (d * ldf)%nat in
       for_range 0 n
         (fun i fluxes =>
            <[(i + offset)%nat := (fluxes !!! (i + offset)%nat * (rho * y !!! i / pp))%fp]> fluxes))
    fluxes.

(** The thermal-diffusion (Soret) term. *)
Definition flux_soret (n ndim ldf : nat) (temp : R) (grad_T spwork fluxes : list R) : list R :=
  for_range 0 ndim
    (fun d => let offset := (d * ldf)%nat in
       let grad_logt := (grad_T !!! d / temp)%fp in
       for_range 0 n
         (fun i fluxes =>
            <[(i + offset)%nat := (fluxes !!! (i + offset)%nat - spwork !!! i * grad_logt)%fp]> fluxes))
    fluxes.

(** [v[k] = x] on a vector the function allocated itself: past its end
    the behaviour is undefined ([None]). *)
Definition store (k : nat) (x : R) (v : option (list R)) : option (list R) :=
  match v with
  | Some v => if (k <? length v)%nat then Some (<[k := x]> v) else None
  | None => None
  end.

(** The local vector [grx], allocated with [ldx*m_nsp] entries, after
    the loop that copies the first [ldx*ndim] entries of [grad_X] into
    it. *)
Definition fill_grx (n ndim ldx : nat) (grad_X : list R) : option (list R) :=
  for_range 0 (ldx * ndim) (fun k grx => store k (grad_X !!! k) grx)
    (Some (vec_resize (ldx * n) (lit 0) [])).

(** The linear system handed to LAPACK: the matrix with the row of
    species [jmax] replaced by the mass fractions, and the right-hand
    sides. *)
Definition flux_system (n ndim ldx ldf : nat) (x y : list R) (bdiff aa : DenseMatrix R)
    (grad_X fluxes : list R) : DenseMatrix R * list R :=
  let aa := flux_matrix n x bdiff aa in
  let jmax := find_jmax n grad_X in
  let aa := for_range 0 n (fun j aa => mat_set aa jmax j (y !!! j)) aa in
  (aa, flux_rhs n ndim ldx ldf jmax grad_X fluxes).

(** The part of [getSpeciesFluxes] after the thermal diffusion
    coefficients: the linear system, the local vector [grx], the
    solution by LAPACK, the scaling and the thermal-diffusion term.  A
    throw leaves the object and the caller's [fluxes] as they are then:
    the array already holds the right-hand sides when the factorisation
    fails, and what [ct_dgetrs] left when the back-substitution does.
    The local vector [gsave] is allocated and never used. *)
Definition solve_fluxes (addThermalDiffusion : bool) (ndim : nat) (grad_T : list R)
    (ldx : nat) (grad_X : list R) (ldf : nat) (fluxes : list R) (s : MT)
  : Outcome (MT * list R) (MT * list R) :=
  let y := massFractions (m_thermo s) in
  let rho := density (m_thermo s) in
  let n := m_nsp (par s) in
  let sys :=
    flux_system n ndim ldx ldf (m_molefracs s) y (m_bdiff (tc s)) (m_aa (wk s))
      grad_X fluxes in
  let aa := fst sys in
  match fill_grx n ndim ldx grad_X with
  | None => Overrun
  | Some grx =>
  let fluxes := snd sys in
  let '(lu, piv, info) := ct_dgetrf (nRows aa) (nColumns aa) (mdata aa) (nRows aa) in
  let aa := {| nRows := nRows aa; nColumns := nColumns aa; mdata := lu; ipiv := piv |} in
  let s := log_call EvFactor (set_wk s (set_aa (wk s) aa)) in
  if negb (Z.eqb info 0) then
    Throw {| err_proc := "MultiTransport::getSpeciesFluxes";
             err_msg := "Error in DGETRF" |} (s, fluxes)
  else
    let '(fluxes, info) :=
      ct_dgetrs (nRows aa) ndim (mdata aa) (nRows aa) (ipiv aa) fluxes ldf in
    let info := if negb (Z.eqb info 0) then (info + 100)%Z else info in
    let s := log_call EvBackSolve s in
    if Z.ltb 50 info then
      Throw {| err_proc := "MultiTransport::getSpeciesFluxes";
               err_msg := "Error in DGETRS" |} (s, fluxes)
    else
      let pp := pressure_ig s in
      let fluxes := flux_scale n ndim ldf rho pp y fluxes in
      let fluxes :=
        if addThermalDiffusion
        then flux_soret n ndim ldf (m_temp (tc s)) grad_T (m_spwork (wk s)) fluxes
        else fluxes in
      Ok (s, fluxes)
  end.

(** [getSpeciesFluxes]: when the L-matrix solve throws, [fluxes] has not
    been written yet. *)
Definition getSpeciesFluxes (ndim : nat) (grad_T : list R) (ldx : nat) (grad_X : list R)
    (ldf : nat) (fluxes : list R) (s : MT) : Outcome (MT * list R) (MT * list R) :=
  let s := updateDiff_T s in
  let addThermalDiffusion := any_nonzero ndim grad_T in
  bind (with_array fluxes
          (if addThermalDiffusion
           then bind (getThermalDiffCoeffs (m_spwork (wk s)) s)
                  (fun r => Ok (set_wk (fst r) (set_spwork (wk (fst r)) (snd r))))
           else Ok s))
    (solve_fluxes addThermalDiffusion ndim grad_T ldx grad_X ldf fluxes).

(** ** Multicomponent diffusion coefficients *)

Definition getMultiDiffCoeffs (ld : nat) (d : list R) (s : MT) : Result (MT * list R) :=
  let p := pressure_ig s in
  let s := updateTransport_C s in
  let s := updateDiff_T s in
  let L := if m_l0000_ok (fl s) then m_Lmatrix (wk s)
           else eval_L L0000 (par s) (tc s) (m_molefracs s) (m_Lmatrix (wk s)) in
  let '(ierr, L) := invert L (m_nsp (par s)) in
  let s := log_call EvInvert (set_wk s (set_Lmatrix (wk s) L)) in
  if negb (Z.eqb ierr 0) then
    (* cout << " invert returned ierr = " << ierr << endl; exit(1); *)
    Exit 1
  else
    let s := set_fl s (set_l0000_ok (fl s) false) in
    let prefactor :=
      (lit 16 * m_temp (tc s) * meanMolecularWeight (m_thermo s) / (lit 25 * p))%fp in
    let n := m_nsp (par s) in
    let d := for_range 0 n
      (fun i => for_range 0 n
         (fun j d =>
            let c := (prefactor / m_mw (par s) !!! j)%fp in
            <[(ld * j + i)%nat :=
                (c * m_molefracs s !!! i * (value L i j - value L i i))%fp]> d)) d in
    Ok (s, d).

(** ** Construction *)

(** [MultiTransport::init] on a newly constructed object (every vector
    and matrix member empty).  The scalar members of the temperature
    tier are not initialised by [init]; they are written by
    [_update_transport_T] before any read, and stand at 0 here. *)
Definition init (tr : TransportParams R) : MT :=
  let th := tr_thermo tr in
  let n := nSpecies th in
  let zeros := vec_resize n (lit 0) [] in
  let square := resize n n (lit 0) empty_matrix in
  let mw := copy (molecularWeights th) 0 (length (molecularWeights th)) zeros 0 in
  let log_eps_k := for_upper n
    (fun i j M =>
       let M := mat_set M i j (log (value (tr_epsilon tr) i j / Boltzmann)%fp) in
       mat_set M j i (value M i j))
    square in
  let sq298 := sqrt (lit 298) in
  let kb298 := (Boltzmann * lit 298)%fp in
  let rot := for_range 0 n
    (fun k '(se, fr) =>
       let se := <[k := sqrt (tr_eps tr !!! k / Boltzmann)%fp]> se in
       (se, <[k := Frot (tr_eps tr !!! k / kb298)%fp (se !!! k / sq298)%fp]> fr))
    (zeros, zeros) in
  let sqrt_eps_k := fst rot in
  let frot_298 := snd rot in
  {| par :=
       {| m_nsp := n; m_tmin := minTemp th; m_tmax := maxTemp th; m_mw := mw;
          m_poly := tr_poly tr; m_visccoeffs := tr_visccoeffs tr;
          m_diffcoeffs := tr_diffcoeffs tr; m_astar_poly := tr_astar_poly tr;
          m_bstar_poly := tr_bstar_poly tr; m_cstar_poly := tr_cstar_poly tr;
          m_om22_poly := tr_omega22_poly tr; m_zrot := tr_zrot tr; m_crot := tr_crot tr;
          m_epsilon := tr_epsilon tr; m_mode := tr_mode tr; m_diam := tr_diam tr;
          m_eps := tr_eps tr; m_log_eps_k := log_eps_k; m_sqrt_eps_k := sqrt_eps_k;
          m_frot_298 := frot_298;
          m_gmres := false; m_mgmres := 100; m_eps_gmres := lit 1e-4 |};
     tc :=
       {| m_temp := lit 0; m_logt := lit 0; m_kbt := lit 0; m_sqrt_t := lit 0;
          m_t32 := lit 0; m_sqrt_kbt := lit 0;
          m_polytempvec := vec_resize 5 (lit 0) [];
          m_visc := zeros; m_phi := square; m_bdiff := square; m_om22 := square;
          m_astar := square; m_bstar := square; m_cstar := square;
          m_rotrelax := zeros; m_cinternal := zeros |};
     fl :=
       {| m_visc_ok := false; m_spvisc_ok := false; m_diff_ok := false;
          m_abc_ok := false; m_l0000_ok := false; m_lmatrix_soln_ok := false |};
     wk :=
       {| m_Lmatrix := resize (3 * n) (3 * n) (lit 0) empty_matrix;
          m_a := vec_resize (3 * n) (lit 1) [];
          m_b := vec_resize (3 * n) (lit 0) [];
          m_aa := square; m_spwork := zeros |};
     m_molefracs := zeros;
     m_thermo := set_updaters th none_ok;
     calls := [] |}.

(** ** State changes of the phase *)

(** Modelled from the spec: section 3, "temperature-tier caches are
    invalid whenever temperature changes; composition-tier cache is
    invalid whenever the mole-fraction vector changes".  A temperature
    change brings the new temperature with its cp/R values; a
    composition change brings the new mole and mass fractions and mean
    molecular weight; density and pressure may change with either, or
    alone, which invalidates nothing. *)
Definition change_temperature (T : R) (cp : list R) (th : ThermoPhase R) : ThermoPhase R :=
  {| nSpecies := nSpecies th; minTemp := minTemp th; maxTemp := maxTemp th;
     temperature := T; pressure := pressure th; density := density th;
     meanMolecularWeight := meanMolecularWeight th;
     molecularWeights := molecularWeights th; moleFractions := moleFractions th;
     massFractions := massFractions th; cp_R := cp;
     updaters := need_update_T (updaters th) |}.

Definition change_composition (X Y : list R) (mmw : R) (th : ThermoPhase R) : ThermoPhase R :=
  {| nSpecies := nSpecies th; minTemp := minTemp th; maxTemp := maxTemp th;
     temperature := temperature th; pressure := pressure th; density := density th;
     meanMolecularWeight := mmw;
     molecularWeights := molecularWeights th; moleFractions := X;
     massFractions := Y; cp_R := cp_R th;
     updaters := need_update_C (updaters th) |}.

Definition change_density (rho P : R) (th : ThermoPhase R) : ThermoPhase R :=
  {| nSpecies := nSpecies th; minTemp := minTemp th; maxTemp := maxTemp th;
     temperature := temperature th; pressure := P; density := rho;
     meanMolecularWeight := meanMolecularWeight th;
     molecularWeights := molecularWeights th; moleFractions := moleFractions th;
     massFractions := massFractions th; cp_R := cp_R th;
     updaters := updaters th |}.

(** Modelled from the spec: section 6, the choice between the direct and
    the iterative solve, the iteration cap and the tolerance are set by
    the model builder ([init] itself selects the direct solve). *)
Definition set_options (g : bool) (m : nat) (eps : R) (p : Params R) : Params R :=
  {| m_nsp := m_nsp p; m_tmin := m_tmin p; m_tmax := m_tmax p; m_mw := m_mw p;
     m_poly := m_poly p; m_visccoeffs := m_visccoeffs p;
     m_diffcoeffs := m_diffcoeffs p; m_astar_poly := m_astar_poly p;
     m_bstar_poly := m_bstar_poly p; m_cstar_poly := m_cstar_poly p;
     m_om22_poly := m_om22_poly p; m_zrot := m_zrot p; m_crot := m_crot p;
     m_epsilon := m_epsilon p; m_mode := m_mode p; m_diam := m_diam p;
     m_eps := m_eps p; m_log_eps_k := m_log_eps_k p; m_sqrt_eps_k := m_sqrt_eps_k p;
     m_frot_298 := m_frot_298 p;
     m_gmres := g; m_mgmres := m; m_eps_gmres := eps |}.

(** ** The public operations, as one type *)

Inductive Query :=
| Q_viscosity
| Q_getBinaryDiffCoeffs (ld : nat) (d : list R)
| Q_thermalConductivity
| Q_getThermalDiffCoeffs (dt : list R)
| Q_getSpeciesFluxes (ndim : nat) (grad_T : list R) (ldx : nat) (grad_X : list R)
    (ldf : nat) (fluxes : list R)
| Q_getMultiDiffCoeffs (ld : nat) (d : list R).

Inductive Answer :=
| A_scalar (v : R)
| A_array (v : list R).

Definition query (q : Query) (s : MT) : Result (MT * Answer) :=
  match q with
  | Q_viscosity => let '(s, v) := viscosity s in Ok (s, A_scalar v)
  | Q_getBinaryDiffCoeffs ld d =>
      let '(s, d) := getBinaryDiffCoeffs ld d s in Ok (s, A_array d)
  | Q_thermalConductivity =>
      bind (thermalConductivity s) (fun '(s, v) => Ok (s, A_scalar v))
  | Q_getThermalDiffCoeffs dt =>
      bind (getThermalDiffCoeffs dt s) (fun '(s, v) => Ok (s, A_array v))
  | Q_getSpeciesFluxes ndim grad_T ldx grad_X ldf fluxes =>
      bind (object_of (getSpeciesFluxes ndim grad_T ldx grad_X ldf fluxes s))
        (fun '(s, v) => Ok (s, A_array v))
  | Q_getMultiDiffCoeffs ld d =>
      bind (getMultiDiffCoeffs ld d s) (fun '(s, v) => Ok (s, A_array v))
  end.

(** The object after a call: as returned, or as left at the [throw]. *)
Definition state_after {A : Type} (r : Result (MT * A)) : option MT :=
  match r with
  | Ok (s, _) => Some s
  | Throw _ s => Some s
  | Exit _ => None
  | Overrun => None
  end.

(** The states an object goes through: [init], then state changes of
    the phase, option changes and queries, in any order. *)
Inductive reachable : MT -> Prop :=
| reach_init tr : reachable (init tr)
| reach_options s g m eps :
    reachable s -> reachable (set_par s (set_options g m eps (par s)))
| reach_temperature s T cp :
    reachable s -> reachable (set_thermo s (change_temperature T cp (m_thermo s)))
| reach_composition s X Y mmw :
    reachable s -> reachable (set_thermo s (change_composition X Y mmw (m_thermo s)))
| reach_density s rho P :
    reachable s -> reachable (set_thermo s (change_density rho P (m_thermo s)))
| reach_query s q s' :
    reachable s -> state_after (query q s) = Some s' -> reachable s'.

End Program.

(* ================================================================== *)
(** * Specification vocabulary                                          *)
(* ================================================================== *)

Section Vocabulary.
Context {R : Type} {SC : Scalar R} {CO : Collab R}.

(** The sum of [f k] for [lo <= k < hi], accumulated from 0 in
    increasing [k]. *)
Definition sum_over (lo hi : nat) (f : nat -> R) : R :=
  fold_left (fun acc k => (acc + f k)%fp) (seq lo (hi - lo)) (lit 0).

(** The floor-clamped mole fraction of species [k]. *)
Definition clamped (th : ThermoPhase R) (k : nat) : R :=
  fmaxx MIN_X (moleFractions th !!! k).

(** Position of the pair (i,j), i <= j, in the row-by-row enumeration of
    the upper triangle of an n by n matrix. *)
Fixpoint row_start (n i : nat) : nat :=
  match i with
  | 0 => 0
  | S i' => row_start n i' + (n - i')
  end.

Definition upper_index (n i j : nat) : nat :=
  row_start n (Nat.min i j) + (Nat.max i j - Nat.min i j).

(** The polynomial fit of the binary diffusion coefficient of the pair
    (i,j) at unit pressure, from the cached powers of log T. *)
Definition bdiff_fit (p : Params R) (c : TCache R) (i j : nat) : R :=
  let ic := upper_index (m_nsp p) i j in
  if Z.eqb (m_mode p) CK_Mode
  then exp (dot4 (m_polytempvec c) (m_diffcoeffs p !!! ic))
  else (m_temp c * m_sqrt_t c * dot5 (m_polytempvec c) (m_diffcoeffs p !!! ic))%fp.

(** The updaters a query asks the phase to bring up to date. *)
Definition triggers (q : Query (R:=R)) : list UpdaterId :=
  match q with
  | Q_viscosity => [U_visc_T; U_transport_C]
  | Q_getBinaryDiffCoeffs _ _ => [U_diff_T]
  | Q_thermalConductivity => [U_thermal_T; U_transport_C]
  | Q_getThermalDiffCoeffs _ => [U_thermal_T; U_transport_C]
  | Q_getSpeciesFluxes ndim grad_T _ _ _ _ =>
      if any_nonzero ndim grad_T then [U_diff_T; U_thermal_T; U_transport_C]
      else [U_diff_T]
  | Q_getMultiDiffCoeffs _ _ => [U_transport_C; U_diff_T]
  end.

Definition is_T (id : UpdaterId) : bool :=
  match id with U_transport_C => false | _ => true end.


(** The sizes [init] gives the members the proofs index. *)
Record sized (s : MultiTransport R) : Prop := {
  sz_species   : m_nsp (par s) = nSpecies (m_thermo s);
  sz_bdiff_r   : nRows (m_bdiff (tc s)) = m_nsp (par s);
  sz_bdiff     : length (mdata (m_bdiff (tc s))) = (m_nsp (par s) * m_nsp (par s))%nat;
  sz_b         : length (m_b (wk s)) = (3 * m_nsp (par s))%nat;
  sz_molefracs : length (m_molefracs s) = m_nsp (par s);
  sz_spwork    : length (m_spwork (wk s)) = m_nsp (par s)
}.

(** What the valid tags promise: a valid temperature tier holds the
    temperature of the phase; a valid composition tier holds the
    clamped mole fractions of the phase; a valid binary-diffusion tier
    sits on a valid temperature tier and holds the polynomial fits off
    the diagonal; a valid thermal tier sits on valid binary-diffusion
    and species-viscosity tiers and holds the self-diffusion estimates
    on the diagonal. *)
Record coherent (s : MultiTransport R) : Prop := {
  co_temperature :
    ok_transport_T (updaters (m_thermo s)) = true ->
    m_temp (tc s) = temperature (m_thermo s);
  co_composition :
    ok_transport_C (updaters (m_thermo s)) = true ->
    forall k, (k < m_nsp (par s))%nat -> m_molefracs s !!! k = clamped (m_thermo s) k;
  co_diff_T :
    ok_diff_T (updaters (m_thermo s)) = true ->
    ok_transport_T (updaters (m_thermo s)) = true;
  co_bdiff :
    ok_diff_T (updaters (m_thermo s)) = true ->
    forall i j, (i < m_nsp (par s))%nat -> (j < m_nsp (par s))%nat -> i <> j ->
      value (m_bdiff (tc s)) i j = bdiff_fit (par s) (tc s) i j;
  co_thermal_T :
    ok_thermal_T (updaters (m_thermo s)) = true ->
    ok_diff_T (updaters (m_thermo s)) = true /\
    ok_spvisc_T (updaters (m_thermo s)) = true;
  co_diagonal :
    ok_thermal_T (updaters (m_thermo s)) = true ->
    forall k, (k < m_nsp (par s))%nat ->
      value (m_bdiff (tc s)) k k = self_diffusion (par s) (tc s) k
}.

(** A square matrix of order [n]. *)
Definition square (n : nat) (M : DenseMatrix R) : Prop :=
  nRows M = n /\ length (mdata M) = (n * n)%nat.

(** The phase up to its updater tags. *)
Definition same_phase (th th' : ThermoPhase R) : Prop :=
  th' = set_updaters th (updaters th').

(** Tags only go from stale to valid. *)
Definition tags_grow (u u' : Updaters) : Prop :=
  forall id, is_ok u id = true -> is_ok u' id = true.

(** What a temperature updater may change: the temperature tier, the
    boolean members and temperature tags. *)
Record T_frame (s s' : MultiTransport R) : Prop := {
  tf_par       : par s' = par s;
  tf_wk        : wk s' = wk s;
  tf_molefracs : m_molefracs s' = m_molefracs s;
  tf_calls     : calls s' = calls s;
  tf_phase     : same_phase (m_thermo s) (m_thermo s');
  tf_grow      : tags_grow (updaters (m_thermo s)) (updaters (m_thermo s'));
  tf_C         : ok_transport_C (updaters (m_thermo s')) = ok_transport_C (updaters (m_thermo s))
}.

(** States that agree on what the invariant reads. *)
Record same_core (s s' : MultiTransport R) : Prop := {
  sc_par       : par s' = par s;
  sc_tc        : tc s' = tc s;
  sc_molefracs : m_molefracs s' = m_molefracs s;
  sc_thermo    : m_thermo s' = m_thermo s;
  sc_b         : length (m_b (wk s')) = length (m_b (wk s));
  sc_spwork    : length (m_spwork (wk s')) = length (m_spwork (wk s))
}.

(** The invariant: sizes and coherence of the valid tags. *)
Definition Inv (s : MultiTransport R) : Prop := sized s /\ coherent s.

(** The object as [solveLMatrixEquation] leaves it, on return or at the
    throw. *)
Definition solved (s s' : MultiTransport R) : Prop :=
  solveLMatrixEquation s = Ok s' \/ exists e, solveLMatrixEquation s = Throw e s'.

(** The diffusion velocities LAPACK returns for the system [aa], [rhs]:
    the right-hand sides as [ct_dgetrs] leaves them. *)
Definition lapack_velocities (aa : DenseMatrix R) (ndim : nat) (rhs : list R) (ldf : nat)
  : list R :=
  let f := ct_dgetrf (nRows aa) (nColumns aa) (mdata aa) (nRows aa) in
  fst (ct_dgetrs (nRows aa) ndim (fst (fst f)) (nRows aa) (snd (fst f)) rhs ldf).

(** The object as [getSpeciesFluxes] has it when it builds the flux
    system: after the binary-diffusion update and, when some component
    of grad_T differs from 0, with the thermal diffusion coefficients of
    [getThermalDiffCoeffs] in [m_spwork]; [None] when the L-matrix solve
    did not return. *)
Definition flux_stage (ndim : nat) (grad_T : list R) (s : MultiTransport R)
  : option (MultiTransport R) :=
  let s := updateDiff_T s in
  if any_nonzero ndim grad_T then
    match getThermalDiffCoeffs (m_spwork (wk s)) s with
    | Ok r => Some (set_wk (fst r) (set_spwork (wk (fst r)) (snd r)))
    | _ => None
    end
  else Some s.


(** The flux component of species [k] in direction [d] if the
    thermal term subtracted from [base] were M_k x_k dt_k grad_T[d] / T. *)
Definition weighted_soret_flux (mw x dt grad_T : list R) (temp : R) (ldf : nat)
    (base : list R) (d k : nat) : R :=
  (base !!! (k + d * ldf)%nat
   - mw !!! k * x !!! k * dt !!! k * (grad_T !!! d / temp))%fp.


Definition flux_sum (n ldf d : nat) (fl : list R) : R :=
  sum_over 0 n (fun k => fl !!! (k + d * ldf)%nat).

(** ** The temperature tier, entry by entry *)

(** The powers of log T kept in [m_polytempvec]. *)
Definition log_powers (l : R) : list R :=
  [lit 1; l; (l * l)%fp; (l * l * l)%fp; (l * l * l * l)%fp].

(** The scalar members of the temperature tier as [_update_transport_T]
    writes them at temperature [T]. *)
Record at_temperature (T : R) (c : TCache R) : Prop := {
  at_temp     : m_temp c = T;
  at_logt     : m_logt c = log T;
  at_kbt      : m_kbt c = (Boltzmann * T)%fp;
  at_sqrt_t   : m_sqrt_t c = sqrt T;
  at_t32      : m_t32 c = (T * sqrt T)%fp;
  at_sqrt_kbt : m_sqrt_kbt c = sqrt (Boltzmann * T)%fp;
  at_powers   : m_polytempvec c = log_powers (log T)
}.

(** The polynomial fit of the viscosity of species [k], from the cached
    powers of log T. *)
Definition visc_fit (p : Params R) (c : TCache R) (k : nat) : R :=
  if Z.eqb (m_mode p) CK_Mode
  then exp (dot4 (m_polytempvec c) (m_visccoeffs p !!! k))
  else (m_sqrt_t c * dot5 (m_polytempvec c) (m_visccoeffs p !!! k))%fp.

(** The viscosity fit of species [k] at temperature [T]. *)
Definition species_viscosity (p : Params R) (T : R) (k : nat) : R :=
  if Z.eqb (m_mode p) CK_Mode
  then exp (dot4 (log_powers (log T)) (m_visccoeffs p !!! k))
  else (sqrt T * dot5 (log_powers (log T)) (m_visccoeffs p !!! k))%fp.

(** The two entries one step of the loop of [_update_visc_T] writes for
    the pair j <= k: [phi(k,j)], and [phi(j,k)] computed from it. *)
Definition wilke_lower (visc mw : list R) (k j : nat) : R :=
  let vratiokj := (visc !!! k / visc !!! j)%fp in
  let wratiojk := (mw !!! j / mw !!! k)%fp in
  let rootwjk := sqrt wratiojk in
  let factor1 := (lit 1 + sqrt (vratiokj * rootwjk))%fp in
  (factor1 * factor1 / (SqrtEight * sqrt (lit 1 + mw !!! k / mw !!! j)))%fp.

Definition wilke_upper (visc mw : list R) (k j : nat) : R :=
  let vratiokj := (visc !!! k / visc !!! j)%fp in
  let wratiojk := (mw !!! j / mw !!! k)%fp in
  (wilke_lower visc mw k j / (vratiokj * wratiojk))%fp.

(** Entry (r,c) of [m_phi] once the loop is over. *)
Definition wilke_phi (visc mw : list R) (r c : nat) : R :=
  if (c <? r)%nat then wilke_lower visc mw r c else wilke_upper visc mw c r.

(** The fit of a collision-integral ratio for the pair (i,j): the
    polynomial selected by [m_poly] for the pair, at the reduced
    logarithmic temperature of the pair. *)
Definition star_fit (p : Params R) (c : TCache R) (coeffs : list (list R)) (i j : nat) : R :=
  let lo := Nat.min i j in
  let hi := Nat.max i j in
  let z := (m_logt c - value (m_log_eps_k p) lo hi)%fp in
  let ipoly := (m_poly p !!! lo) !!! hi in
  (if Z.eqb (m_mode p) CK_Mode then poly6 else poly8) z (coeffs !!! ipoly).

(** The rotational relaxation number of species [k]. *)
Definition rot_relax (p : Params R) (c : TCache R) (k : nat) : R :=
  (fmaxx (lit 1) (m_zrot p !!! k) * m_frot_298 p !!! k
   / Frot (m_eps p !!! k / m_kbt c) (m_sqrt_eps_k p !!! k / m_sqrt_t c))%fp.

(** What the valid tags promise of the rest of the temperature tier. *)
Record tiered (s : MultiTransport R) : Prop := {
  ti_powers_len : length (m_polytempvec (tc s)) = 5%nat;
  ti_visc_len   : length (m_visc (tc s)) = m_nsp (par s);
  ti_phi_sq     : square (m_nsp (par s)) (m_phi (tc s));
  ti_om22_sq    : square (m_nsp (par s)) (m_om22 (tc s));
  ti_astar_sq   : square (m_nsp (par s)) (m_astar (tc s));
  ti_bstar_sq   : square (m_nsp (par s)) (m_bstar (tc s));
  ti_cstar_sq   : square (m_nsp (par s)) (m_cstar (tc s));
  ti_rot_len    : length (m_rotrelax (tc s)) = m_nsp (par s);
  ti_cint_len   : length (m_cinternal (tc s)) = m_nsp (par s);
  ti_on_T :
    forall id, is_T id = true -> is_ok (updaters (m_thermo s)) id = true ->
      ok_transport_T (updaters (m_thermo s)) = true;
  ti_visc_on :
    ok_visc_T (updaters (m_thermo s)) = true -> ok_spvisc_T (updaters (m_thermo s)) = true;
  ti_thermal_on :
    ok_thermal_T (updaters (m_thermo s)) = true -> ok_spvisc_T (updaters (m_thermo s)) = true;
  ti_scalars :
    ok_transport_T (updaters (m_thermo s)) = true ->
    at_temperature (temperature (m_thermo s)) (tc s);
  ti_visc :
    ok_spvisc_T (updaters (m_thermo s)) = true ->
    forall k, (k < m_nsp (par s))%nat -> m_visc (tc s) !!! k = visc_fit (par s) (tc s) k;
  ti_phi :
    ok_visc_T (updaters (m_thermo s)) = true ->
    forall r c, (r < m_nsp (par s))%nat -> (c < m_nsp (par s))%nat ->
      value (m_phi (tc s)) r c = wilke_phi (m_visc (tc s)) (m_mw (par s)) r c;
  ti_stars :
    ok_thermal_T (updaters (m_thermo s)) = true ->
    forall i j, (i < m_nsp (par s))%nat -> (j < m_nsp (par s))%nat ->
      value (m_om22 (tc s)) i j = star_fit (par s) (tc s) (m_om22_poly (par s)) i j /\
      value (m_astar (tc s)) i j = star_fit (par s) (tc s) (m_astar_poly (par s)) i j /\
      value (m_bstar (tc s)) i j = star_fit (par s) (tc s) (m_bstar_poly (par s)) i j /\
      value (m_cstar (tc s)) i j = star_fit (par s) (tc s) (m_cstar_poly (par s)) i j;
  ti_rot :
    ok_thermal_T (updaters (m_thermo s)) = true ->
    forall k, (k < m_nsp (par s))%nat ->
      m_rotrelax (tc s) !!! k = rot_relax (par s) (tc s) k /\
      m_cinternal (tc s) !!! k = (cp_R (m_thermo s) !!! k - lit 2.5)%fp
}.

(** One step of a loop over the upper triangle that writes the entry
    (i,j) and then its mirror image (j,i); [mirror] says which of the two
    is written first. *)
Definition pair_body (lower_first : bool) (first second : nat -> nat -> R) (i j : nat)
    (M : DenseMatrix R) : DenseMatrix R :=
  if lower_first
  then mat_set (mat_set M j i (first i j)) i j (second i j)
  else mat_set (mat_set M i j (first i j)) j i (second i j).

(** What a pair step leaves at (i',j'). *)
Definition pair_entry (lower_first : bool) (first second : nat -> nat -> R) (r c : nat) : R :=
  if decide (r = c) then second r r
  else if lower_first
       then (if (c <? r)%nat then first c r else second r c)
       else (if (r <? c)%nat then first r c else second c r).

(** The step of the collision-integral loop is a pair step on each of
    the four matrices, upper entry first, the mirror entry copied. *)
Definition star_entry (p : Params R) (logt : R) (coeffs : list (list R)) (i j : nat) : R :=
  let z := (logt - value (m_log_eps_k p) i j)%fp in
  let ipoly := (m_poly p !!! i) !!! j in
  (if Z.eqb (m_mode p) CK_Mode then poly6 else poly8) z (coeffs !!! ipoly).

Definition squares4 (n : nat)
    (q : DenseMatrix R * DenseMatrix R * DenseMatrix R * DenseMatrix R) : Prop :=
  square n (fst (fst (fst q))) /\ square n (snd (fst (fst q))) /\
  square n (snd (fst q)) /\ square n (snd q).

(** ** Failures and solver calls *)

(** The three errors [MultiTransport.cpp] throws. *)
Definition solve_error : CanteraError :=
  {| err_proc := "MultiTransport::solveLMatrixEquation";
     err_msg := "error in solving L matrix." |}.

Definition dgetrf_error : CanteraError :=
  {| err_proc := "MultiTransport::getSpeciesFluxes"; err_msg := "Error in DGETRF" |}.

Definition dgetrs_error : CanteraError :=
  {| err_proc := "MultiTransport::getSpeciesFluxes"; err_msg := "Error in DGETRS" |}.

(** Entry (i,j) of the Stefan-Maxwell matrix before the diagonal is
    corrected. *)
Definition maxwell_term (x : list R) (bdiff : DenseMatrix R) (i j : nat) : R :=
  (x !!! j * x !!! i / value bdiff i j)%fp.

End Vocabulary.

(* ================================================================== *)
(** * The product of the L matrix with a vector ([L_Matrix::mult]) *)
(* ================================================================== *)

(** BLAS, which [L_Matrix::mult] uses and [ctlapack.h] wraps:
    [ct_dgemv m n alpha a aoff lda x xoff beta y yoff] is the call
    [ct_dgemv(ColMajor, NoTranspose, m, n, alpha, a + aoff, lda, x + xoff,
    1, beta, y + yoff, 1)] and returns the array [y] as the call leaves
    it. *)
Class Blas (R : Type) := {
  ct_dgemv : nat -> nat -> R -> list R -> nat -> nat -> list R -> nat -> R -> list R -> nat
             -> list R
}.

Section Product.
Context {R : Type} {SC : Scalar R} {BL : Blas R}.

(** [L_Matrix::mult]: the product of the L matrix with [b], block by
    block, written to [prod]. *)
Definition mult (L : DenseMatrix R) (b prod : list R) : list R :=
  let n := (nRows L / 3)%nat in
  let n2 := (2 * n)%nat in
  let n3 := (3 * n)%nat in
  let prod := ct_dgemv n n2 (lit 1) (mdata L) 0 (nRows L) b 0 (lit 0) prod 0 in
  let prod := ct_dgemv n n3 (lit 1) (mdata L) n (nRows L) b 0 (lit 0) prod n in
  let prod := ct_dgemv n n (lit 1) (mdata L) (n * n3 + n2) (nRows L) b n (lit 0) prod n2 in
  for_range 0 n
    (fun i prod =>
       <[(i + n2)%nat := (prod !!! (i + n2)%nat
                          + b !!! (i + n2)%nat * value L (i + n2) (i + n2))%fp]> prod)
    prod.

(** What the calls of [mult] need of [ct_dgemv]: with alpha = 1 and
    beta = 0 it overwrites y[0..m) with the products of the rows of the
    m by n window of [a] with [x], and leaves the rest of [y] alone. *)
Definition dgemv_computes : Prop :=
  forall m n a aoff lda x xoff y yoff, (yoff + m <= length y)%nat ->
    let y' := ct_dgemv m n (lit 1) a aoff lda x xoff (lit 0) y yoff in
    length y' = length y /\
    forall p,
      y' !!! p
      = if decide (yoff <= p < yoff + m)%nat
        then sum_over 0 n (fun j => (a !!! (aoff + (p - yoff) + lda * j)%nat
                                     * x !!! (xoff + j)%nat)%fp)
        else y !!! p.

(** The sparsity [mult] relies on: the blocks 00,01 and 01,00 are zero
    and the block 01,01 is diagonal. *)
Definition seven_blocks (n : nat) (L : DenseMatrix R) : Prop :=
  forall i j, (i < n)%nat -> (j < n)%nat ->
    value L i (2 * n + j) = lit 0 /\
    value L (2 * n + i) j = lit 0 /\
    (i <> j -> value L (2 * n + i) (2 * n + j) = lit 0).

End Product.

(* ================================================================== *)
(** * A caller: the diffusive fluxes of the one-dimensional flow
    ([StFlow.cpp]) *)
(* ================================================================== *)

Module StFlow.

(** What [StFlow::setTransport] and [StFlow::updateDiffFluxes] use and
    [StFlow.cpp] does not define: the integer codes of the transport
    models and of the transport options, and the accessors of
    [StFlow.h], [X(x,k,j)] and [Y(x,k,j)] of the solution vector [x],
    [density(j)] and [z(j)]. *)
Class FlowEnv (R : Type) := {
  cMulticomponent   : Z;
  cMixtureAveraged  : Z;
  c_Multi_Transport : Z;
  c_Mixav_Transport : Z;
  X : list R -> nat -> nat -> R;
  Y : list R -> nat -> nat -> R;
  density : nat -> R;
  z : nat -> R
}.

(** The members of [StFlow] the two functions touch; [m_trans] is the
    installed transport manager, known by the code its [model()]
    returns; [cout] is what has been printed. *)
Record t (R : Type) := {
  m_nsp : nat;
  m_trans : option Z;
  m_do_soret : bool;
  m_transport_option : Z;
  m_wt : list R;
  m_wtm : list R;
  m_diff : DenseMatrix R;
  m_flux : DenseMatrix R;
  cout : list string
}.
Arguments m_nsp {R} _.
Arguments m_trans {R} _.
Arguments m_do_soret {R} _.
Arguments m_transport_option {R} _.
Arguments m_wt {R} _.
Arguments m_wtm {R} _.
Arguments m_diff {R} _.
Arguments m_flux {R} _.
Arguments cout {R} _.

Section Flow.
Context {R : Type} {SC : Scalar R} {FE : FlowEnv R}.

Definition set_flux (f : t R) (flux : DenseMatrix R) : t R :=
  {| m_nsp := m_nsp f; m_trans := m_trans f; m_do_soret := m_do_soret f;
     m_transport_option := m_transport_option f; m_wt := m_wt f; m_wtm := m_wtm f;
     m_diff := m_diff f; m_flux := flux; cout := cout f |}.

(** [cout << msg << endl]. *)
Definition print (msg : string) (f : t R) : t R :=
  {| m_nsp := m_nsp f; m_trans := m_trans f; m_do_soret := m_do_soret f;
     m_transport_option := m_transport_option f; m_wt := m_wt f; m_wtm := m_wtm f;
     m_diff := m_diff f; m_flux := m_flux f; cout := cout f ++ [msg] |}.

(** [StFlow::setTransport(trans, withSoret)], [model] being what
    [trans.model()] returns. *)
Definition setTransport (model : Z) (withSoret : bool) (f : t R) : Outcome (t R) (t R) :=
  let install (opt : Z) : t R :=
    {| m_nsp := m_nsp f; m_trans := Some model; m_do_soret := withSoret;
       m_transport_option := opt; m_wt := m_wt f; m_wtm := m_wtm f;
       m_diff := m_diff f; m_flux := m_flux f; cout := cout f |} in
  if Z.eqb model cMulticomponent then Ok (install c_Multi_Transport)
  else if Z.eqb model cMixtureAveraged then
    if withSoret then
      Throw {| err_proc := "setTransport";
               err_msg := "Thermal diffusion (the Soret effect) requires using a multicomponent transport model." |}
            (install c_Mixav_Transport)
    else Ok (install c_Mixav_Transport)
  else
    Throw {| err_proc := "setTransport"; err_msg := "unknown transport model." |}
          (install (m_transport_option f)).

(** The mixture-averaged flux of species [k] between the grid points
    [j] and [j+1], before the correction. *)
Definition mixav_term (x : list R) (f : t R) (j k : nat) : R :=
  (m_wt f !!! k * (density j * value (m_diff f) k j / m_wtm f !!! j)
   * ((X x k j - X x k (j + 1)) / (z (j + 1) - z j)))%fp.

(** The body of the loop over [j] of the mixture-averaged case. *)
Definition mixav_point (x : list R) (f : t R) (j : nat) (flux : DenseMatrix R)
  : DenseMatrix R :=
  let wtm := m_wtm f !!! j in
  let rho := density j in
  let dz := (z (j + 1) - z j)%fp in
  let r := for_range 0 (m_nsp f)
    (fun k (q : DenseMatrix R * R) =>
       let flux := mat_set (fst q) k j (m_wt f !!! k * (rho * value (m_diff f) k j / wtm))%fp in
       let flux := mat_set flux k j (value flux k j * ((X x k j - X x k (j + 1)) / dz))%fp in
       (flux, (snd q - value flux k j)%fp))
    (flux, lit 0) in
  for_range 0 (m_nsp f)
    (fun k flux => mat_set flux k j (value flux k j + snd r * Y x k j)%fp) (fst r).

(** [StFlow::updateDiffFluxes(x, j0, j1)]. *)
Definition updateDiffFluxes (x : list R) (j0 j1 : nat) (f : t R) : t R :=
  let f :=
    if Z.eqb (m_transport_option f) c_Mixav_Transport then
      set_flux f (for_range j0 j1 (mixav_point x f) (m_flux f))
    else if Z.eqb (m_transport_option f) c_Multi_Transport then
      print " not yet implemented... " f
    else f in
  if m_do_soret f then print " net yet implemented... " f else f.

(** The sum the first loop over the species accumulates, from 0
    downwards. *)
Definition mixav_correction (x : list R) (f : t R) (j : nat) : R :=
  for_range 0 (m_nsp f) (fun k sum => (sum - mixav_term x f j k)%fp) (lit 0).

End Flow.
End StFlow.

(* ================================================================== *)
(** * Reference collaborators                                           *)
(* ================================================================== *)

(** Stand-ins for the collaborators, used to run the program on
    concrete inputs.  The theorems below do not depend on them: they
    hold for every [Collab]. *)

Section Reference.
Context {R : Type} {SC : Scalar R}.

Definition ref_dot (n : nat) (x y : list R) : R :=
  for_range 1 n (fun k acc => (acc + x !!! k * y !!! k)%fp) (x !!! 0%nat * y !!! 0%nat)%fp.

(** [c[0] + c[1] x + ... + c[n] x^n] by Horner's rule. *)
Definition ref_poly (n : nat) (x : R) (c : list R) : R :=
  fold_left (fun acc k => (acc * x + c !!! k)%fp) (rev (seq 0 n)) (c !!! n).

(** Gauss-Jordan elimination with partial pivoting on the rows of an
    augmented matrix; [None] when a pivot is zero. *)
Definition pivot_row (k : nat) (rows : list (list R)) : nat :=
  fst (for_range k (length rows)
    (fun p '(best, m) =>
       let v := fabs ((rows !!! p) !!! k) in
       if sgt v m then (p, v) else (best, m))
    (k, lit (-1))).

Definition gj_step (k : nat) (st : option (list (list R))) : option (list (list R)) :=
  match st with
  | None => None
  | Some rows =>
      let p := pivot_row k rows in
      let rows := <[k := rows !!! p]> (<[p := rows !!! k]> rows) in
      let pr := rows !!! k in
      let piv := pr !!! k in
      if sne piv (lit 0) then
        let pr := map (fun a => (a / piv)%fp) pr in
        Some (imap (fun i r =>
                      if Nat.eqb i k then pr
                      else zip_with (fun a b => (b - (r !!! k) * a)%fp) pr r) rows)
      else None
  end.

Definition gauss_jordan (rows : list (list R)) : option (list (list R)) :=
  for_range 0 (length rows) gj_step (Some rows).

(** Row [i] of the leading [n] by [n] block of column-major storage [a]
    with leading dimension [lda]. *)
Definition block_row (n lda : nat) (a : list R) (i : nat) : list R :=
  map (fun j => a !!! (lda * j + i)%nat) (seq 0 n).

(** [A X = B] for [nrhs] right-hand sides stored in [b] with leading
    dimension [ldb]; the solutions overwrite [b]. *)
Definition ref_solve_many (n nrhs : nat) (a : list R) (lda : nat) (b : list R) (ldb : nat)
  : option (list R) :=
  let rows := map (fun i => block_row n lda a i
                            ++ map (fun c => b !!! (ldb * c + i)%nat) (seq 0 nrhs)) (seq 0 n) in
  match gauss_jordan rows with
  | None => None
  | Some rows =>
      Some (for_range 0 nrhs (fun c => for_range 0 n
              (fun i b => <[(ldb * c + i)%nat := (rows !!! i) !!! (n + c)%nat]> b)) b)
  end.

(** The factors LAPACK leaves in the matrix are not reproduced: the
    stand-ins leave the matrix storage as it is. *)
Definition ref_solve (M : DenseMatrix R) (v : list R) : Z * DenseMatrix R * list R :=
  match ref_solve_many (nRows M) 1 (mdata M) (nRows M) v (nRows M) with
  | Some a => (0%Z, M, a)
  | None => (1%Z, M, v)
  end.

Definition ref_dgetrf (m n : nat) (a : list R) (lda : nat) : list R * list Z * Z :=
  match ref_solve_many n 0 a lda [] 0 with
  | Some _ => (a, [], 0%Z)
  | None => (a, [], 1%Z)
  end.

Definition ref_dgetrs (n nrhs : nat) (a : list R) (lda : nat) (piv : list Z)
    (b : list R) (ldb : nat) : list R * Z :=
  match ref_solve_many n nrhs a lda b ldb with
  | Some x => (x, 0%Z)
  | None => (b, (-1)%Z)
  end.

(** The inverse of the leading [n] by [n] block, in place. *)
Definition ref_invert (M : DenseMatrix R) (n : nat) : Z * DenseMatrix R :=
  let lda := nRows M in
  let rows := map (fun i => block_row n lda (mdata M) i
                            ++ map (fun j => if Nat.eqb i j then lit 1 else lit 0) (seq 0 n))
                  (seq 0 n) in
  match gauss_jordan rows with
  | None => (1%Z, M)
  | Some rows =>
      (0%Z,
       for_range 0 n (fun i => for_range 0 n
         (fun j M => mat_set M i j ((rows !!! i) !!! (n + j)%nat))) M)
  end.

(** The iterative solver's limit: the solution itself when the system
    has one, the starting guess otherwise. *)
Definition ref_gmres (m n : nat) (A : DenseMatrix R) (b x0 : list R) (eps : R) : list R :=
  match ref_solve_many n 1 (mdata A) (nRows A) b n with
  | Some x => x
  | None => x0
  end.

(** A closure standing in for [L_matrix.h]: each evaluator fills its own
    block with a multiple of the unit matrix.  The blocks 00,01 and
    01,00 are zero, as the comment on [L_Matrix::mult] says; the first
    and second block rows are coupled, so that the first third of the
    solution does not vanish. *)
Definition block_position (blk : LBlock) : nat * nat :=
  match blk with
  | L0000 => (0, 0) | L0010 => (0, 1) | L0001 => (0, 2)
  | L1000 => (1, 0) | L1010 => (1, 1) | L1001 => (1, 2)
  | L0100 => (2, 0) | L0110 => (2, 1) | L0101 => (2, 2)
  end%nat.

Definition block_diagonal (blk : LBlock) : R :=
  match blk with
  | L0000 | L0010 | L1000 => lit 1
  | L0101 => lit (-1)
  | _ => lit 0
  end.

Definition ref_eval_L (blk : LBlock) (p : Params R) (c : TCache R) (x : list R)
    (L : DenseMatrix R) : DenseMatrix R :=
  let n := m_nsp p in
  let '(br, bc) := block_position blk in
  for_range 0 n (fun i => for_range 0 n
    (fun j L => mat_set L (br * n + i) (bc * n + j)
                  (if Nat.eqb i j then block_diagonal blk else lit 0))) L.

Definition ref_hasInternalModes (p : Params R) (c : TCache R) (k : nat) : bool :=
  sgt (m_cinternal c !!! k) (lit 1e-20).

(** The collaborators over any scalars, given the constants and the C
    library. *)
Definition reference (gas boltz pi sqrtpi sqrt8 : R) (fsqrt flog fexp : R -> R) : Collab R :=
  {| GasConstant := gas; Boltzmann := boltz; Pi := pi; SqrtPi := sqrtpi;
     SqrtEight := sqrt8; CK_Mode := 10;
     sqrt := fsqrt; log := flog; exp := fexp;
     dot4 := ref_dot 4; dot5 := ref_dot 5; poly6 := ref_poly 6; poly8 := ref_poly 8;
     hasInternalModes := ref_hasInternalModes;
     eval_L := ref_eval_L;
     solve := ref_solve; invert := ref_invert; gmres := ref_gmres;
     ct_dgetrf := ref_dgetrf; ct_dgetrs := ref_dgetrs |}.

End Reference.

(** A stand-in for DGEMV: y := beta y + alpha A x, row by row. *)
Definition ref_dgemv {R : Type} `{Scalar R} (m n : nat) (alpha : R) (a : list R)
    (aoff lda : nat) (x : list R) (xoff : nat) (beta : R) (y : list R) (yoff : nat) : list R :=
  for_range 0 m
    (fun i w =>
       <[(yoff + i)%nat :=
           (beta * y !!! (yoff + i)%nat
            + alpha * sum_over 0 n (fun j => (a !!! (aoff + i + lda * j)%nat
                                              * x !!! (xoff + j)%nat)%fp))%fp]> w)
    y.

#[global] Instance ref_blas {R : Type} `{Scalar R} : Blas R := {| ct_dgemv := ref_dgemv |}.

(** ** The C library over binary64 *)

Definition float_of_Z (z : Z) : float :=
  match z with
  | Z0 => 0%float
  | Zpos _ => PrimFloat.of_uint63 (Uint63.of_Z z)
  | Zneg p => PrimFloat.opp (PrimFloat.of_uint63 (Uint63.of_Z (Zpos p)))
  end.

(** ln x from x = m 2^e with m in [1/sqrt 2, sqrt 2) and the series of
    2 atanh ((m-1)/(m+1)). *)
Definition float_log (x : float) : float :=
  if PrimFloat.ltb 0 x then
    if PrimFloat.eqb x infinity then infinity
    else
      let '(m, e) := FloatOps.Z.frexp x in
      let '(m, e) := if PrimFloat.ltb m 0.70710678118654757
                     then ((2 * m)%float, (e - 1)%Z) else (m, e) in
      let t := ((m - 1) / (m + 1))%float in
      let t2 := (t * t)%float in
      let series := fold_right
        (fun k acc => (1 / float_of_Z (2 * Z.of_nat k + 1) + t2 * acc)%float)
        0%float (seq 0 16) in
      (float_of_Z e * 0.69314718055994529 + 2 * t * series)%float
  else if PrimFloat.eqb x 0 then neg_infinity else nan.

(** e^x as (e^(x/1024))^1024 with the Taylor series for the small
    argument. *)
Definition float_exp (x : float) : float :=
  let y := (x / 1024)%float in
  let t := fold_right
    (fun k acc => (1 + y / float_of_Z (Z.of_nat (S k)) * acc)%float)
    1%float (seq 0 20) in
  Nat.iter 10 (fun v => (v * v)%float) t.

(** Constants of the kind [ct_defs.h] gives. *)
#[global] Instance float_collab : Collab float :=
  reference 8314.47215%float 1.3806503e-23%float 3.1415926%float
    (PrimFloat.sqrt 3.1415926) (PrimFloat.sqrt 8) PrimFloat.sqrt float_log float_exp.

(** Exact rationals have no square root, logarithm or exponential: the
    entries are placeholders, and the exact-arithmetic example starts
    from a state whose temperature tier is valid, so that none is
    called. *)
#[global] Instance Qc_collab : Collab Qc :=
  reference (Qc_of_float 8314.47215) (Qc_of_float 1.3806503e-23)
    (Qc_of_float 3.1415926) (Q2Qc 0) (Q2Qc 0)
    (fun _ => Q2Qc 0) (fun _ => Q2Qc 0) (fun _ => Q2Qc 0).

(* ================================================================== *)
(** * Example data                                                      *)
(* ================================================================== *)

(** A two-species mixture at T = 1, p = 1, rho = 1 with mole fractions
    (1/2, 1/2), molecular weights (4, 12) and so mass fractions
    (1/4, 3/4).  Every polynomial fit is the constant 1, and the pair
    well depths equal the Boltzmann constant. *)
Definition ex_thermo : ThermoPhase float :=
  {| nSpecies := 2; minTemp := 1%float; maxTemp := 3000%float; temperature := 1%float;
     pressure := 1%float; density := 1%float; meanMolecularWeight := 8%float;
     molecularWeights := [4; 12]%float;
     moleFractions := [0.5; 0.5]%float; massFractions := [0.25; 0.75]%float;
     cp_R := [3.5; 3.5]%float; updaters := none_ok |}.

Definition ex_square (v : float) : DenseMatrix float :=
  {| nRows := 2; nColumns := 2; mdata := [v; v; v; v]; ipiv := [] |}.

Definition ex_fit : list float := [1; 0; 0; 0; 0; 0; 0; 0; 0]%float.

Definition ex_tr : TransportParams float :=
  {| tr_thermo := ex_thermo; tr_poly := [[0; 0]; [0; 0]];
     tr_visccoeffs := [ex_fit; ex_fit]; tr_diffcoeffs := [ex_fit; ex_fit; ex_fit];
     tr_astar_poly := [ex_fit]; tr_bstar_poly := [ex_fit]; tr_cstar_poly := [ex_fit];
     tr_omega22_poly := [ex_fit]; tr_zrot := [1; 1]%float; tr_crot := [1; 1]%float;
     tr_epsilon := ex_square 1.3806503e-23; tr_mode := 0; tr_diam := ex_square 1%float;
     tr_eps := [1.3806503e-23; 1.3806503e-23]%float |}.

(** The object after [init], and after [init] and one [viscosity()]
    call (which brings the mole fractions into the cache). *)
Definition ex_init : MultiTransport float := init ex_tr.

Definition ex_after_viscosity : MultiTransport float := fst (viscosity ex_init).

(** The gradients of the examples: one direction, mole-fraction
    gradient (1, -1), and the buffers of the calls. *)
Definition ex_grad_X : list float := [1; -1]%float.
Definition ex_buffer2 : list float := [0; 0]%float.
Definition ex_buffer4 : list float := [0; 0; 0; 0]%float.

(** A closure whose 00,00 block is zero, hence not invertible; the
    other collaborators are the reference ones. *)
Definition singular_block_collab : Collab float :=
  {| GasConstant := 8314.47215%float; Boltzmann := 1.3806503e-23%float;
     Pi := 3.1415926%float; SqrtPi := PrimFloat.sqrt 3.1415926;
     SqrtEight := PrimFloat.sqrt 8; CK_Mode := 10;
     sqrt := PrimFloat.sqrt; log := float_log; exp := float_exp;
     dot4 := ref_dot 4; dot5 := ref_dot 5; poly6 := ref_poly 6; poly8 := ref_poly 8;
     hasInternalModes := ref_hasInternalModes;
     eval_L := fun blk p c x L => resize (3 * m_nsp p) (3 * m_nsp p) 0%float empty_matrix;
     solve := ref_solve; invert := ref_invert; gmres := ref_gmres;
     ct_dgetrf := ref_dgetrf; ct_dgetrs := ref_dgetrs |}.

Definition ex_q (z : Z) (d : positive) : Qc := Q2Qc (z # d).

(** The mixture over exact rationals, in a state whose temperature and
    binary-diffusion tiers are valid: the cached mole fractions are
    (1/2, 1/2) and the binary diffusion coefficients at unit pressure
    are 1, as in the binary64 object after [init], [viscosity()] and
    [getBinaryDiffCoeffs]. *)
Definition ex_exact : MultiTransport Qc :=
  let sq (v : Qc) : DenseMatrix Qc :=
    {| nRows := 2; nColumns := 2; mdata := [v; v; v; v]; ipiv := [] |} in
  let fit := [ex_q 1 1; ex_q 0 1; ex_q 0 1; ex_q 0 1; ex_q 0 1; ex_q 0 1; ex_q 0 1; ex_q 0 1; ex_q 0 1] in
  {| par :=
       {| m_nsp := 2; m_tmin := ex_q 1 1; m_tmax := ex_q 3000 1; m_mw := [ex_q 4 1; ex_q 12 1];
          m_poly := [[0; 0]; [0; 0]]; m_visccoeffs := [fit; fit];
          m_diffcoeffs := [fit; fit; fit]; m_astar_poly := [fit]; m_bstar_poly := [fit];
          m_cstar_poly := [fit]; m_om22_poly := [fit]; m_zrot := [ex_q 1 1; ex_q 1 1];
          m_crot := [ex_q 1 1; ex_q 1 1]; m_epsilon := sq (ex_q 1 1); m_mode := 0;
          m_diam := sq (ex_q 1 1); m_eps := [ex_q 1 1; ex_q 1 1]; m_log_eps_k := sq (ex_q 0 1);
          m_sqrt_eps_k := [ex_q 1 1; ex_q 1 1]; m_frot_298 := [ex_q 1 1; ex_q 1 1];
          m_gmres := false; m_mgmres := 100; m_eps_gmres := ex_q 1 10000 |};
     tc :=
       {| m_temp := ex_q 1 1; m_logt := ex_q 0 1; m_kbt := ex_q 1 1; m_sqrt_t := ex_q 1 1;
          m_t32 := ex_q 1 1; m_sqrt_kbt := ex_q 1 1;
          m_polytempvec := [ex_q 1 1; ex_q 0 1; ex_q 0 1; ex_q 0 1; ex_q 0 1];
          m_visc := [ex_q 1 1; ex_q 1 1]; m_phi := sq (ex_q 1 1); m_bdiff := sq (ex_q 1 1);
          m_om22 := sq (ex_q 0 1); m_astar := sq (ex_q 0 1); m_bstar := sq (ex_q 0 1);
          m_cstar := sq (ex_q 0 1); m_rotrelax := [ex_q 0 1; ex_q 0 1];
          m_cinternal := [ex_q 0 1; ex_q 0 1] |};
     fl :=
       {| m_visc_ok := true; m_spvisc_ok := true; m_diff_ok := true;
          m_abc_ok := false; m_l0000_ok := false; m_lmatrix_soln_ok := false |};
     wk :=
       {| m_Lmatrix := resize 6 6 (ex_q 0 1) empty_matrix;
          m_a := replicate 6 (ex_q 1 1); m_b := replicate 6 (ex_q 0 1);
          m_aa := sq (ex_q 0 1); m_spwork := [ex_q 0 1; ex_q 0 1] |};
     m_molefracs := [ex_q 1 2; ex_q 1 2];
     m_thermo :=
       {| nSpecies := 2; minTemp := ex_q 1 1; maxTemp := ex_q 3000 1; temperature := ex_q 1 1;
          pressure := ex_q 1 1; density := ex_q 1 1; meanMolecularWeight := ex_q 8 1;
          molecularWeights := [ex_q 4 1; ex_q 12 1]; moleFractions := [ex_q 1 2; ex_q 1 2];
          massFractions := [ex_q 1 4; ex_q 3 4]; cp_R := [ex_q 7 2; ex_q 7 2];
          updaters :=
            {| ok_transport_T := true; ok_transport_C := true; ok_spvisc_T := true;
               ok_visc_T := true; ok_diff_T := true; ok_thermal_T := false |} |};
     calls := [] |}.


(** The object after [init] and one [thermalConductivity()] call. *)
Definition ex_after_conductivity : MultiTransport float :=
  match thermalConductivity ex_init with
  | Ok (s, _) => s
  | _ => ex_init
  end.


(** A new composition for the examples: mole fractions (1/4, 3/4), so
    mass fractions (1/10, 9/10) and mean molecular weight 10. *)
Definition ex_recomposed : MultiTransport float :=
  set_thermo ex_after_conductivity
    (change_composition [0.25; 0.75]%float [0.1; 0.9]%float 10%float
       (m_thermo ex_after_conductivity)).

(** A 3 by 3 matrix (n = 1) with the sparsity of the L matrix, a vector
    and an output buffer, over exact rationals. *)
Definition ex_L3 : DenseMatrix Qc :=
  {| nRows := 3; nColumns := 3;
     mdata := [ex_q 2 1; ex_q 1 1; ex_q 0 1;
               ex_q 1 1; ex_q 3 1; ex_q 1 1;
               ex_q 0 1; ex_q 1 1; ex_q 4 1];
     ipiv := [] |}.

Definition ex_b3 : list Qc := [ex_q 1 1; ex_q 2 1; ex_q 3 1].

Definition ex_buffer3 : list Qc := [ex_q 0 1; ex_q 0 1; ex_q 0 1].

Definition ex_exact_buffer4 : list Qc := [ex_q 0 1; ex_q 0 1; ex_q 0 1; ex_q 0 1].

(** The example matrix of binary diffusion coefficients with another
    diagonal. *)
Definition ex_other_diagonal : DenseMatrix Qc :=
  {| nRows := 2; nColumns := 2; mdata := [ex_q 7 1; ex_q 1 1; ex_q 1 1; ex_q 9 1];
     ipiv := [] |}.

(** Stand-ins for the codes and accessors of the flow, over exact
    rationals: the solution vector holds, for each grid point, four flow
    variables and then the mass fractions; mole fractions are read as
    the mass fractions are, the density is 1 and the grid is 0, 1, 2,
    ... *)
#[global] Instance ex_flow_env : StFlow.FlowEnv Qc :=
  {| StFlow.cMulticomponent := 200; StFlow.cMixtureAveraged := 210;
     StFlow.c_Multi_Transport := 1; StFlow.c_Mixav_Transport := 0;
     StFlow.X := fun x k j => x !!! (6 * j + 4 + k)%nat;
     StFlow.Y := fun x k j => x !!! (6 * j + 4 + k)%nat;
     StFlow.density := fun _ => ex_q 1 1;
     StFlow.z := fun j => ex_q (Z.of_nat j) 1 |}.

(** A flow of two species on two grid points, no transport manager
    installed, and a solution vector with mass fractions (1/4, 3/4) and
    (1/2, 1/2). *)
Definition ex_flow : StFlow.t Qc :=
  {| StFlow.m_nsp := 2; StFlow.m_trans := None; StFlow.m_do_soret := false;
     StFlow.m_transport_option := (-1);
     StFlow.m_wt := [ex_q 4 1; ex_q 12 1]; StFlow.m_wtm := [ex_q 8 1; ex_q 8 1];
     StFlow.m_diff :=
       {| nRows := 2; nColumns := 2; mdata := replicate 4 (ex_q 1 1); ipiv := [] |};
     StFlow.m_flux :=
       {| nRows := 2; nColumns := 2; mdata := replicate 4 (ex_q 0 1); ipiv := [] |};
     StFlow.cout := [] |}.

Definition ex_solution : list Qc :=
  [ex_q 0 1; ex_q 0 1; ex_q 300 1; ex_q 0 1; ex_q 1 4; ex_q 3 4;
   ex_q 0 1; ex_q 0 1; ex_q 300 1; ex_q 0 1; ex_q 1 2; ex_q 1 2].

(** The example flow with the mixture-averaged option selected. *)
Definition ex_flow_mixav : StFlow.t Qc :=
  match StFlow.setTransport 210 false ex_flow with
  | Ok f => f
  | _ => ex_flow
  end.

(* ================================================================== *)
(** * Loops and arrays                                                  *)
(* ================================================================== *)

Section Loops.
Context {A : Type}.
Implicit Types (body : nat -> A -> A) (a : A).

Lemma for_range_ge lo hi body a : hi <= lo -> for_range lo hi body a = a.
Proof.
  intros H. unfold for_range.
  replace (hi - lo) with 0 by lia. reflexivity.
Qed.

Lemma for_range_snoc lo hi body a :
  lo <= hi -> for_range lo (S hi) body a = body hi (for_range lo hi body a).
Proof.
  intros H. unfold for_range.
  replace (S hi - lo) with (S (hi - lo)) by lia.
  rewrite seq_S, fold_left_app. simpl.
  replace (lo + (hi - lo)) with hi by lia. reflexivity.
Qed.

(** Loop invariants: [P k a] holds of the accumulator when the counter
    stands at [k]. *)
Lemma for_range_ind (P : nat -> A -> Prop) lo hi body a :
  lo <= hi ->
  P lo a ->
  (forall k acc, lo <= k < hi -> P k acc -> P (S k) (body k acc)) ->
  P hi (for_range lo hi body a).
Proof.
  intros Hle H0 Hstep. induction hi as [|hi IH].
  - assert (lo = 0) by lia. subst. rewrite for_range_ge by lia. exact H0.
  - destruct (decide (lo = S hi)) as [->|Hne].
    + rewrite for_range_ge by lia. exact H0.
    + rewrite for_range_snoc by lia. apply Hstep; [lia|].
      apply IH; [lia|]. intros k acc Hk. apply Hstep. lia.
Qed.

Lemma for_range_preserves (P : A -> Prop) lo hi body a :
  P a ->
  (forall k acc, lo <= k < hi -> P acc -> P (body k acc)) ->
  P (for_range lo hi body a).
Proof.
  intros H0 Hstep. destruct (decide (lo <= hi)) as [Hle|Hgt].
  - apply (for_range_ind (fun _ => P)); auto.
  - rewrite for_range_ge by lia. exact H0.
Qed.

Lemma for_range_ext lo hi body body' a :
  (forall k acc, lo <= k < hi -> body k acc = body' k acc) ->
  for_range lo hi body a = for_range lo hi body' a.
Proof.
  intros Hext. destruct (decide (lo <= hi)) as [Hle|Hgt].
  - induction hi as [|hi IH].
    + rewrite !for_range_ge by lia. reflexivity.
    + destruct (decide (lo = S hi)) as [->|Hne].
      * rewrite !for_range_ge by lia. reflexivity.
      * rewrite !for_range_snoc by lia. rewrite IH; [|intros; apply Hext; lia|lia].
        apply Hext. lia.
  - rewrite !for_range_ge by lia. reflexivity.
Qed.

End Loops.

Section Arrays.
Context {R : Type} {SC : Scalar R}.
Implicit Types (v w : list R) (M : DenseMatrix R) (x : R).

(** A loop that writes one entry per step keeps the length. *)
Lemma for_range_insert_length lo hi (idx : nat -> nat) (val : nat -> list R -> R) v :
  length (for_range lo hi (fun k v => <[idx k := val k v]> v) v) = length v.
Proof.
  apply (for_range_preserves (fun w => length w = length v)); [reflexivity|].
  intros k acc _ H. rewrite length_insert. exact H.
Qed.

(** A loop writing [v[k] := g k] for [lo <= k < hi], one entry per step. *)
Lemma for_range_fill lo hi (g : nat -> R) v i :
  hi <= length v ->
  for_range lo hi (fun k v => <[k := g k]> v) v !!! i
  = if decide (lo <= i < hi) then g i else v !!! i.
Proof.
  intros Hlen. destruct (decide (lo <= hi)) as [Hle|Hgt].
  - revert i.
    refine (proj2 (for_range_ind
             (fun k w => length w = length v /\
                forall i, w !!! i = if decide (lo <= i < k) then g i else v !!! i)
             lo hi _ v Hle _ _)).
    + split; [reflexivity|]. intros i. destruct (decide (lo <= i < lo)); [lia|reflexivity].
    + intros k acc Hk [Hl Hacc]. split; [rewrite length_insert; exact Hl|].
      intros i. destruct (decide (i = k)) as [->|Hi].
      * rewrite list_lookup_total_insert_eq by lia.
        destruct (decide (lo <= k < S k)); [reflexivity|lia].
      * rewrite list_lookup_total_insert_ne by congruence. rewrite Hacc.
        destruct (decide (lo <= i < k)), (decide (lo <= i < S k)); try reflexivity; lia.
  - rewrite for_range_ge by lia. destruct (decide (lo <= i < hi)); [lia|reflexivity].
Qed.

(** A loop updating [v[off + k]] in place, one entry per step. *)
Lemma for_range_update n (idx : nat -> nat) (g : nat -> R -> R) off v i :
  (forall k, k < n -> idx k = off + k) ->
  off + n <= length v ->
  for_range 0 n (fun k w => <[idx k := g k (w !!! idx k)]> w) v !!! i
  = if decide (off <= i < off + n) then g (i - off) (v !!! i) else v !!! i.
Proof.
  intros Hidx Hlen. revert i.
  refine (proj2 (for_range_ind
           (fun k w => length w = length v /\
              forall i, w !!! i = if decide (off <= i < off + k)
                                  then g (i - off) (v !!! i) else v !!! i)
           0 n _ v (Nat.le_0_l n) _ _)).
  - split; [reflexivity|]. intros i. destruct (decide (off <= i < off + 0)); [lia|reflexivity].
  - intros k acc Hk [Hl Hacc]. split; [rewrite length_insert; exact Hl|].
    intros i. rewrite (Hidx k) by lia.
    destruct (decide (i = off + k)) as [->|Hi].
    + rewrite list_lookup_total_insert_eq by lia. rewrite Hacc.
      destruct (decide (off <= off + k < off + k)); [lia|].
      destruct (decide (off <= off + k < off + S k)); [|lia].
      f_equal. lia.
    + rewrite list_lookup_total_insert_ne by congruence. rewrite Hacc.
      destruct (decide (off <= i < off + k)), (decide (off <= i < off + S k));
        try reflexivity; lia.
Qed.

Lemma copy_length src from n dst to : length (copy src from n dst to) = length dst.
Proof. unfold copy. apply for_range_insert_length. Qed.

Lemma copy_lookup src from n dst to i :
  to + n <= length dst ->
  copy src from n dst to !!! i
  = if decide (to <= i < to + n) then src !!! (from + (i - to)) else dst !!! i.
Proof.
  intros Hlen. unfold copy. revert i.
  refine (proj2 (for_range_ind
           (fun k w => length w = length dst /\
              forall i, w !!! i = if decide (to <= i < to + k)
                                  then src !!! (from + (i - to)) else dst !!! i)
           0 n _ dst (Nat.le_0_l n) _ _)).
  - split; [reflexivity|]. intros i. destruct (decide (to <= i < to + 0)); [lia|reflexivity].
  - intros k acc Hk [Hl Hacc]. split; [rewrite length_insert; exact Hl|].
    intros i. destruct (decide (i = to + k)) as [->|Hi].
    + rewrite list_lookup_total_insert_eq by lia.
      destruct (decide (to <= to + k < to + S k)); [|lia]. f_equal. lia.
    + rewrite list_lookup_total_insert_ne by congruence. rewrite Hacc.
      destruct (decide (to <= i < to + k)), (decide (to <= i < to + S k));
        try reflexivity; lia.
Qed.

Lemma vec_resize_length n x v : length (vec_resize n x v) = n.
Proof.
  unfold vec_resize. rewrite length_app, length_take, length_replicate. lia.
Qed.

Lemma vec_resize_nil n x : vec_resize n x [] = replicate n x.
Proof. unfold vec_resize. rewrite take_nil. simpl. f_equal. lia. Qed.

(** Reading a matrix entry after a write, for a matrix with [n] rows
    whose storage holds [n * m] entries. *)
Lemma value_mat_set M i j x i' j' :
  i < nRows M -> i' < nRows M ->
  nRows M * j + i < length (mdata M) ->
  value (mat_set M i j x) i' j' = if decide (i = i' /\ j = j') then x else value M i' j'.
Proof.
  intros Hi Hi' Hlen. unfold value, mat_set. simpl.
  case_decide as Heq.
  - destruct Heq as [-> ->]. apply list_lookup_total_insert_eq. exact Hlen.
  - apply list_lookup_total_insert_ne. intros Hidx. apply Heq.
    assert (j = j') by nia. subst. split; [lia|reflexivity].
Qed.

Lemma mat_set_nRows M i j x : nRows (mat_set M i j x) = nRows M.
Proof. reflexivity. Qed.

Lemma mat_set_length M i j x : length (mdata (mat_set M i j x)) = length (mdata M).
Proof. unfold mat_set. simpl. apply length_insert. Qed.

(** Entry (i,j) of an n by n matrix lies inside its storage. *)
Lemma square_index n i j : i < n -> j < n -> n * j + i < n * n.
Proof. nia. Qed.

Lemma resize_nRows n m x M : nRows (resize n m x M) = n.
Proof. reflexivity. Qed.

Lemma resize_length n m x M : length (mdata (resize n m x M)) = n * m.
Proof. unfold resize. simpl. apply vec_resize_length. Qed.

End Arrays.

(* ================================================================== *)
(** * What the updaters touch                                           *)
(* ================================================================== *)

Section Frames.
Context {R : Type} {SC : Scalar R} {CO : Collab R}.
Implicit Types (s : MultiTransport R) (u : Updaters) (id : UpdaterId).

Local Abbreviation flags s := (updaters (m_thermo s)).

Lemma same_phase_refl (th : ThermoPhase R) : same_phase th th.
Proof. destruct th. reflexivity. Qed.

Lemma same_phase_trans (a b c : ThermoPhase R) :
  same_phase a b -> same_phase b c -> same_phase a c.
Proof. unfold same_phase. intros -> ->. reflexivity. Qed.

Lemma same_phase_set (th : ThermoPhase R) u : same_phase th (set_updaters th u).
Proof. reflexivity. Qed.

Lemma tags_grow_refl u : tags_grow u u.
Proof. intros id H. exact H. Qed.

Lemma tags_grow_trans u1 u2 u3 : tags_grow u1 u2 -> tags_grow u2 u3 -> tags_grow u1 u3.
Proof. intros H1 H2 id H. auto. Qed.

Lemma tags_grow_mark id u : tags_grow u (mark_ok id u).
Proof. intros [] H; destruct id; simpl in *; auto. Qed.

Lemma is_ok_mark id u : is_ok (mark_ok id u) id = true.
Proof. destruct id; reflexivity. Qed.

Lemma is_ok_mark_ne id id' u : id <> id' -> is_ok (mark_ok id u) id' = is_ok u id'.
Proof. destruct id, id'; try reflexivity; congruence. Qed.

Lemma T_frame_refl s : T_frame s s.
Proof.
  split; try reflexivity; [apply same_phase_refl | apply tags_grow_refl].
Qed.

Lemma T_frame_trans s1 s2 s3 : T_frame s1 s2 -> T_frame s2 s3 -> T_frame s1 s3.
Proof.
  intros [] []. split; try congruence.
  - eapply same_phase_trans; eassumption.
  - eapply tags_grow_trans; eassumption.
Qed.

Lemma update_valid id run s : is_ok (flags s) id = true -> update id run s = s.
Proof. intros H. unfold update. rewrite H. reflexivity. Qed.

Lemma update_stale id run s :
  is_ok (flags s) id = false ->
  update id run s
  = set_thermo (run s) (set_updaters (m_thermo (run s)) (mark_ok id (flags (run s)))).
Proof. intros H. unfold update. rewrite H. reflexivity. Qed.

Lemma update_ok id run s :
  tags_grow (flags s) (flags (run s)) -> is_ok (flags (update id run s)) id = true.
Proof.
  intros Hg. unfold update. destruct (is_ok (flags s) id) eqn:E; [exact E|].
  simpl. apply is_ok_mark.
Qed.

(** Marking a temperature updater valid stays within the frame. *)
Lemma T_frame_mark id s s' :
  is_T id = true -> T_frame s s' ->
  T_frame s (set_thermo s' (set_updaters (m_thermo s') (mark_ok id (flags s')))).
Proof.
  intros HT []. split; simpl; try assumption.
  - eapply same_phase_trans; [eassumption|]. apply same_phase_set.
  - eapply tags_grow_trans; [eassumption|]. apply tags_grow_mark.
  - destruct id; simpl in *; try assumption. discriminate.
Qed.

Lemma T_frame_update id run s :
  is_T id = true -> T_frame s (run s) -> T_frame s (update id run s).
Proof.
  intros HT Hrun. unfold update. destruct (is_ok (flags s) id).
  - apply T_frame_refl.
  - apply T_frame_mark; assumption.
Qed.

Lemma T_frame_set_tc_fl s (c : TCache R) (f : Flags) : T_frame s (set_fl (set_tc s c) f).
Proof.
  split; try reflexivity; simpl; [apply same_phase_refl | apply tags_grow_refl].
Qed.

Lemma T_frame_set_tc s (c : TCache R) : T_frame s (set_tc s c).
Proof.
  split; try reflexivity; simpl; [apply same_phase_refl | apply tags_grow_refl].
Qed.

Lemma updateTransport_T_frame s : T_frame s (updateTransport_T s).
Proof. apply T_frame_update; [reflexivity|]. apply T_frame_set_tc_fl. Qed.

Lemma updateDiff_T_frame s : T_frame s (updateDiff_T s).
Proof.
  apply T_frame_update; [reflexivity|]. unfold _update_diff_T.
  eapply T_frame_trans; [apply updateTransport_T_frame | apply T_frame_set_tc_fl].
Qed.

Lemma updateSpeciesViscosities_T_frame s : T_frame s (updateSpeciesViscosities_T s).
Proof.
  apply T_frame_update; [reflexivity|]. unfold _update_species_visc_T.
  eapply T_frame_trans; [apply updateTransport_T_frame | apply T_frame_set_tc_fl].
Qed.

Lemma updateViscosity_T_frame s : T_frame s (updateViscosity_T s).
Proof.
  apply T_frame_update; [reflexivity|]. unfold _update_visc_T.
  eapply T_frame_trans; [apply updateSpeciesViscosities_T_frame | apply T_frame_set_tc_fl].
Qed.

Lemma updateThermal_T_frame s : T_frame s (updateThermal_T s).
Proof.
  apply T_frame_update; [reflexivity|]. unfold _update_thermal_T.
  eapply T_frame_trans; [apply updateSpeciesViscosities_T_frame|].
  eapply T_frame_trans; [apply updateDiff_T_frame|].
  eapply T_frame_trans; [apply T_frame_set_tc_fl | apply T_frame_set_tc].
Qed.

(** The updater that was asked for is valid afterwards. *)
Lemma updateTransport_T_ok s : ok_transport_T (flags (updateTransport_T s)) = true.
Proof. apply (update_ok U_transport_T). apply tags_grow_refl. Qed.

Lemma updateDiff_T_ok s : ok_diff_T (flags (updateDiff_T s)) = true.
Proof.
  apply (update_ok U_diff_T). unfold _update_diff_T. simpl.
  apply (tf_grow _ _ (updateTransport_T_frame s)).
Qed.

Lemma updateSpeciesViscosities_T_ok s :
  ok_spvisc_T (flags (updateSpeciesViscosities_T s)) = true.
Proof.
  apply (update_ok U_spvisc_T). unfold _update_species_visc_T. simpl.
  apply (tf_grow _ _ (updateTransport_T_frame s)).
Qed.

Lemma updateViscosity_T_ok s : ok_visc_T (flags (updateViscosity_T s)) = true.
Proof.
  apply (update_ok U_visc_T). unfold _update_visc_T. simpl.
  apply (tf_grow _ _ (updateSpeciesViscosities_T_frame s)).
Qed.

Lemma updateThermal_T_ok s : ok_thermal_T (flags (updateThermal_T s)) = true.
Proof.
  apply (update_ok U_thermal_T). unfold _update_thermal_T. simpl.
  eapply tags_grow_trans.
  - apply (tf_grow _ _ (updateSpeciesViscosities_T_frame s)).
  - apply (tf_grow _ _ (updateDiff_T_frame _)).
Qed.

(** The composition updater leaves the temperature tier, the phase and
    every temperature tag alone. *)
Lemma updateTransport_C_tc s : tc (updateTransport_C s) = tc s.
Proof. unfold updateTransport_C, update. destruct (is_ok _ _); reflexivity. Qed.

Lemma updateTransport_C_par s : par (updateTransport_C s) = par s.
Proof. unfold updateTransport_C, update. destruct (is_ok _ _); reflexivity. Qed.

Lemma updateTransport_C_wk s : wk (updateTransport_C s) = wk s.
Proof. unfold updateTransport_C, update. destruct (is_ok _ _); reflexivity. Qed.

Lemma updateTransport_C_calls s : calls (updateTransport_C s) = calls s.
Proof. unfold updateTransport_C, update. destruct (is_ok _ _); reflexivity. Qed.

Lemma updateTransport_C_phase s : same_phase (m_thermo s) (m_thermo (updateTransport_C s)).
Proof.
  unfold updateTransport_C, update. destruct (is_ok _ _); simpl.
  - apply same_phase_refl.
  - apply same_phase_set.
Qed.

Lemma updateTransport_C_tags s id :
  is_T id = true ->
  is_ok (flags (updateTransport_C s)) id = is_ok (flags s) id.
Proof.
  intros HT. unfold updateTransport_C, update.
  destruct (is_ok (flags s) U_transport_C); [reflexivity|]. simpl.
  apply is_ok_mark_ne. destruct id; discriminate.
Qed.

Lemma updateTransport_C_ok s : ok_transport_C (flags (updateTransport_C s)) = true.
Proof. apply (update_ok U_transport_C). apply tags_grow_refl. Qed.

End Frames.

(* ================================================================== *)
(** * The loops over the binary diffusion matrix                        *)
(* ================================================================== *)

Section DiffLoops.
Context {R : Type} {SC : Scalar R} {CO : Collab R}.
Implicit Types (M : DenseMatrix R).

Lemma upper_index_le n i j : i <= j -> upper_index n i j = row_start n i + (j - i).
Proof.
  intros H. unfold upper_index.
  rewrite Nat.min_l, Nat.max_r by lia. reflexivity.
Qed.

Lemma upper_index_sym n i j : upper_index n i j = upper_index n j i.
Proof. unfold upper_index. rewrite Nat.min_comm, Nat.max_comm. reflexivity. Qed.

Lemma square_mat_set n M i j x : square n M -> square n (mat_set M i j x).
Proof. intros [Hr Hl]. split; [exact Hr|]. rewrite mat_set_length. exact Hl. Qed.

Lemma square_value_set n M i j x i' j' :
  square n M -> i < n -> j < n -> i' < n ->
  value (mat_set M i j x) i' j' = if decide (i = i' /\ j = j') then x else value M i' j'.
Proof.
  intros [Hr Hl] Hi Hj Hi'. apply value_mat_set; rewrite ?Hr, ?Hl; try assumption.
  apply square_index; assumption.
Qed.

(** One step of the loop writes the pair (i,j) and its mirror image. *)
Lemma diff_body_value n (fit : nat -> R) M ic i j i' j' :
  square n M -> i < n -> j < n -> i' < n -> j' < n ->
  value (fst (diff_body fit i j (M, ic))) i' j'
  = if decide ((i' = i /\ j' = j) \/ (i' = j /\ j' = i)) then fit ic else value M i' j'.
Proof.
  intros Hsq Hi Hj Hi' Hj'. unfold diff_body. simpl.
  rewrite (square_value_set n) by (try apply square_mat_set; assumption).
  rewrite !(square_value_set n) by assumption.
  destruct (decide (i = i /\ j = j)) as [_|Hn]; [|exfalso; apply Hn; split; reflexivity].
  repeat case_decide; try reflexivity; exfalso; intuition lia.
Qed.

Lemma diff_body_square n (fit : nat -> R) M ic i j :
  square n M -> square n (fst (diff_body fit i j (M, ic))).
Proof. intros H. unfold diff_body. simpl. repeat apply square_mat_set. exact H. Qed.

Lemma diff_body_count (fit : nat -> R) M ic i j :
  snd (diff_body fit i j (M, ic)) = S ic.
Proof. reflexivity. Qed.

(** The inner loop, over [j] from [i] to [n-1]: the pairs of row [i]
    of the upper triangle get their fits. *)
Lemma diff_row_spec n (fit : nat -> R) M i :
  square n M -> i < n ->
  let r := for_range i n (fun j => diff_body fit i j) (M, row_start n i) in
  square n (fst r) /\ snd r = row_start n (S i) /\
  forall i' j', i' < n -> j' < n ->
    value (fst r) i' j'
    = if decide (Nat.min i' j' = i) then fit (upper_index n i' j') else value M i' j'.
Proof.
  intros Hsq Hi r. subst r.
  pose (P := fun (k : nat) (q : DenseMatrix R * nat) =>
    square n (fst q) /\ snd q = row_start n i + (k - i) /\
    forall i' j', i' < n -> j' < n ->
      value (fst q) i' j'
      = if decide (Nat.min i' j' = i /\ Nat.max i' j' < k)
        then fit (upper_index n i' j') else value M i' j').
  assert (HP : P n (for_range i n (fun j => diff_body fit i j) (M, row_start n i))).
  { apply (for_range_ind P); [lia | |].
    - unfold P. simpl. split; [exact Hsq|]. split; [lia|].
      intros i' j' _ _. case_decide; [lia|reflexivity].
    - intros k [Mk ick] Hk (Hsqk & Hic & Hval). simpl in Hsqk, Hic, Hval.
      unfold P. split; [apply diff_body_square; exact Hsqk|].
      split; [rewrite diff_body_count, Hic; lia|].
      intros i' j' Hi' Hj'.
      rewrite (diff_body_value n) by (assumption || lia).
      rewrite Hval by assumption. rewrite Hic.
      destruct (decide ((i' = i /\ j' = k) \/ (i' = k /\ j' = i))) as [Hp|Hp].
      + destruct (decide (Nat.min i' j' = i /\ Nat.max i' j' < S k)) as [_|Hn];
          [|exfalso; apply Hn; lia].
        f_equal. unfold upper_index.
        destruct Hp as [[-> ->]|[-> ->]].
        * rewrite Nat.min_l, Nat.max_r by lia. reflexivity.
        * rewrite Nat.min_r, Nat.max_l by lia. reflexivity.
      + repeat case_decide; try reflexivity; exfalso; lia. }
  destruct HP as (H1 & H2 & H3). split; [exact H1|]. split.
  - rewrite H2. simpl. lia.
  - intros i' j' Hi' Hj'. rewrite H3 by assumption.
    repeat case_decide; try reflexivity; exfalso; lia.
Qed.

(** The whole loop of [_update_diff_T]: every entry of the matrix holds
    the fit numbered by its position in the upper triangle. *)
Lemma diff_loop_spec n (fit : nat -> R) M :
  square n M ->
  let r := for_upper n (diff_body fit) (M, 0) in
  square n (fst r) /\
  forall i j, i < n -> j < n -> value (fst r) i j = fit (upper_index n i j).
Proof.
  intros Hsq r. subst r. unfold for_upper.
  pose (P := fun (k : nat) (q : DenseMatrix R * nat) =>
    square n (fst q) /\ snd q = row_start n k /\
    forall i j, i < n -> j < n -> Nat.min i j < k ->
      value (fst q) i j = fit (upper_index n i j)).
  assert (HP : P n (for_range 0 n (fun i => for_range i n (fun j => diff_body fit i j)) (M, 0))).
  { apply (for_range_ind P); [lia | |].
    - unfold P. simpl. split; [exact Hsq|]. split; [reflexivity|]. intros; lia.
    - intros k [Mk ick] Hk (Hsqk & Hic & Hval). simpl in Hsqk, Hic, Hval. subst ick.
      destruct (diff_row_spec n fit Mk k Hsqk) as (H1 & H2 & H3); [lia|].
      unfold P. split; [exact H1|]. split; [exact H2|].
      intros i j Hi Hj Hmin. rewrite H3 by assumption.
      case_decide; [reflexivity|]. apply Hval; try assumption. lia. }
  destruct HP as (H1 & _ & H3). split; [exact H1|].
  intros i j Hi Hj. apply H3; try assumption. lia.
Qed.

(** The diagonal loop of [_update_thermal_T]. *)
Lemma diagonal_loop_spec n (est : nat -> R) M :
  square n M ->
  let M' := for_range 0 n (fun k bd => mat_set bd k k (est k)) M in
  square n M' /\
  forall i j, i < n -> j < n ->
    value M' i j = if decide (i = j) then est i else value M i j.
Proof.
  intros Hsq M'. subst M'.
  pose (P := fun (k : nat) (Mk : DenseMatrix R) =>
    square n Mk /\
    forall i j, i < n -> j < n ->
      value Mk i j = if decide (i = j /\ i < k) then est i else value M i j).
  assert (HP : P n (for_range 0 n (fun k bd => mat_set bd k k (est k)) M)).
  { apply (for_range_ind P); [lia | |].
    - split; [exact Hsq|]. intros i j _ _. case_decide; [lia|reflexivity].
    - intros k Mk Hk [Hsqk Hval]. split; [apply square_mat_set; exact Hsqk|].
      intros i j Hi Hj. rewrite (square_value_set n) by (assumption || lia).
      rewrite Hval by assumption.
      repeat case_decide; try reflexivity; try (exfalso; lia).
      destruct H as [-> _]. reflexivity. }
  destruct HP as [H1 H2]. split; [exact H1|].
  intros i j Hi Hj. rewrite H2 by assumption.
  repeat case_decide; try reflexivity; exfalso; lia.
Qed.

End DiffLoops.

(* ================================================================== *)
(** * Invariants of the cache                                           *)
(* ================================================================== *)

Section Invariants.
Context {R : Type} {SC : Scalar R} {CO : Collab R}.
Implicit Types (s : MultiTransport R) (u : Updaters) (id : UpdaterId).

Local Abbreviation flags s := (updaters (m_thermo s)).

Lemma bdiff_fit_ext (p : Params R) (c c' : TCache R) i j :
  m_polytempvec c' = m_polytempvec c -> m_temp c' = m_temp c -> m_sqrt_t c' = m_sqrt_t c ->
  bdiff_fit p c' i j = bdiff_fit p c i j.
Proof. intros H1 H2 H3. unfold bdiff_fit. rewrite H1, H2, H3. reflexivity. Qed.

Lemma self_diffusion_ext (p : Params R) (c c' : TCache R) k :
  m_temp c' = m_temp c -> m_visc c' = m_visc c -> m_astar c' = m_astar c ->
  self_diffusion p c' k = self_diffusion p c k.
Proof. intros H1 H2 H3. unfold self_diffusion. rewrite H1, H2, H3. reflexivity. Qed.

Lemma update_Inv id run s :
  Inv s ->
  (is_ok (flags s) id = false ->
   Inv (set_thermo (run s) (set_updaters (m_thermo (run s)) (mark_ok id (flags (run s)))))) ->
  Inv (update id run s).
Proof.
  intros H Hrun. unfold update. destruct (is_ok (flags s) id); [exact H|].
  apply Hrun. reflexivity.
Qed.

Lemma updateTransport_T_Inv s : Inv s -> Inv (updateTransport_T s).
Proof.
  intros HI. apply update_Inv; [exact HI|]. intros Hst. simpl in Hst.
  destruct HI as [[] []]. split; split; simpl; try assumption.
  - reflexivity.
  - reflexivity.
  - intros Hd. rewrite co_diff_T0 in Hst by exact Hd. discriminate.
  - intros Ht. destruct (co_thermal_T0 Ht) as [Hd _].
    rewrite co_diff_T0 in Hst by exact Hd. discriminate.
Qed.

(** What the composition updater leaves in [m_molefracs]. *)
Lemma _update_transport_C_molefracs s k :
  sized s -> k < m_nsp (par s) ->
  m_molefracs (_update_transport_C s) !!! k = clamped (m_thermo s) k.
Proof.
  intros [] Hk. unfold _update_transport_C, getMoleFractions. simpl.
  rewrite (for_range_update (m_nsp (par s)) (fun k => k) (fun _ a => fmaxx MIN_X a) 0)
    by (try rewrite copy_length; (reflexivity || lia)).
  destruct (decide (0 <= k < 0 + m_nsp (par s))); [|lia].
  rewrite copy_lookup by lia.
  destruct (decide (0 <= k < 0 + nSpecies (m_thermo s))); [|lia].
  unfold clamped. do 2 f_equal. lia.
Qed.

Lemma _update_transport_C_length s :
  length (m_molefracs (_update_transport_C s)) = length (m_molefracs s).
Proof.
  unfold _update_transport_C, getMoleFractions. simpl.
  rewrite for_range_insert_length. apply copy_length.
Qed.

Lemma updateTransport_C_Inv s : Inv s -> Inv (updateTransport_C s).
Proof.
  intros HI. apply update_Inv; [exact HI|]. intros Hst.
  pose proof (_update_transport_C_molefracs s) as Hx.
  pose proof (_update_transport_C_length s) as Hl.
  destruct HI as [Hsz []]. specialize (fun k => Hx k Hsz). destruct Hsz.
  split; split; simpl; try assumption.
  - simpl in Hl. congruence.
  - intros _ k Hk. apply Hx. exact Hk.
Qed.

(** The tags an updater leaves as they were. *)
Lemma update_tags id run s id' :
  id' <> id ->
  is_ok (flags (run s)) id' = is_ok (flags s) id' ->
  is_ok (flags (update id run s)) id' = is_ok (flags s) id'.
Proof.
  intros Hne Hrun. unfold update. destruct (is_ok (flags s) id); [reflexivity|].
  simpl. rewrite is_ok_mark_ne by congruence. exact Hrun.
Qed.

Lemma updateTransport_T_tags s id :
  id <> U_transport_T -> is_ok (flags (updateTransport_T s)) id = is_ok (flags s) id.
Proof. intros H. apply update_tags; [exact H|reflexivity]. Qed.

Lemma updateDiff_T_tags s id :
  id <> U_transport_T -> id <> U_diff_T ->
  is_ok (flags (updateDiff_T s)) id = is_ok (flags s) id.
Proof.
  intros H1 H2. apply update_tags; [exact H2|].
  unfold _update_diff_T. simpl. apply updateTransport_T_tags. exact H1.
Qed.

Lemma updateSpeciesViscosities_T_tags s id :
  id <> U_transport_T -> id <> U_spvisc_T ->
  is_ok (flags (updateSpeciesViscosities_T s)) id = is_ok (flags s) id.
Proof.
  intros H1 H2. apply update_tags; [exact H2|].
  unfold _update_species_visc_T. simpl. apply updateTransport_T_tags. exact H1.
Qed.

(** The members the temperature updaters keep. *)
Lemma T_frame_sized_rest s s' :
  T_frame s s' -> sized s ->
  m_nsp (par s') = nSpecies (m_thermo s') /\
  length (m_b (wk s')) = 3 * m_nsp (par s') /\
  length (m_molefracs s') = m_nsp (par s') /\
  length (m_spwork (wk s')) = m_nsp (par s').
Proof.
  intros [] []. rewrite tf_par0, tf_wk0, tf_molefracs0.
  rewrite tf_phase0. simpl. auto.
Qed.

Lemma updateDiff_T_Inv s : Inv s -> Inv (updateDiff_T s).
Proof.
  intros HI. apply update_Inv; [exact HI|]. intros Hst. simpl in Hst.
  assert (Hth : ok_thermal_T (flags s) = false).
  { destruct (ok_thermal_T (flags s)) eqn:E; [|reflexivity].
    destruct HI as [_ []]. destruct (co_thermal_T0 E) as [Hd _]. congruence. }
  pose proof (updateTransport_T_Inv s HI) as HI1.
  pose proof (updateTransport_T_ok s) as Hok1.
  pose proof (updateTransport_T_tags s U_thermal_T ltac:(discriminate)) as Hth1.
  simpl in Hth1. rewrite Hth in Hth1.
  unfold _update_diff_T.
  remember (updateTransport_T s) as s1 eqn:Es1. clear Es1 HI Hst Hth s.
  destruct HI1 as [[] []].
  match goal with |- context [for_upper _ (diff_body ?f) _] => set (fit := f) end.
  destruct (diff_loop_spec (m_nsp (par s1)) fit (m_bdiff (tc s1))) as [[Hr Hl] Hval];
    [split; assumption|].
  split; split; simpl; try assumption.
  - intros _. exact Hok1.
  - intros _ i j Hi Hj _. rewrite Hval by assumption.
    unfold bdiff_fit, fit. simpl. destruct (m_mode (par s1) =? CK_Mode)%Z; reflexivity.
  - intros Ht. congruence.
  - intros Ht. congruence.
Qed.

Lemma updateSpeciesViscosities_T_Inv s : Inv s -> Inv (updateSpeciesViscosities_T s).
Proof.
  intros HI. apply update_Inv; [exact HI|]. intros Hst. simpl in Hst.
  assert (Hth : ok_thermal_T (flags s) = false).
  { destruct (ok_thermal_T (flags s)) eqn:E; [|reflexivity].
    destruct HI as [_ []]. destruct (co_thermal_T0 E) as [_ Hd]. congruence. }
  pose proof (updateTransport_T_Inv s HI) as HI1.
  pose proof (updateTransport_T_tags s U_thermal_T ltac:(discriminate)) as Hth1.
  simpl in Hth1. rewrite Hth in Hth1.
  unfold _update_species_visc_T.
  remember (updateTransport_T s) as s1 eqn:Es1. clear Es1 HI Hst Hth s.
  destruct HI1 as [[] []].
  split; split; simpl; try assumption.
  - intros Ht. congruence.
  - intros Ht. congruence.
Qed.

Lemma updateViscosity_T_Inv s : Inv s -> Inv (updateViscosity_T s).
Proof.
  intros HI. apply update_Inv; [exact HI|]. intros _.
  pose proof (updateSpeciesViscosities_T_Inv s HI) as HI1.
  unfold _update_visc_T.
  remember (updateSpeciesViscosities_T s) as s1 eqn:Es1. clear Es1 HI s.
  destruct HI1 as [[] []].
  split; split; simpl; assumption.
Qed.

Lemma updateThermal_T_Inv s : Inv s -> Inv (updateThermal_T s).
Proof.
  intros HI. apply update_Inv; [exact HI|]. intros _.
  pose proof (updateSpeciesViscosities_T_Inv s HI) as HI1.
  pose proof (updateSpeciesViscosities_T_ok s) as Hsp1.
  unfold _update_thermal_T.
  remember (updateSpeciesViscosities_T s) as s1 eqn:Es1. clear Es1 HI s.
  pose proof (updateDiff_T_Inv s1 HI1) as HI2.
  pose proof (updateDiff_T_ok s1) as Hd2.
  pose proof (tf_grow _ _ (updateDiff_T_frame s1) U_spvisc_T Hsp1) as Hsp2.
  simpl in Hsp2.
  remember (updateDiff_T s1) as s2 eqn:Es2. clear Es2 HI1 Hsp1 s1.
  destruct HI2 as [[] []].
  match goal with
  | |- context [for_range 0 _ (fun k bd => mat_set bd k k (@?e k)) ?M] =>
      destruct (diagonal_loop_spec (m_nsp (par s2)) e M) as [[Hr Hl] Hval];
        [split; simpl; assumption|]
  end.
  split; split; simpl; try assumption.
  - intros Hd i j Hi Hj Hne. rewrite Hval by assumption.
    destruct (decide (i = j)); [contradiction|]. apply co_bdiff0; assumption.
  - intros _. split; assumption.
  - intros _ k Hk. rewrite Hval by assumption.
    destruct (decide (k = k)); [|contradiction]. reflexivity.
Qed.

(** ** The invariant holds of every reachable state *)

Lemma init_Inv (tr : TransportParams R) : Inv (init tr).
Proof.
  split; split; simpl; try discriminate;
    rewrite ?vec_resize_length; try reflexivity.
Qed.

Lemma same_core_refl s : same_core s s.
Proof. split; reflexivity. Qed.

Lemma same_core_trans s1 s2 s3 : same_core s1 s2 -> same_core s2 s3 -> same_core s1 s3.
Proof. intros [] []. split; congruence. Qed.

Lemma Inv_transfer s s' : Inv s -> same_core s s' -> Inv s'.
Proof.
  intros [[] []] [Hp Hc Hx Hth Hb Hw].
  split; split; rewrite ?Hp, ?Hc, ?Hx, ?Hth, ?Hb, ?Hw; assumption.
Qed.

Lemma set_options_Inv s g m eps : Inv s -> Inv (set_par s (set_options g m eps (par s))).
Proof. intros [[] []]. split; split; simpl; assumption. Qed.

Lemma change_temperature_Inv s T cp :
  Inv s -> Inv (set_thermo s (change_temperature T cp (m_thermo s))).
Proof. intros [[] []]. split; split; simpl; try assumption; discriminate. Qed.

Lemma change_composition_Inv s X Y mmw :
  Inv s -> Inv (set_thermo s (change_composition X Y mmw (m_thermo s))).
Proof. intros [[] []]. split; split; simpl; try assumption; discriminate. Qed.

Lemma change_density_Inv s rho P :
  Inv s -> Inv (set_thermo s (change_density rho P (m_thermo s))).
Proof. intros [[] []]. split; split; simpl; assumption. Qed.

(** ** What the queries touch *)

Lemma rhs_vector_length (p : Params R) (c : TCache R) (x b : list R) :
  length (rhs_vector p c x b) = length b.
Proof.
  unfold rhs_vector.
  rewrite (for_range_preserves (fun w => length w = length b)); [reflexivity| |].
  - rewrite (for_range_preserves (fun w => length w = length b)); [reflexivity..|].
    intros k acc _ H. rewrite !length_insert. exact H.
  - intros k acc _ H. destruct (hasInternalModes p c k); [exact H|].
    rewrite length_insert. exact H.
Qed.

(** The solve works on the state the two updaters leave; it writes the
    right-hand side, the matrix, the solution and two boolean members. *)
Lemma solved_frame s s' :
  solved s s' ->
  let s2 := updateTransport_C (updateThermal_T s) in
  par s' = par s2 /\ tc s' = tc s2 /\ m_molefracs s' = m_molefracs s2 /\
  m_thermo s' = m_thermo s2 /\
  m_b (wk s') = rhs_vector (par s2) (tc s2) (m_molefracs s2) (m_b (wk s2)) /\
  m_spwork (wk s') = m_spwork (wk s2) /\ m_aa (wk s') = m_aa (wk s2).
Proof.
  unfold solved, solveLMatrixEquation. cbv zeta.
  set (s2 := updateTransport_C (updateThermal_T s)). intros H.
  destruct (m_gmres (par s2)) eqn:Eg; cbn [par set_wk log_call] in H; rewrite Eg in H.
  - destruct H as [H|[e H]]; [|discriminate]. inversion H; subst s'. simpl. auto 10.
  - match type of H with context [solve ?L ?a] => destruct (solve L a) as [[info L'] a'] end.
    destruct (negb (info =? 0)%Z); destruct H as [H|[e H]]; try discriminate;
      inversion H; subst s'; simpl; auto 10.
Qed.

Lemma solveLMatrixEquation_no_exit s c : solveLMatrixEquation s <> Exit c.
Proof.
  unfold solveLMatrixEquation.
  match goal with |- context [if ?g then _ else _] => destruct g end; [discriminate|].
  match goal with |- context [solve ?L ?a] => destruct (solve L a) as [[info L'] a'] end.
  destruct (negb (info =? 0)%Z); discriminate.
Qed.

Lemma solved_Inv s s' : Inv s -> solved s s' -> Inv s'.
Proof.
  intros HI Hs. destruct (solved_frame s s' Hs) as (Hp & Hc & Hx & Hth & Hb & Hw & _).
  apply (Inv_transfer (updateTransport_C (updateThermal_T s)));
    [apply updateTransport_C_Inv, updateThermal_T_Inv, HI |].
  split; try assumption.
  - rewrite Hb. apply rhs_vector_length.
  - rewrite Hw. reflexivity.
Qed.

Lemma thermalConductivity_state s s' :
  state_after (thermalConductivity s) = Some s' -> solved s s'.
Proof.
  unfold thermalConductivity, solved.
  destruct (solveLMatrixEquation s) as [s1|e s1|c|]; simpl; intros H; inversion H; subst;
    eauto.
Qed.

Lemma getThermalDiffCoeffs_state dt s s' :
  state_after (getThermalDiffCoeffs dt s) = Some s' -> solved s s'.
Proof.
  unfold getThermalDiffCoeffs, solved.
  destruct (solveLMatrixEquation s) as [s1|e s1|c|]; simpl; intros H; inversion H; subst;
    eauto.
Qed.

(** The flux solver proper writes [m_aa] and nothing else of the
    object. *)
Lemma solve_fluxes_state add ndim grad_T ldx grad_X ldf fluxes s s' :
  state_after (object_of (solve_fluxes add ndim grad_T ldx grad_X ldf fluxes s)) = Some s' ->
  same_core s s' /\ m_spwork (wk s') = m_spwork (wk s) /\ m_b (wk s') = m_b (wk s).
Proof.
  unfold solve_fluxes. cbv zeta.
  destruct (fill_grx _ _ _ _) as [grx|]; [|discriminate].
  match goal with |- context [ct_dgetrf ?a ?b ?c ?d] =>
    destruct (ct_dgetrf a b c d) as [[lu piv] info] end.
  destruct (negb (info =? 0)%Z).
  - simpl. intros H. inversion H; subst. repeat split.
  - match goal with |- context [ct_dgetrs ?a ?b ?c ?d ?e ?f ?g] =>
      destruct (ct_dgetrs a b c d e f g) as [fl' info'] end.
    match goal with |- context [Z.ltb 50 ?i] => destruct (Z.ltb 50 i) end;
      simpl; intros H; inversion H; subst; repeat split.
Qed.

Lemma getThermalDiffCoeffs_length dt s s' dt' :
  getThermalDiffCoeffs dt s = Ok (s', dt') -> length dt' = length dt.
Proof.
  unfold getThermalDiffCoeffs.
  destruct (solveLMatrixEquation s) as [s1|e s1|c|]; simpl; intros H; inversion H; subst.
  apply for_range_insert_length.
Qed.

Lemma getSpeciesFluxes_Inv ndim grad_T ldx grad_X ldf fluxes s s' :
  Inv s ->
  state_after (object_of (getSpeciesFluxes ndim grad_T ldx grad_X ldf fluxes s)) = Some s' ->
  Inv s'.
Proof.
  intros HI. unfold getSpeciesFluxes. cbv zeta.
  pose proof (updateDiff_T_Inv s HI) as HI1.
  remember (updateDiff_T s) as s1 eqn:Es1. clear Es1 HI s.
  destruct (any_nonzero ndim grad_T).
  - destruct (getThermalDiffCoeffs (m_spwork (wk s1)) s1) as [[s2 dt]|e s2|c|] eqn:E.
    + assert (Hs : solved s1 s2)
        by (apply (getThermalDiffCoeffs_state (m_spwork (wk s1))); rewrite E; reflexivity).
      pose proof (solved_Inv _ _ HI1 Hs) as HI2.
      destruct (solved_frame _ _ Hs) as (_ & _ & _ & _ & _ & Hw & _).
      rewrite updateTransport_C_wk in Hw.
      rewrite (tf_wk _ _ (updateThermal_T_frame s1)) in Hw.
      apply getThermalDiffCoeffs_length in E.
      simpl. intros H. apply solve_fluxes_state in H. destruct H as [H _].
      eapply Inv_transfer; [|exact H].
      eapply Inv_transfer; [exact HI2|]. split; simpl; try reflexivity. congruence.
    + simpl. intros H. inversion H; subst.
      apply (solved_Inv s1); [exact HI1|].
      apply (getThermalDiffCoeffs_state (m_spwork (wk s1))). rewrite E. reflexivity.
    + simpl. discriminate.
    + simpl. discriminate.
  - simpl. intros H. apply solve_fluxes_state in H. destruct H as [H _].
    eapply Inv_transfer; eassumption.
Qed.

Lemma getMultiDiffCoeffs_state ld d s s' :
  state_after (getMultiDiffCoeffs ld d s) = Some s' ->
  same_core (updateDiff_T (updateTransport_C s)) s'.
Proof.
  unfold getMultiDiffCoeffs. cbv zeta.
  match goal with |- context [invert ?L ?n] => destruct (invert L n) as [ierr L'] end.
  destruct (negb (ierr =? 0)%Z); simpl; [discriminate|].
  intros H. inversion H; subst. split; reflexivity.
Qed.

Lemma query_Inv q s s' : Inv s -> state_after (query q s) = Some s' -> Inv s'.
Proof.
  intros HI. destruct q as [|ld d| |dt|ndim grad_T ldx grad_X ldf fluxes|ld d]; simpl.
  - intros H. inversion H; subst. apply updateTransport_C_Inv, updateViscosity_T_Inv, HI.
  - intros H. inversion H; subst. apply updateDiff_T_Inv, HI.
  - intros H. apply (solved_Inv s); [exact HI|]. apply thermalConductivity_state.
    destruct (thermalConductivity s) as [[]| | |]; exact H.
  - intros H. apply (solved_Inv s); [exact HI|]. apply (getThermalDiffCoeffs_state dt).
    destruct (getThermalDiffCoeffs dt s) as [[]| | |]; exact H.
  - intros H. apply (getSpeciesFluxes_Inv ndim grad_T ldx grad_X ldf fluxes s); [exact HI|].
    destruct (getSpeciesFluxes ndim grad_T ldx grad_X ldf fluxes s) as [[]| | |]; exact H.
  - intros H. eapply Inv_transfer;
      [apply updateDiff_T_Inv, updateTransport_C_Inv, HI|].
    apply (getMultiDiffCoeffs_state ld d).
    destruct (getMultiDiffCoeffs ld d s) as [[]| | |]; exact H.
Qed.

(** What a call leaves, query by query. *)
Lemma query_cases q s s' :
  state_after (query q s) = Some s' ->
  match q with
  | Q_viscosity => s' = updateTransport_C (updateViscosity_T s)
  | Q_getBinaryDiffCoeffs _ _ => s' = updateDiff_T s
  | Q_thermalConductivity | Q_getThermalDiffCoeffs _ => solved s s'
  | Q_getSpeciesFluxes ndim grad_T ldx grad_X ldf fluxes =>
      state_after (object_of (getSpeciesFluxes ndim grad_T ldx grad_X ldf fluxes s)) = Some s'
  | Q_getMultiDiffCoeffs _ _ => same_core (updateDiff_T (updateTransport_C s)) s'
  end.
Proof.
  destruct q as [|ld d| |dt|ndim grad_T ldx grad_X ldf fluxes|ld d]; simpl; intros H.
  - inversion H. reflexivity.
  - inversion H. reflexivity.
  - apply thermalConductivity_state. destruct (thermalConductivity s) as [[]| | |]; exact H.
  - apply (getThermalDiffCoeffs_state dt).
    destruct (getThermalDiffCoeffs dt s) as [[]| | |]; exact H.
  - destruct (getSpeciesFluxes ndim grad_T ldx grad_X ldf fluxes s) as [[]| | |]; exact H.
  - apply (getMultiDiffCoeffs_state ld d).
    destruct (getMultiDiffCoeffs ld d s) as [[]| | |]; exact H.
Qed.

Lemma reachable_Inv s : reachable s -> Inv s.
Proof.
  induction 1.
  - apply init_Inv.
  - apply set_options_Inv. assumption.
  - apply change_temperature_Inv. assumption.
  - apply change_composition_Inv. assumption.
  - apply change_density_Inv. assumption.
  - eapply query_Inv; eassumption.
Qed.

End Invariants.

(* ================================================================== *)
(** * The L-matrix equation and what is derived from it                 *)
(* ================================================================== *)

Section SolveTier.
Context {R : Type} {SC : Scalar R} {CO : Collab R}.
Implicit Types (s : MultiTransport R).

Local Abbreviation flags s := (updaters (m_thermo s)).

(** A sum over [n] terms that starts at [lo], written as the C++ loop
    writes it (counter from 0, index [k + lo]). *)
Lemma sum_over_shift lo n (f : nat -> R) :
  for_range 0 n (fun k acc => (acc + f (k + lo)%nat)%fp) (lit 0) = sum_over lo (lo + n) f.
Proof.
  assert (H : forall a (r : R),
             fold_left (fun acc k => (acc + f (k + lo)%nat)%fp) (seq a n) r
             = fold_left (fun acc k => (acc + f k)%fp) (seq (a + lo) n) r).
  { induction n as [|n IH]; intros a r; [reflexivity|]. simpl. apply (IH (S a)). }
  unfold sum_over, for_range.
  replace (n - 0) with n by lia. replace (lo + n - lo) with n by lia.
  apply (H 0).
Qed.

Lemma clamped_same_phase (th th' : ThermoPhase R) k :
  same_phase th th' -> clamped th' k = clamped th k.
Proof. unfold same_phase. intros ->. reflexivity. Qed.

(** After the composition updater the cache holds the clamped mole
    fractions of the phase, whether it ran now or earlier. *)
Lemma composition_refreshed s k :
  Inv s -> k < m_nsp (par s) ->
  m_molefracs (updateTransport_C s) !!! k = clamped (m_thermo s) k.
Proof.
  intros HI Hk. destruct (updateTransport_C_Inv s HI) as [_ Hco].
  rewrite (co_composition _ Hco (updateTransport_C_ok s))
    by (rewrite updateTransport_C_par; exact Hk).
  apply clamped_same_phase, updateTransport_C_phase.
Qed.

(** The three thirds of the right-hand side. *)
Lemma rhs_vector_lookup (p : Params R) (c : TCache R) (x b : list R) k :
  length b = 3 * m_nsp p -> k < m_nsp p ->
  rhs_vector p c x b !!! k = lit 0 /\
  rhs_vector p c x b !!! (m_nsp p + k) = x !!! k /\
  rhs_vector p c x b !!! (2 * m_nsp p + k)
  = if hasInternalModes p c k then x !!! k else lit 0.
Proof.
  intros Hlen Hk. unfold rhs_vector. cbv zeta.
  set (n := m_nsp p) in *.
  set (b1 := for_range 0 n _ b).
  assert (H1 : length b1 = 3 * n /\
               forall j, j < n ->
                 b1 !!! j = lit 0 /\ b1 !!! (n + j) = x !!! j /\ b1 !!! (2 * n + j) = x !!! j).
  { subst b1.
    enough (H : length (for_range 0 n
                (fun k b => <[k + 2 * n := x !!! k]> (<[k + n := x !!! k]> (<[k := lit 0]> b))) b)
                = 3 * n /\
              forall j, j < n ->
                let w := for_range 0 n
                  (fun k b => <[k + 2 * n := x !!! k]> (<[k + n := x !!! k]> (<[k := lit 0]> b))) b in
                w !!! j = lit 0 /\ w !!! (n + j) = x !!! j /\ w !!! (2 * n + j) = x !!! j)
      by exact H.
    pose (P := fun (m : nat) (w : list R) =>
      length w = 3 * n /\
      forall j, j < m ->
        w !!! j = lit 0 /\ w !!! (n + j) = x !!! j /\ w !!! (2 * n + j) = x !!! j).
    assert (HP : P n (for_range 0 n
      (fun k b => <[k + 2 * n := x !!! k]> (<[k + n := x !!! k]> (<[k := lit 0]> b))) b)).
    { apply (for_range_ind P); [lia | split; [exact Hlen | intros; lia] |].
      intros m w Hm [Hl Hw]. split; [rewrite !length_insert; exact Hl|].
      intros j Hj. destruct (decide (j = m)) as [->|Hne].
      - rewrite list_lookup_total_insert_ne by lia.
        rewrite list_lookup_total_insert_ne by lia.
        rewrite list_lookup_total_insert_eq by lia.
        split; [reflexivity|].
        rewrite list_lookup_total_insert_ne by lia.
        replace (n + m) with (m + n) by lia.
        rewrite list_lookup_total_insert_eq by (rewrite length_insert; lia).
        split; [reflexivity|].
        replace (2 * n + m) with (m + 2 * n) by lia.
        rewrite list_lookup_total_insert_eq by (rewrite !length_insert; lia).
        reflexivity.
      - rewrite !list_lookup_total_insert_ne by lia. apply Hw. lia. }
    destruct HP as [HPl HPv]. split; [exact HPl|]. intros j Hj. apply HPv. exact Hj. }
  destruct H1 as [Hl1 Hv1].
  pose (Q := fun (m : nat) (w : list R) =>
    length w = 3 * n /\
    forall i, w !!! i
      = if decide (2 * n <= i < 2 * n + m)
        then (if hasInternalModes p c (i - 2 * n) then b1 !!! i else lit 0)
        else b1 !!! i).
  assert (HQ : Q n (for_range 0 n
    (fun k b => if hasInternalModes p c k then b else <[2 * n + k := lit 0]> b) b1)).
  { apply (for_range_ind Q); [lia | |].
    - split; [exact Hl1|]. intros i. case_decide; [lia|reflexivity].
    - intros m w Hm [Hl Hw]. split.
      + destruct (hasInternalModes p c m); [exact Hl|]. rewrite length_insert. exact Hl.
      + intros i. destruct (decide (i = 2 * n + m)) as [->|Hne].
        * destruct (decide (2 * n <= 2 * n + m < 2 * n + S m)); [|lia].
          replace (2 * n + m - 2 * n) with m by lia.
          destruct (hasInternalModes p c m) eqn:E.
          -- rewrite Hw. case_decide; [lia|reflexivity].
          -- apply list_lookup_total_insert_eq. lia.
        * assert (Hi : (if hasInternalModes p c m then w else <[2 * n + m := lit 0]> w) !!! i
                       = w !!! i).
          { destruct (hasInternalModes p c m); [reflexivity|].
            apply list_lookup_total_insert_ne. lia. }
          rewrite Hi, Hw. repeat case_decide; try reflexivity; lia. }
  destruct HQ as [_ HQv]. destruct (Hv1 k Hk) as (Ha & Hb & Hc).
  rewrite !HQv. repeat case_decide; try lia.
  replace (2 * n + k - 2 * n) with k by lia.
  rewrite Ha, Hb, Hc. auto.
Qed.

Lemma solved_par s s' : solved s s' -> par s' = par s.
Proof.
  intros Hs. destruct (solved_frame s s' Hs) as (Hp & _). rewrite Hp.
  rewrite updateTransport_C_par. apply (tf_par _ _ (updateThermal_T_frame s)).
Qed.

Lemma solved_phase s s' : solved s s' -> same_phase (m_thermo s) (m_thermo s').
Proof.
  intros Hs. destruct (solved_frame s s' Hs) as (_ & _ & _ & Hth & _). rewrite Hth.
  eapply same_phase_trans; [|apply updateTransport_C_phase].
  apply (tf_phase _ _ (updateThermal_T_frame s)).
Qed.

(** The mole fractions the solve works with are the clamped mole
    fractions of the phase. *)
Lemma solved_molefracs s s' k :
  Inv s -> solved s s' -> k < m_nsp (par s) ->
  m_molefracs s' !!! k = clamped (m_thermo s) k.
Proof.
  intros HI Hs Hk. destruct (solved_frame s s' Hs) as (_ & _ & Hx & _). rewrite Hx.
  pose proof (updateThermal_T_frame s) as Hf.
  rewrite composition_refreshed;
    [| apply updateThermal_T_Inv, HI | rewrite (tf_par _ _ Hf); exact Hk].
  apply clamped_same_phase, (tf_phase _ _ Hf).
Qed.

(** C1. After a successful L-matrix solve, [thermalConductivity] returns
    -4 times the sum, over the indices N to 3N-1 (the last two thirds of
    the 3N-vectors), of the products of the entries of the right-hand
    side [m_b] and of the solution [m_a] left by that solve; the sum is
    accumulated from 0 in increasing index and each product is formed as
    [m_b[k] * m_a[k]]. *)
Theorem thermalConductivity_is_minus_four_sum s s' v :
  thermalConductivity s = Ok (s', v) ->
  solveLMatrixEquation s = Ok s' /\
  v = (lit (-4) *
       sum_over (m_nsp (par s')) (3 * m_nsp (par s'))
         (fun k => m_b (wk s') !!! k * m_a (wk s') !!! k))%fp.
Proof.
  unfold thermalConductivity.
  destruct (solveLMatrixEquation s) as [s1|e s1|c|]; simpl; intros H; inversion H; subst.
  split; [reflexivity|]. f_equal.
  replace (3 * m_nsp (par s')) with (m_nsp (par s') + 2 * m_nsp (par s')) by lia.
  apply (sum_over_shift (m_nsp (par s')) (2 * m_nsp (par s'))
           (fun k => (m_b (wk s') !!! k * m_a (wk s') !!! k)%fp)).
Qed.

(** C4. After a successful L-matrix solve, [getThermalDiffCoeffs]
    writes, for every species k, dt[k] = c * M_k * x_k * a_k with
    c = 1.6 / GasConstant, M_k the molecular weight, x_k the mole
    fraction of the phase clamped from below to MIN_X, and a_k the k-th
    entry (first third) of the solution of that solve. *)
Theorem thermal_diffusion_coefficients dt s s' dt' :
  reachable s ->
  m_nsp (par s) <= length dt ->
  getThermalDiffCoeffs dt s = Ok (s', dt') ->
  solveLMatrixEquation s = Ok s' /\
  forall k, k < m_nsp (par s) ->
    dt' !!! k
    = (lit 1.6 / GasConstant * m_mw (par s) !!! k * clamped (m_thermo s) k
       * m_a (wk s') !!! k)%fp.
Proof.
  intros Hr Hlen. apply reachable_Inv in Hr. unfold getThermalDiffCoeffs.
  destruct (solveLMatrixEquation s) as [s1|e s1|c|] eqn:E; simpl; intros H;
    inversion H; subst.
  split; [reflexivity|]. intros k Hk.
  assert (Hs : solved s s') by (left; exact E).
  rewrite (solved_par s s' Hs).
  rewrite for_range_fill by exact Hlen.
  destruct (decide (0 <= k < m_nsp (par s))); [|lia].
  rewrite (solved_molefracs s s' k Hr Hs Hk). reflexivity.
Qed.

(** C5. Whenever the L-matrix equation is set up, on the way to a
    successful solve or to a failed one, the right-hand side [m_b] has
    length 3N, its first N entries are 0, its second N entries are the
    clamped mole fractions, and its entry 2N+k is the clamped mole
    fraction of species k when that species has internal modes and 0
    when it has none; the clamped mole fraction is the mole fraction of
    the phase, raised to MIN_X = 1e-20 when it is below. *)
Theorem right_hand_side_thirds s s' :
  reachable s ->
  solved s s' ->
  length (m_b (wk s')) = 3 * m_nsp (par s) /\
  forall k, k < m_nsp (par s) ->
    m_b (wk s') !!! k = lit 0 /\
    m_b (wk s') !!! (m_nsp (par s) + k) = fmaxx (lit 1e-20) (moleFractions (m_thermo s) !!! k) /\
    m_b (wk s') !!! (2 * m_nsp (par s) + k)
    = if hasInternalModes (par s') (tc s') k
      then fmaxx (lit 1e-20) (moleFractions (m_thermo s) !!! k)
      else lit 0.
Proof.
  intros Hr Hs. apply reachable_Inv in Hr.
  pose proof (solved_Inv s s' Hr Hs) as [Hsz' _].
  pose proof (solved_par s s' Hs) as Hp.
  destruct (solved_frame s s' Hs) as (Hp2 & Hc2 & Hx2 & _ & Hb & _).
  split; [rewrite <- Hp; apply (sz_b _ Hsz')|].
  intros k Hk.
  set (s2 := updateTransport_C (updateThermal_T s)) in *.
  assert (HI2 : Inv s2) by apply updateTransport_C_Inv, updateThermal_T_Inv, Hr.
  assert (Hn : m_nsp (par s2) = m_nsp (par s)) by congruence.
  destruct (rhs_vector_lookup (par s2) (tc s2) (m_molefracs s2) (m_b (wk s2)) k)
    as (Ha & Hb1 & Hb2); [apply (sz_b _ (proj1 HI2)) | lia |].
  rewrite Hn in Hb1, Hb2. rewrite Hb, Ha, Hb1, Hb2.
  rewrite <- Hx2, <- Hp2, <- Hc2.
  rewrite (solved_molefracs s s' k Hr Hs Hk). auto.
Qed.

End SolveTier.

(* ================================================================== *)
(** * Binary diffusion coefficients                                     *)
(* ================================================================== *)

Section BinaryDiffusion.
Context {R : Type} {SC : Scalar R} {CO : Collab R}.
Implicit Types (s : MultiTransport R).

Local Abbreviation flags s := (updaters (m_thermo s)).

(** Two positions of an array with leading dimension [ld] coincide
    only if their rows and columns do. *)
Lemma leading_dimension_injective ld n i j i' j' :
  n <= ld -> i < n -> i' < n -> ld * j + i = ld * j' + i' -> i = i' /\ j = j'.
Proof. intros Hld Hi Hi' H. assert (j = j') by nia. subst. lia. Qed.

(** The output loops of [getBinaryDiffCoeffs] and [getMultiDiffCoeffs]:
    entry (i,j) of the result sits at [d[ld*j + i]]. *)
Lemma output_loops_lookup n1 n2 ld (g : nat -> nat -> R) (d : list R) i j :
  n1 <= ld -> ld * n2 <= length d -> i < n1 -> j < n2 ->
  for_range 0 n1 (fun i => for_range 0 n2 (fun j d => <[ld * j + i := g i j]> d)) d
    !!! (ld * j + i) = g i j.
Proof.
  intros Hld Hlen Hi Hj.
  assert (Hrow : forall i0 (w : list R), i0 < n1 -> length w = length d ->
    let w' := for_range 0 n2 (fun j d => <[ld * j + i0 := g i0 j]> d) w in
    length w' = length d /\
    forall i' j', i' < n1 -> j' < n2 ->
      w' !!! (ld * j' + i') = if decide (i' = i0) then g i0 j' else w !!! (ld * j' + i')).
  { intros i0 w Hi0 Hw w'. subst w'.
    pose (P := fun (k : nat) (v : list R) =>
      length v = length d /\
      forall i' j', i' < n1 -> j' < n2 ->
        v !!! (ld * j' + i')
        = if decide (i' = i0 /\ j' < k) then g i0 j' else w !!! (ld * j' + i')).
    assert (HP : P n2 (for_range 0 n2 (fun j d => <[ld * j + i0 := g i0 j]> d) w)).
    { apply (for_range_ind P); [lia | |].
      - split; [exact Hw|]. intros i' j' _ _. case_decide; [lia|reflexivity].
      - intros k v Hk [Hl Hv]. split; [rewrite length_insert; exact Hl|].
        intros i' j' Hi' Hj'.
        destruct (decide (i' = i0 /\ j' = k)) as [[-> ->]|Hne].
        + rewrite list_lookup_total_insert_eq by nia.
          case_decide; [reflexivity|lia].
        + rewrite list_lookup_total_insert_ne.
          * rewrite Hv by assumption. repeat case_decide; try reflexivity; lia.
          * intros Heq. apply Hne.
            destruct (leading_dimension_injective ld n1 i0 k i' j'); auto. }
    destruct HP as [HPl HPv]. split; [exact HPl|].
    intros i' j' Hi' Hj'. rewrite HPv by assumption.
    repeat case_decide; try reflexivity; lia. }
  pose (Q := fun (k : nat) (v : list R) =>
    length v = length d /\
    forall i' j', i' < n1 -> j' < n2 ->
      v !!! (ld * j' + i') = if decide (i' < k) then g i' j' else d !!! (ld * j' + i')).
  assert (HQ : Q n1
    (for_range 0 n1 (fun i => for_range 0 n2 (fun j d => <[ld * j + i := g i j]> d)) d)).
  { apply (for_range_ind Q); [lia | |].
    - split; [reflexivity|]. intros i' j' _ _. case_decide; [lia|reflexivity].
    - intros k v Hk [Hl Hv].
      destruct (Hrow k v ltac:(lia) Hl) as [Hl' Hv']. split; [exact Hl'|].
      intros i' j' Hi' Hj'. rewrite Hv' by assumption.
      case_decide.
      + subst. case_decide; [reflexivity|lia].
      + rewrite Hv by assumption. repeat case_decide; try reflexivity; lia. }
  destruct HQ as [_ HQv]. rewrite HQv by assumption.
  case_decide; [reflexivity|lia].
Qed.

(** What [getBinaryDiffCoeffs] returns: the cached matrix over the
    pressure, entry by entry. *)
Lemma getBinaryDiffCoeffs_lookup ld d s s' d' i j :
  getBinaryDiffCoeffs ld d s = (s', d') ->
  m_nsp (par s) <= ld -> ld * m_nsp (par s) <= length d ->
  i < m_nsp (par s) -> j < m_nsp (par s) ->
  s' = updateDiff_T s /\
  d' !!! (ld * j + i) = (lit 1 / pressure (m_thermo s) * value (m_bdiff (tc s')) i j)%fp.
Proof.
  unfold getBinaryDiffCoeffs. intros H Hld Hlen Hi Hj. inversion H; subst. clear H.
  split; [reflexivity|].
  pose proof (updateDiff_T_frame s) as Hf.
  rewrite (tf_par _ _ Hf).
  rewrite (output_loops_lookup (m_nsp (par s)) (m_nsp (par s)) ld
             (fun i j => (lit 1 / pressure_ig (updateDiff_T s)
                          * value (m_bdiff (tc (updateDiff_T s))) i j)%fp))
    by assumption.
  unfold pressure_ig. rewrite (tf_phase _ _ Hf). reflexivity.
Qed.

(** The fit of a pair does not depend on the order of the pair. *)
Lemma bdiff_fit_sym (p : Params R) (c : TCache R) i j : bdiff_fit p c i j = bdiff_fit p c j i.
Proof. unfold bdiff_fit. rewrite (upper_index_sym (m_nsp p) i j). reflexivity. Qed.

(** C8. The matrix returned by [getBinaryDiffCoeffs] is symmetric: the
    entry written for (i,j) equals the entry written for (j,i), in every
    state the object can reach (also after the thermal update has
    rewritten the diagonal of the cached matrix).  The array [d] has
    leading dimension [ld], at least the number of species, and room for
    [ld] times that many entries. *)
Theorem binary_diffusion_symmetric s ld d s' d' i j :
  reachable s ->
  m_nsp (par s) <= ld -> ld * m_nsp (par s) <= length d ->
  getBinaryDiffCoeffs ld d s = (s', d') ->
  i < m_nsp (par s) -> j < m_nsp (par s) ->
  d' !!! (ld * j + i) = d' !!! (ld * i + j).
Proof.
  intros Hr Hld Hlen H Hi Hj. apply reachable_Inv in Hr.
  destruct (getBinaryDiffCoeffs_lookup ld d s s' d' i j H) as [-> Hij]; try assumption.
  destruct (getBinaryDiffCoeffs_lookup ld d s _ d' j i H) as [_ Hji]; try assumption.
  rewrite Hij, Hji. f_equal.
  destruct (decide (i = j)) as [->|Hne]; [reflexivity|].
  destruct (updateDiff_T_Inv s Hr) as [_ Hco].
  pose proof (tf_par _ _ (updateDiff_T_frame s)) as Hp.
  rewrite !(co_bdiff _ Hco (updateDiff_T_ok s)) by (rewrite ?Hp; auto).
  apply bdiff_fit_sym.
Qed.

Lemma updateTransport_C_grow s : tags_grow (flags s) (flags (updateTransport_C s)).
Proof.
  unfold updateTransport_C, update. destruct (is_ok (flags s) U_transport_C).
  - apply tags_grow_refl.
  - simpl. apply tags_grow_mark.
Qed.

(** The tags after a solve: the thermal tier and the composition tier
    are valid, and no tag went stale. *)
Lemma solved_tags s s' :
  solved s s' ->
  ok_thermal_T (flags s') = true /\ ok_transport_C (flags s') = true /\
  tags_grow (flags s) (flags s').
Proof.
  intros Hs. destruct (solved_frame s s' Hs) as (_ & _ & _ & Hth & _). rewrite Hth.
  split; [|split].
  - pose proof (updateTransport_C_tags (updateThermal_T s) U_thermal_T eq_refl) as HT.
    simpl in HT. rewrite HT. apply updateThermal_T_ok.
  - apply updateTransport_C_ok.
  - eapply tags_grow_trans; [|apply updateTransport_C_grow].
    apply (tf_grow _ _ (updateThermal_T_frame s)).
Qed.

Lemma getSpeciesFluxes_tags ndim grad_T ldx grad_X ldf fluxes s s' :
  state_after (object_of (getSpeciesFluxes ndim grad_T ldx grad_X ldf fluxes s)) = Some s' ->
  ok_diff_T (flags s') = true /\
  (any_nonzero ndim grad_T = true ->
   ok_thermal_T (flags s') = true /\ ok_transport_C (flags s') = true).
Proof.
  unfold getSpeciesFluxes. cbv zeta.
  pose proof (updateDiff_T_ok s) as Hd.
  remember (updateDiff_T s) as s1 eqn:Es1. clear Es1 s.
  destruct (any_nonzero ndim grad_T).
  - destruct (getThermalDiffCoeffs (m_spwork (wk s1)) s1) as [[s2 dt]|e s2|c|] eqn:E.
    + assert (Hs : solved s1 s2)
        by (apply (getThermalDiffCoeffs_state (m_spwork (wk s1))); rewrite E; reflexivity).
      destruct (solved_tags _ _ Hs) as (Ht & Hc & Hg).
      simpl. intros H. apply solve_fluxes_state in H. destruct H as [[] _].
      simpl in sc_thermo0. rewrite sc_thermo0. split; [apply (Hg U_diff_T Hd)|auto].
    + simpl. intros H. inversion H; subst.
      assert (Hs : solved s1 s')
        by (apply (getThermalDiffCoeffs_state (m_spwork (wk s1))); rewrite E; reflexivity).
      destruct (solved_tags _ _ Hs) as (Ht & Hc & Hg).
      split; [apply (Hg U_diff_T Hd)|auto].
    + simpl. discriminate.
    + simpl. discriminate.
  - simpl. intros H. apply solve_fluxes_state in H. destruct H as [[] _].
    rewrite sc_thermo0. split; [exact Hd|discriminate].
Qed.

(** Every updater a query asks for is valid when the query is over. *)
Lemma query_validates q s s' id :
  state_after (query q s) = Some s' -> In id (triggers q) -> is_ok (flags s') id = true.
Proof.
  destruct q as [|ld d| |dt|ndim grad_T ldx grad_X ldf fluxes|ld d]; simpl.
  - intros H Hin. inversion H; subst. destruct Hin as [<-|[<-|[]]].
    + rewrite (updateTransport_C_tags _ U_visc_T) by reflexivity.
      apply (updateViscosity_T_ok s).
    + apply updateTransport_C_ok.
  - intros H Hin. inversion H; subst. destruct Hin as [<-|[]]. apply updateDiff_T_ok.
  - intros H Hin.
    assert (Hs : solved s s')
      by (apply thermalConductivity_state; destruct (thermalConductivity s) as [[]| | |];
          exact H).
    destruct (solved_tags _ _ Hs) as (Ht & Hc & _). destruct Hin as [<-|[<-|[]]]; assumption.
  - intros H Hin.
    assert (Hs : solved s s')
      by (apply (getThermalDiffCoeffs_state dt);
          destruct (getThermalDiffCoeffs dt s) as [[]| | |]; exact H).
    destruct (solved_tags _ _ Hs) as (Ht & Hc & _). destruct Hin as [<-|[<-|[]]]; assumption.
  - intros H Hin.
    destruct (getSpeciesFluxes_tags ndim grad_T ldx grad_X ldf fluxes s s') as [Hd Hnz].
    { destruct (getSpeciesFluxes ndim grad_T ldx grad_X ldf fluxes s) as [[]| | |]; exact H. }
    destruct (any_nonzero ndim grad_T).
    + destruct (Hnz eq_refl) as [Ht Hc]. destruct Hin as [<-|[<-|[<-|[]]]]; assumption.
    + destruct Hin as [<-|[]]. exact Hd.
  - intros H Hin.
    destruct (getMultiDiffCoeffs_state ld d s s') as [_ _ _ Hth _ _].
    { destruct (getMultiDiffCoeffs ld d s) as [[]| | |]; exact H. }
    rewrite Hth. destruct Hin as [<-|[<-|[]]].
    + apply (tf_grow _ _ (updateDiff_T_frame _) U_transport_C), updateTransport_C_ok.
    + apply updateDiff_T_ok.
Qed.

(** C10. After any query that asks for the thermal update, the
    diagonal of the cached binary diffusion matrix holds the
    self-diffusion estimate 1.2 * GasConstant * T * eta_k * Astar(k,k)
    / M_k, and a [getBinaryDiffCoeffs] call made next (the temperature
    unchanged) finds the binary-diffusion tier valid, changes nothing
    and returns the cached matrix: on the diagonal that estimate times
    the reciprocal of the pressure, instead of the polynomial fit, and
    off the diagonal the polynomial fit times the reciprocal of the
    pressure.  T is the temperature of the phase. *)
Theorem diagonal_is_self_diffusion_estimate q s s1 ld d s2 d' :
  reachable s ->
  In U_thermal_T (triggers q) ->
  state_after (query q s) = Some s1 ->
  m_nsp (par s1) <= ld -> ld * m_nsp (par s1) <= length d ->
  getBinaryDiffCoeffs ld d s1 = (s2, d') ->
  s2 = s1 /\
  m_temp (tc s1) = temperature (m_thermo s1) /\
  (forall k, k < m_nsp (par s1) ->
     value (m_bdiff (tc s1)) k k
     = (lit 1.2 * GasConstant * m_temp (tc s1) * m_visc (tc s1) !!! k
        * value (m_astar (tc s1)) k k / m_mw (par s1) !!! k)%fp /\
     d' !!! (ld * k + k)
     = (lit 1 / pressure (m_thermo s1)
        * (lit 1.2 * GasConstant * m_temp (tc s1) * m_visc (tc s1) !!! k
           * value (m_astar (tc s1)) k k / m_mw (par s1) !!! k))%fp) /\
  (forall i j, i < m_nsp (par s1) -> j < m_nsp (par s1) -> i <> j ->
     d' !!! (ld * j + i)
     = (lit 1 / pressure (m_thermo s1) * bdiff_fit (par s1) (tc s1) i j)%fp).
Proof.
  intros Hr Hin Hq Hld Hlen H.
  pose proof (query_validates q s s1 U_thermal_T Hq Hin) as Ht. simpl in Ht.
  assert (HI : Inv s1) by (apply reachable_Inv; eapply reach_query; eassumption).
  destruct HI as [_ Hco].
  destruct (co_thermal_T _ Hco Ht) as [Hd _].
  pose proof (co_diff_T _ Hco Hd) as Htr.
  assert (Hs2 : updateDiff_T s1 = s1) by (apply update_valid; exact Hd).
  split; [|split; [|split]].
  - unfold getBinaryDiffCoeffs in H. inversion H. exact Hs2.
  - apply (co_temperature _ Hco Htr).
  - intros k Hk. split; [apply (co_diagonal _ Hco Ht k Hk)|].
    destruct (getBinaryDiffCoeffs_lookup ld d s1 s2 d' k k H) as [-> Hkk]; try assumption.
    rewrite Hkk, Hs2. rewrite (co_diagonal _ Hco Ht k Hk). reflexivity.
  - intros i j Hi Hj Hne.
    destruct (getBinaryDiffCoeffs_lookup ld d s1 s2 d' i j H) as [-> Hij]; try assumption.
    rewrite Hij, Hs2. rewrite (co_bdiff _ Hco Hd i j Hi Hj Hne). reflexivity.
Qed.

End BinaryDiffusion.

(* ================================================================== *)
(** * A composition change and the temperature tier                     *)
(* ================================================================== *)

Section CompositionChange.
Context {R : Type} {SC : Scalar R} {CO : Collab R}.
Implicit Types (s : MultiTransport R).

Local Abbreviation flags s := (updaters (m_thermo s)).



End CompositionChange.

(* ================================================================== *)
(** * The species-flux solver                                           *)
(* ================================================================== *)

Section FluxSolver.
Context {R : Type} {SC : Scalar R} {CO : Collab R}.
Implicit Types (s : MultiTransport R) (v w : list R).

Local Abbreviation flags s := (updaters (m_thermo s)).

(** The scaling and thermal-diffusion loops: for every direction [d]
    and species [i], the entry at [i + d*ldf] is updated in place. *)
Lemma offset_loops_lookup n ndim ldf (g : nat -> nat -> R -> R) v k e :
  n <= ldf -> ldf * ndim <= length v -> k < n -> e < ndim ->
  for_range 0 ndim
    (fun d => for_range 0 n (fun i w => <[i + d * ldf := g d i (w !!! (i + d * ldf))]> w)) v
    !!! (k + e * ldf)
  = g e k (v !!! (k + e * ldf)).
Proof.
  intros Hld Hlen Hk He.
  pose (P := fun (m : nat) (w : list R) =>
    length w = length v /\
    forall k e, k < n -> e < ndim ->
      w !!! (k + e * ldf)
      = if decide (e < m) then g e k (v !!! (k + e * ldf)) else v !!! (k + e * ldf)).
  assert (HP : P ndim (for_range 0 ndim
    (fun d => for_range 0 n (fun i w => <[i + d * ldf := g d i (w !!! (i + d * ldf))]> w)) v)).
  { apply (for_range_ind P); [lia | |].
    - split; [reflexivity|]. intros k' e' _ _. case_decide; [lia|reflexivity].
    - intros m w Hm [Hl Hw]. split; [rewrite for_range_insert_length; exact Hl|].
      intros k' e' Hk' He'.
      rewrite (for_range_update n (fun i => i + m * ldf) (g m) (m * ldf))
        by (try (intros; lia); nia).
      destruct (decide (e' = m)) as [->|Hne].
      + destruct (decide (m * ldf <= k' + m * ldf < m * ldf + n)); [|lia].
        replace (k' + m * ldf - m * ldf) with k' by lia.
        rewrite Hw by assumption.
        destruct (decide (m < m)); [lia|]. destruct (decide (m < S m)); [reflexivity|lia].
      + destruct (decide (m * ldf <= k' + e' * ldf < m * ldf + n)) as [Hin|_]; [exfalso; nia|].
        rewrite Hw by assumption. repeat case_decide; try reflexivity; lia. }
  destruct HP as [_ HPv]. rewrite HPv by assumption. case_decide; [reflexivity|lia].
Qed.

Lemma offset_loops_length n ndim ldf (g : nat -> nat -> R -> R) v :
  length (for_range 0 ndim
    (fun d => for_range 0 n (fun i w => <[i + d * ldf := g d i (w !!! (i + d * ldf))]> w)) v)
  = length v.
Proof.
  apply (for_range_preserves (fun w => length w = length v)); [reflexivity|].
  intros d acc _ H. rewrite for_range_insert_length. exact H.
Qed.


Lemma flux_soret_lookup n ndim ldf (temp : R) (grad_T spwork v : list R) k e :
  n <= ldf -> ldf * ndim <= length v -> k < n -> e < ndim ->
  flux_soret n ndim ldf temp grad_T spwork v !!! (k + e * ldf)
  = (v !!! (k + e * ldf)%nat - spwork !!! k * (grad_T !!! e / temp))%fp.
Proof.
  intros. unfold flux_soret.
  apply (offset_loops_lookup n ndim ldf
           (fun d i a => (a - spwork !!! i * (grad_T !!! d / temp))%fp)); assumption.
Qed.

Lemma flux_soret_length n ndim ldf (temp : R) (grad_T spwork v : list R) :
  length (flux_soret n ndim ldf temp grad_T spwork v) = length v.
Proof.
  unfold flux_soret.
  apply (offset_loops_length n ndim ldf
           (fun d i a => (a - spwork !!! i * (grad_T !!! d / temp))%fp)).
Qed.


(** The species whose equation is replaced is one of the species. *)
Lemma find_jmax_lt n (grad_X : list R) : 0 < n -> find_jmax n grad_X < n.
Proof.
  intros Hn. unfold find_jmax.
  pose (P := fun (m : nat) (q : nat * R) => fst q < Nat.max 1 m).
  assert (HP : P n (for_range 0 n
    (fun j '(jmax, gradmax) =>
       if sgt (fabs (grad_X !!! j)) gradmax then (j, fabs (grad_X !!! j))
       else (jmax, gradmax)) (0, lit (-1)))).
  { apply (for_range_ind P); [lia | unfold P; simpl; lia |].
    intros k [jm gm] Hk H. unfold P in *. simpl in *.
    destruct (sgt (fabs (grad_X !!! k)) gm); simpl; lia. }
  unfold P in HP. lia.
Qed.



(** A successful run of the flux solver proper: the fluxes are the
    scaled LAPACK velocities, less the thermal-diffusion term when it is
    asked for; the object changes in [m_aa] and in the call log only. *)
Lemma solve_fluxes_ok add ndim grad_T ldx grad_X ldf fluxes s s' fl :
  solve_fluxes add ndim grad_T ldx grad_X ldf fluxes s = Ok (s', fl) ->
  let n := m_nsp (par s) in
  let y := massFractions (m_thermo s) in
  let sys := flux_system n ndim ldx ldf (m_molefracs s) y (m_bdiff (tc s)) (m_aa (wk s))
               grad_X fluxes in
  let base := flux_scale n ndim ldf (density (m_thermo s)) (pressure (m_thermo s)) y
                (lapack_velocities (fst sys) ndim (snd sys) ldf) in
  fl = (if add
        then flux_soret n ndim ldf (m_temp (tc s)) grad_T (m_spwork (wk s)) base
        else base) /\
  par s' = par s /\ tc s' = tc s /\ m_thermo s' = m_thermo s /\
  m_molefracs s' = m_molefracs s /\
  m_spwork (wk s') = m_spwork (wk s) /\
  calls s' = calls s ++ [EvFactor; EvBackSolve].
Proof.
  unfold solve_fluxes, lapack_velocities. cbv zeta.
  destruct (fill_grx _ _ _ _) as [grx|]; [|discriminate].
  match goal with |- context [ct_dgetrf ?a ?b ?c ?d] =>
    destruct (ct_dgetrf a b c d) as [[lu piv] info] end.
  destruct (negb (info =? 0)%Z); [discriminate|].
  cbn [nRows nColumns mdata ipiv fst snd].
  match goal with |- context [ct_dgetrs ?a ?b ?c ?d ?e ?f ?g] =>
    destruct (ct_dgetrs a b c d e f g) as [fl' info'] end.
  match goal with |- context [Z.ltb 50 ?i] => destruct (Z.ltb 50 i) end; [discriminate|].
  intros H. inversion H; subst. cbn. rewrite <- app_assoc. auto 10.
Qed.

(** The thermal-diffusion term is subtracted from the result the solver
    gives without it. *)
Lemma solve_fluxes_soret ndim grad_T ldx grad_X ldf fluxes s s' fl :
  solve_fluxes true ndim grad_T ldx grad_X ldf fluxes s = Ok (s', fl) ->
  exists base,
    solve_fluxes false ndim grad_T ldx grad_X ldf fluxes s = Ok (s', base) /\
    fl = flux_soret (m_nsp (par s)) ndim ldf (m_temp (tc s)) grad_T (m_spwork (wk s)) base.
Proof.
  unfold solve_fluxes. cbv zeta.
  destruct (fill_grx _ _ _ _) as [grx|]; [|discriminate].
  match goal with |- context [ct_dgetrf ?a ?b ?c ?d] =>
    destruct (ct_dgetrf a b c d) as [[lu piv] info] end.
  destruct (negb (info =? 0)%Z); [discriminate|].
  match goal with |- context [ct_dgetrs ?a ?b ?c ?d ?e ?f ?g] =>
    destruct (ct_dgetrs a b c d e f g) as [fl' info'] end.
  match goal with |- context [Z.ltb 50 ?i] => destruct (Z.ltb 50 i) end; [discriminate|].
  intros H. inversion H; subst. eexists. split; reflexivity.
Qed.

(** C3 (as the code has it). In [getSpeciesFluxes], when some component
    of grad_T differs from 0, the thermal-diffusion coefficients are
    computed by [getThermalDiffCoeffs] into [m_spwork], and for every
    direction d and species k the quantity dt_k * (grad_T[d] / T), the
    thermal-diffusion coefficient itself times the gradient of log T,
    is subtracted from the flux component the solver gives without the
    thermal term; T is the temperature of the phase.  When every
    component of grad_T is 0 the result is that of the solver without
    the thermal term, [m_spwork] is left as it was and the only calls
    made are the LAPACK factorisation and back-substitution: no
    thermal-diffusion coefficient is computed. *)
Theorem soret_correction ndim grad_T ldx grad_X ldf fluxes s s' fl :
  reachable s ->
  m_nsp (par s) <= ldf -> ldf * ndim <= length fl ->
  getSpeciesFluxes ndim grad_T ldx grad_X ldf fluxes s = Ok (s', fl) ->
  if any_nonzero ndim grad_T then
    exists s2 dt base,
      getThermalDiffCoeffs (m_spwork (wk s)) (updateDiff_T s) = Ok (s2, dt) /\
      solve_fluxes false ndim grad_T ldx grad_X ldf fluxes
        (set_wk s2 (set_spwork (wk s2) dt)) = Ok (s', base) /\
      m_temp (tc s') = temperature (m_thermo s) /\
      forall d k, d < ndim -> k < m_nsp (par s) ->
        fl !!! (k + d * ldf)
        = (base !!! (k + d * ldf)%nat - dt !!! k * (grad_T !!! d / m_temp (tc s')))%fp
  else
    solve_fluxes false ndim grad_T ldx grad_X ldf fluxes (updateDiff_T s) = Ok (s', fl) /\
    m_spwork (wk s') = m_spwork (wk s) /\
    calls s' = calls s ++ [EvFactor; EvBackSolve].
Proof.
  intros Hr Hld Hlen. apply reachable_Inv in Hr.
  unfold getSpeciesFluxes. cbv zeta.
  pose proof (updateDiff_T_frame s) as Hf.
  pose proof (updateDiff_T_Inv s Hr) as HI1.
  pose proof (updateDiff_T_ok s) as Hd1.
  rewrite (tf_wk _ _ Hf).
  destruct (any_nonzero ndim grad_T).
  - destruct (getThermalDiffCoeffs (m_spwork (wk s)) (updateDiff_T s))
      as [[s2 dt]|e s2|c|] eqn:E; simpl; [|discriminate..].
    intros H. destruct (solve_fluxes_soret _ _ _ _ _ _ _ _ _ H) as (base & Hb & Hfl).
    exists s2, dt, base. split; [reflexivity|]. split; [exact Hb|].
    assert (Hs : solved (updateDiff_T s) s2)
      by (apply (getThermalDiffCoeffs_state (m_spwork (wk s))); rewrite E; reflexivity).
    destruct (solve_fluxes_ok _ _ _ _ _ _ _ _ _ _ Hb) as (_ & Hp & Hc & Hth & _).
    cbn [par tc m_thermo set_wk] in Hp, Hc, Hth.
    pose proof (solved_Inv _ _ HI1 Hs) as [_ Hco2].
    destruct (solved_tags _ _ Hs) as (_ & _ & Hg).
    pose proof (co_temperature _ Hco2 (co_diff_T _ Hco2 (Hg U_diff_T Hd1))) as HT.
    pose proof (solved_phase _ _ Hs) as Hph.
    assert (HT' : m_temp (tc s') = temperature (m_thermo s)).
    { rewrite Hc, HT. rewrite Hph. simpl. rewrite (tf_phase _ _ Hf). reflexivity. }
    split; [exact HT'|]. intros d k Hdn Hk.
    assert (Hn2 : m_nsp (par s2) = m_nsp (par s))
      by (rewrite (solved_par _ _ Hs), (tf_par _ _ Hf); reflexivity).
    rewrite Hfl. cbn [par tc wk set_wk m_spwork set_spwork]. rewrite Hn2.
    rewrite Hfl, flux_soret_length in Hlen.
    rewrite flux_soret_lookup by assumption. rewrite Hc. reflexivity.
  - simpl. intros H. split; [exact H|].
    destruct (solve_fluxes_ok _ _ _ _ _ _ _ _ _ _ H) as (_ & _ & _ & _ & _ & Hw & Hcalls).
    rewrite Hw, Hcalls, (tf_wk _ _ Hf), (tf_calls _ _ Hf). auto.
Qed.

End FluxSolver.

(* ================================================================== *)
(** * The flux balance in exact arithmetic                              *)
(* ================================================================== *)

Section ExactArithmetic.
Context {R : Type} {SC : Scalar R} {CO : Collab R}.
Variables (sopp sinv : R -> R).
Hypothesis exact_ring : ring_theory (lit 0) (lit 1) sadd smul ssub sopp (@eq R).
Hypothesis exact_div : forall a b : R, sdiv a b = smul a (sinv b).

Add Ring exact_scalars : exact_ring.

Lemma sum_over_ext lo hi (f g : nat -> R) :
  (forall k, lo <= k < hi -> f k = g k) -> sum_over lo hi f = sum_over lo hi g.
Proof.
  intros H. unfold sum_over.
  apply (for_range_ext lo hi (fun k acc => (acc + f k)%fp) (fun k acc => (acc + g k)%fp)).
  intros k acc Hk. rewrite H by exact Hk. reflexivity.
Qed.

Lemma sum_over_scaled lo hi (f : nat -> R) (c : R) :
  sum_over lo hi (fun k => (f k * c)%fp) = (sum_over lo hi f * c)%fp.
Proof using exact_ring.
  unfold sum_over. generalize (seq lo (hi - lo)). intros l.
  assert (H : forall a : R,
             fold_left (fun acc k => (acc + f k * c)%fp) l (a * c)%fp
             = (fold_left (fun acc k => (acc + f k)%fp) l a * c)%fp).
  { induction l as [|k l IH]; intros a; [reflexivity|]. simpl.
    rewrite <- IH. f_equal. ring. }
  rewrite <- H. f_equal. ring.
Qed.


(** The flux system is built on the state [flux_stage] gives. *)
Lemma getSpeciesFluxes_stage ndim grad_T ldx grad_X ldf fluxes s s1 :
  flux_stage ndim grad_T s = Some s1 ->
  getSpeciesFluxes ndim grad_T ldx grad_X ldf fluxes s
  = solve_fluxes (any_nonzero ndim grad_T) ndim grad_T ldx grad_X ldf fluxes s1.
Proof.
  unfold flux_stage, getSpeciesFluxes. cbv zeta.
  destruct (any_nonzero ndim grad_T).
  - destruct (getThermalDiffCoeffs _ _) as [r|e s2|c|]; try discriminate.
    intros H. inversion H. reflexivity.
  - intros H. inversion H. reflexivity.
Qed.


End ExactArithmetic.

(* ================================================================== *)
(** * Repeated solves and failed factorisations                         *)
(* ================================================================== *)

Section Outcomes.
Context {R : Type} {SC : Scalar R} {CO : Collab R}.
Implicit Types (s : MultiTransport R).

(** Every call of [solveLMatrixEquation] assembles the matrix and
    solves the system, whatever [m_lmatrix_soln_ok] says. *)
Lemma solve_always_solves s s' :
  solved s s' ->
  exists ev, (ev = EvSolveLU \/ ev = EvSolveGMRES) /\
             calls s' = calls s ++ [EvAssembleL; ev].
Proof.
  unfold solved, solveLMatrixEquation. cbv zeta.
  pose proof (updateTransport_C_calls (updateThermal_T s)) as Hc.
  rewrite (tf_calls _ _ (updateThermal_T_frame s)) in Hc.
  set (s2 := updateTransport_C (updateThermal_T s)) in *. intros H.
  destruct (m_gmres (par s2)) eqn:Eg; cbn [par set_wk log_call] in H; rewrite Eg in H.
  - destruct H as [H|[e H]]; [|discriminate]. inversion H; subst s'.
    exists EvSolveGMRES. split; [auto|]. cbn. rewrite Hc, <- app_assoc. reflexivity.
  - match type of H with context [solve ?L ?a] => destruct (solve L a) as [[info L'] a'] end.
    exists EvSolveLU. split; [auto|].
    destruct (negb (info =? 0)%Z); destruct H as [H|[e H]]; try discriminate;
      inversion H; subst s'; cbn; rewrite Hc, <- app_assoc; reflexivity.
Qed.

(** Neither the solve nor the flux solver calls [exit]. *)
Lemma thermalConductivity_no_exit s c : thermalConductivity s <> Exit c.
Proof.
  unfold thermalConductivity. pose proof (solveLMatrixEquation_no_exit s c) as H.
  destruct (solveLMatrixEquation s); simpl; congruence.
Qed.

Lemma solve_fluxes_no_exit add ndim grad_T ldx grad_X ldf fluxes s c :
  solve_fluxes add ndim grad_T ldx grad_X ldf fluxes s <> Exit c.
Proof.
  unfold solve_fluxes. cbv zeta.
  destruct (fill_grx _ _ _ _) as [grx|]; [|discriminate].
  match goal with |- context [ct_dgetrf ?a ?b ?c ?d] =>
    destruct (ct_dgetrf a b c d) as [[lu piv] info] end.
  destruct (negb (info =? 0)%Z); [discriminate|].
  match goal with |- context [ct_dgetrs ?a ?b ?c ?d ?e ?f ?g] =>
    destruct (ct_dgetrs a b c d e f g) as [fl' info'] end.
  match goal with |- context [Z.ltb 50 ?i] => destruct (Z.ltb 50 i) end; discriminate.
Qed.

(** [getMultiDiffCoeffs] never throws: it returns, or ends the process. *)
Lemma getMultiDiffCoeffs_no_throw ld d s e s' : getMultiDiffCoeffs ld d s <> Throw e s'.
Proof.
  unfold getMultiDiffCoeffs. cbv zeta.
  match goal with |- context [invert ?L ?n] => destruct (invert L n) as [ierr L'] end.
  destruct (negb (ierr =? 0)%Z); discriminate.
Qed.

End Outcomes.

(* ================================================================== *)
(** * The program on the example mixture                                *)
(* ================================================================== *)

Lemma ex_init_reachable : reachable ex_init.
Proof. apply reach_init. Qed.

Lemma ex_after_viscosity_reachable : reachable ex_after_viscosity.
Proof.
  apply (reach_query ex_init Q_viscosity); [apply reach_init|].
  vm_compute. reflexivity.
Qed.

Lemma ex_after_conductivity_reachable : reachable ex_after_conductivity.
Proof.
  apply (reach_query ex_init Q_thermalConductivity); [apply reach_init|].
  vm_compute. reflexivity.
Qed.

(** The thermal conductivity of the example is -4 times the sum over
    the indices 2..5 (here 4). *)
Lemma thermalConductivity_example :
  exists s' v,
    thermalConductivity ex_init = Ok (s', v) /\
    solveLMatrixEquation ex_init = Ok s' /\
    v = (lit (-4) *
         sum_over (m_nsp (par s')) (3 * m_nsp (par s'))
           (fun k => m_b (wk s') !!! k * m_a (wk s') !!! k))%fp.
Proof.
  eexists. eexists. split; [vm_compute; reflexivity|].
  apply thermalConductivity_is_minus_four_sum. vm_compute. reflexivity.
Defined.

Lemma thermal_diffusion_coefficients_example :
  exists s' dt',
    reachable ex_init /\ m_nsp (par ex_init) <= length ex_buffer2 /\
    getThermalDiffCoeffs ex_buffer2 ex_init = Ok (s', dt') /\
    solveLMatrixEquation ex_init = Ok s' /\
    forall k, k < m_nsp (par ex_init) ->
      dt' !!! k
      = (lit 1.6 / GasConstant * m_mw (par ex_init) !!! k * clamped (m_thermo ex_init) k
         * m_a (wk s') !!! k)%fp.
Proof.
  eexists. eexists. split; [apply reach_init|]. split; [vm_compute; lia|].
  split; [vm_compute; reflexivity|].
  apply (thermal_diffusion_coefficients ex_buffer2 ex_init).
  - apply reach_init.
  - vm_compute. lia.
  - vm_compute. reflexivity.
Defined.

Lemma right_hand_side_example :
  exists s',
    reachable ex_init /\ solved ex_init s' /\
    length (m_b (wk s')) = 3 * m_nsp (par ex_init) /\
    forall k, k < m_nsp (par ex_init) ->
      m_b (wk s') !!! k = lit 0 /\
      m_b (wk s') !!! (m_nsp (par ex_init) + k)
      = fmaxx (lit 1e-20) (moleFractions (m_thermo ex_init) !!! k) /\
      m_b (wk s') !!! (2 * m_nsp (par ex_init) + k)
      = if hasInternalModes (par s') (tc s') k
        then fmaxx (lit 1e-20) (moleFractions (m_thermo ex_init) !!! k)
        else lit 0.
Proof.
  eexists. split; [apply reach_init|].
  assert (H : solved ex_init ex_after_conductivity) by (left; vm_compute; reflexivity).
  split; [exact H|].
  apply (right_hand_side_thirds ex_init ex_after_conductivity); [apply reach_init|exact H].
Defined.



Lemma binary_diffusion_symmetric_example :
  exists s' d',
    reachable ex_init /\
    m_nsp (par ex_init) <= 2 /\ 2 * m_nsp (par ex_init) <= length ex_buffer4 /\
    getBinaryDiffCoeffs 2 ex_buffer4 ex_init = (s', d') /\
    0 < m_nsp (par ex_init) /\ 1 < m_nsp (par ex_init) /\
    d' !!! (2 * 1 + 0) = d' !!! (2 * 0 + 1).
Proof.
  eexists. eexists. split; [apply reach_init|].
  split; [vm_compute; lia|]. split; [vm_compute; lia|].
  split; [vm_compute; reflexivity|].
  split; [vm_compute; lia|]. split; [vm_compute; lia|].
  eapply (binary_diffusion_symmetric ex_init 2 ex_buffer4 _ _ 0 1).
  - apply reach_init.
  - vm_compute. lia.
  - vm_compute. lia.
  - vm_compute. reflexivity.
  - vm_compute. lia.
  - vm_compute. lia.
Defined.

Lemma diagonal_example :
  exists s2 d',
    reachable ex_init /\
    In U_thermal_T (triggers (Q_thermalConductivity (R:=float))) /\
    state_after (query Q_thermalConductivity ex_init) = Some ex_after_conductivity /\
    m_nsp (par ex_after_conductivity) <= 2 /\
    2 * m_nsp (par ex_after_conductivity) <= length ex_buffer4 /\
    getBinaryDiffCoeffs 2 ex_buffer4 ex_after_conductivity = (s2, d') /\
    s2 = ex_after_conductivity /\
    m_temp (tc ex_after_conductivity) = temperature (m_thermo ex_after_conductivity) /\
    (forall k, k < m_nsp (par ex_after_conductivity) ->
       value (m_bdiff (tc ex_after_conductivity)) k k
       = (lit 1.2 * GasConstant * m_temp (tc ex_after_conductivity)
          * m_visc (tc ex_after_conductivity) !!! k
          * value (m_astar (tc ex_after_conductivity)) k k
          / m_mw (par ex_after_conductivity) !!! k)%fp /\
       d' !!! (2 * k + k)
       = (lit 1 / pressure (m_thermo ex_after_conductivity)
          * (lit 1.2 * GasConstant * m_temp (tc ex_after_conductivity)
             * m_visc (tc ex_after_conductivity) !!! k
             * value (m_astar (tc ex_after_conductivity)) k k
             / m_mw (par ex_after_conductivity) !!! k))%fp) /\
    (forall i j, i < m_nsp (par ex_after_conductivity) ->
       j < m_nsp (par ex_after_conductivity) -> i <> j ->
       d' !!! (2 * j + i)
       = (lit 1 / pressure (m_thermo ex_after_conductivity)
          * bdiff_fit (par ex_after_conductivity) (tc ex_after_conductivity) i j)%fp).
Proof.
  eexists. eexists. split; [apply reach_init|].
  split; [simpl; auto|]. split; [vm_compute; reflexivity|].
  split; [vm_compute; lia|]. split; [vm_compute; lia|].
  split; [vm_compute; reflexivity|].
  eapply (diagonal_is_self_diffusion_estimate Q_thermalConductivity ex_init
            ex_after_conductivity 2 ex_buffer4).
  - apply reach_init.
  - simpl. auto.
  - vm_compute. reflexivity.
  - vm_compute. lia.
  - vm_compute. lia.
  - vm_compute. reflexivity.
Defined.

(** One direction, temperature gradient 1: the thermal term is the
    coefficient times grad_T / T. *)
Lemma soret_correction_example :
  exists s' fl,
    getSpeciesFluxes 1 [1%float] 2 ex_grad_X 2 ex_buffer2 ex_after_viscosity = Ok (s', fl) /\
    reachable ex_after_viscosity /\
    m_nsp (par ex_after_viscosity) <= 2 /\ 2 * 1 <= length fl /\
    if any_nonzero 1 [1%float] then
      exists s2 dt base,
        getThermalDiffCoeffs (m_spwork (wk ex_after_viscosity))
          (updateDiff_T ex_after_viscosity) = Ok (s2, dt) /\
        solve_fluxes false 1 [1%float] 2 ex_grad_X 2 ex_buffer2
          (set_wk s2 (set_spwork (wk s2) dt)) = Ok (s', base) /\
        m_temp (tc s') = temperature (m_thermo ex_after_viscosity) /\
        forall d k, d < 1 -> k < m_nsp (par ex_after_viscosity) ->
          fl !!! (k + d * 2)
          = (base !!! (k + d * 2)%nat
             - dt !!! k * ([1%float] !!! d / m_temp (tc s')))%fp
    else
      solve_fluxes false 1 [1%float] 2 ex_grad_X 2 ex_buffer2
        (updateDiff_T ex_after_viscosity) = Ok (s', fl) /\
      m_spwork (wk s') = m_spwork (wk ex_after_viscosity) /\
      calls s' = calls ex_after_viscosity ++ [EvFactor; EvBackSolve].
Proof.
  eexists. eexists. split; [vm_compute; reflexivity|].
  split; [apply ex_after_viscosity_reachable|].
  split; [vm_compute; lia|]. split; [vm_compute; lia|].
  apply (soret_correction 1 [1%float] 2 ex_grad_X 2 ex_buffer2 ex_after_viscosity).
  - apply ex_after_viscosity_reachable.
  - vm_compute. lia.
  - vm_compute. lia.
  - vm_compute. reflexivity.
Defined.

(** C3, refuted as stated.  With the temperature gradient 1 in the one
    direction, the flux of species 0 is the flux without the thermal
    term (-0.75) less dt_0 * grad_T / T with dt_0 the thermal-diffusion
    coefficient; the claim's M_0 * x_0 * dt_0 * grad_T / T, with M_0 x_0
    = 4 * 0.5, would give another value. *)
Lemma soret_term_is_not_weighted :
  exists s' fl s2 dt base,
    getSpeciesFluxes 1 [1%float] 2 ex_grad_X 2 ex_buffer2 ex_after_viscosity = Ok (s', fl) /\
    getThermalDiffCoeffs (m_spwork (wk ex_after_viscosity))
      (updateDiff_T ex_after_viscosity) = Ok (s2, dt) /\
    solve_fluxes false 1 [1%float] 2 ex_grad_X 2 ex_buffer2
      (set_wk s2 (set_spwork (wk s2) dt)) = Ok (s', base) /\
    base !!! 0 = (-0.75)%float /\
    dt !!! 0 = 0.00019243554745685212%float /\
    fl !!! 0 = (-0.75019243554745685)%float /\
    fl !!! 0 = (base !!! 0%nat - dt !!! 0%nat * (1 / m_temp (tc s')))%float /\
    weighted_soret_flux (m_mw (par s')) (m_molefracs s') dt [1%float] (m_temp (tc s')) 2
      base 0 0 = (-0.75038487109491371)%float /\
    PrimFloat.eqb (fl !!! 0)
      (weighted_soret_flux (m_mw (par s')) (m_molefracs s') dt [1%float] (m_temp (tc s')) 2
         base 0 0) = false.
Proof.
  do 5 eexists.
  split; [vm_compute; reflexivity|]. split; [vm_compute; reflexivity|].
  split; [vm_compute; reflexivity|]. repeat split; vm_compute; reflexivity.
Qed.


(** C6: the second of two consecutive calls.  After the first call
    [m_lmatrix_soln_ok] is true; the second call returns the same value
    and assembles and solves the L-matrix equation once more. *)
Theorem second_call_solves_again :
  exists s1 v1 s2 v2,
    thermalConductivity ex_init = Ok (s1, v1) /\
    m_lmatrix_soln_ok (fl s1) = true /\
    thermalConductivity s1 = Ok (s2, v2) /\
    v2 = v1 /\
    calls s1 = [EvAssembleL; EvSolveLU] /\
    calls s2 = [EvAssembleL; EvSolveLU; EvAssembleL; EvSolveLU].
Proof.
  do 4 eexists. split; [vm_compute; reflexivity|].
  split; [vm_compute; reflexivity|]. split; [vm_compute; reflexivity|].
  repeat split; vm_compute; reflexivity.
Qed.

(** C9: a block 00,00 that cannot be inverted.  [getMultiDiffCoeffs]
    ends the process with [exit(1)]; no [CanteraError] reaches the
    caller. *)
Theorem singular_block_exits :
  @getMultiDiffCoeffs float float_scalar singular_block_collab 2 ex_buffer4
    (@init float float_scalar singular_block_collab ex_tr) = Exit 1.
Proof. vm_compute. reflexivity. Qed.

(** The rationals are exact scalars. *)
Lemma Qc_exact_ring :
  ring_theory (lit 0 : Qc) (lit 1) sadd smul ssub Qcopp (@eq Qc).
Proof.
  assert (H0 : (lit 0 : Qc) = 0%Qc) by (apply Qc_is_canon; reflexivity).
  assert (H1 : (lit 1 : Qc) = 1%Qc) by (apply Qc_is_canon; reflexivity).
  rewrite H0, H1. exact Qcrt.
Qed.



(* ================================================================== *)
(** * Loops over the upper triangle *)
(* ================================================================== *)

Section PairLoops.
Context {R : Type} {SC : Scalar R} {CO : Collab R}.
Implicit Types (M : DenseMatrix R).

Lemma pair_body_square n lf (f g : nat -> nat -> R) i j M :
  square n M -> square n (pair_body lf f g i j M).
Proof. intros H. unfold pair_body. destruct lf; repeat apply square_mat_set; exact H. Qed.

Lemma pair_body_value n lf (f g : nat -> nat -> R) M i j i' j' :
  square n M -> i < n -> j < n -> i' < n -> j' < n -> i <= j ->
  value (pair_body lf f g i j M) i' j'
  = if decide ((i' = i /\ j' = j) \/ (i' = j /\ j' = i))
    then pair_entry lf f g i' j' else value M i' j'.
Proof.
  intros Hsq Hi Hj Hi' Hj' Hij. unfold pair_body, pair_entry.
  destruct lf;
    (rewrite (square_value_set n) by (try apply square_mat_set; assumption));
    (rewrite (square_value_set n) by assumption);
    repeat case_decide;
    repeat match goal with |- context [(?a <? ?b)%nat] => destruct (Nat.ltb_spec a b) end;
    try reflexivity; try (exfalso; intuition lia);
    try (f_equal; intuition lia).
Qed.

(** Loops over the upper triangle whose accumulator [a] holds a matrix
    [proj a] on which every step acts as a pair step; [Q] is whatever else
    the steps keep. *)
Section Projected.
Context {A : Type} (proj : A -> DenseMatrix R) (Q : A -> Prop) (b : nat -> nat -> A -> A).
Context (n : nat) (lf : bool) (f g : nat -> nat -> R).
Hypothesis step :
  forall i j a, Q a -> square n (proj a) -> i <= j -> j < n ->
    Q (b i j a) /\ proj (b i j a) = pair_body lf f g i j (proj a).

Lemma pair_row_spec a i :
  Q a -> square n (proj a) -> i < n ->
  let a' := for_range i n (b i) a in
  Q a' /\ square n (proj a') /\
  forall i' j', i' < n -> j' < n ->
    value (proj a') i' j'
    = if decide (Nat.min i' j' = i) then pair_entry lf f g i' j' else value (proj a) i' j'.
Proof using step.
  intros HQ Hsq Hi a'. subst a'.
  pose (P := fun (k : nat) (ak : A) =>
    Q ak /\ square n (proj ak) /\
    forall i' j', i' < n -> j' < n ->
      value (proj ak) i' j'
      = if decide (Nat.min i' j' = i /\ Nat.max i' j' < k)
        then pair_entry lf f g i' j' else value (proj a) i' j').
  assert (HP : P n (for_range i n (b i) a)).
  { apply (for_range_ind P); [lia | |].
    - split; [exact HQ|]. split; [exact Hsq|].
      intros i' j' _ _. case_decide; [lia|reflexivity].
    - intros k ak Hk (HQk & Hsqk & Hval).
      destruct (step i k ak HQk Hsqk) as [HQ' Hb]; [lia..|].
      split; [exact HQ'|]. rewrite Hb.
      split; [apply pair_body_square; exact Hsqk|].
      intros i' j' Hi' Hj'.
      rewrite (pair_body_value n) by (assumption || lia).
      rewrite Hval by assumption.
      repeat case_decide; try reflexivity; exfalso; lia. }
  destruct HP as (H0 & H1 & H2). split; [exact H0|]. split; [exact H1|].
  intros i' j' Hi' Hj'. rewrite H2 by assumption.
  repeat case_decide; try reflexivity; exfalso; lia.
Qed.

Lemma pair_loop_spec a :
  Q a -> square n (proj a) ->
  let a' := for_upper n b a in
  Q a' /\ square n (proj a') /\
  forall i j, i < n -> j < n -> value (proj a') i j = pair_entry lf f g i j.
Proof using step.
  intros HQ Hsq a'. subst a'. unfold for_upper.
  pose (P := fun (k : nat) (ak : A) =>
    Q ak /\ square n (proj ak) /\
    forall i j, i < n -> j < n -> Nat.min i j < k ->
      value (proj ak) i j = pair_entry lf f g i j).
  assert (HP : P n (for_range 0 n (fun i => for_range i n (fun j => b i j)) a)).
  { apply (for_range_ind P); [lia | |].
    - split; [exact HQ|]. split; [exact Hsq|]. intros; lia.
    - intros k ak Hk (HQk & Hsqk & Hval).
      destruct (pair_row_spec ak k HQk Hsqk) as (H0 & H1 & H3); [lia|].
      split; [exact H0|]. split; [exact H1|].
      intros i j Hi Hj Hmin. rewrite H3 by assumption.
      case_decide; [reflexivity|]. apply Hval; try assumption. lia. }
  destruct HP as (H0 & H1 & H3). split; [exact H0|]. split; [exact H1|].
  intros i j Hi Hj. apply H3; try assumption. lia.
Qed.

End Projected.

(** The step of [_update_visc_T] is a pair step, lower entry first. *)
Lemma phi_body_pair n (visc mw : list R) j k M :
  square n M -> j < n -> k < n ->
  phi_body visc mw j k M
  = pair_body true (fun j k => wilke_lower visc mw k j) (fun j k => wilke_upper visc mw k j)
      j k M.
Proof.
  intros Hsq Hj Hk. unfold phi_body, pair_body. cbv zeta.
  rewrite (square_value_set n) by assumption.
  destruct (decide (k = k /\ j = j)) as [_|Hn]; [|exfalso; apply Hn; split; reflexivity].
  reflexivity.
Qed.

Lemma phi_loop_spec n (visc mw : list R) M :
  square n M ->
  let M' := for_upper n (phi_body visc mw) M in
  square n M' /\
  forall r c, r < n -> c < n -> value M' r c = wilke_phi visc mw r c.
Proof.
  intros Hsq M'. subst M'.
  destruct (pair_loop_spec (fun M => M) (fun _ => True) (phi_body visc mw) n true
              (fun j k => wilke_lower visc mw k j) (fun j k => wilke_upper visc mw k j))
    with (a := M) as (_ & H1 & H2); try exact I; try exact Hsq.
  - intros i j a _ Ha Hij Hj. split; [exact I|]. apply (phi_body_pair n); (assumption || lia).
  - split; [exact H1|]. intros r c Hr Hc. rewrite H2 by assumption.
    unfold pair_entry, wilke_phi. case_decide.
    + subst. rewrite Nat.ltb_irrefl. reflexivity.
    + reflexivity.
Qed.

Lemma star_body_pairs n (p : Params R) (logt : R) i j q :
  squares4 n q -> i < n -> j < n ->
  star_body p logt i j q
  = (pair_body false (star_entry p logt (m_om22_poly p)) (star_entry p logt (m_om22_poly p))
       i j (fst (fst (fst q))),
     pair_body false (star_entry p logt (m_astar_poly p)) (star_entry p logt (m_astar_poly p))
       i j (snd (fst (fst q))),
     pair_body false (star_entry p logt (m_bstar_poly p)) (star_entry p logt (m_bstar_poly p))
       i j (snd (fst q)),
     pair_body false (star_entry p logt (m_cstar_poly p)) (star_entry p logt (m_cstar_poly p))
       i j (snd q)).
Proof.
  destruct q as [[[om as_] bs] cs]. intros (H1 & H2 & H3 & H4) Hi Hj. simpl in *.
  unfold star_body, pair_body, star_entry. cbv zeta.
  rewrite !(square_value_set n) by assumption.
  destruct (decide (i = i /\ j = j)) as [_|Hn]; [|exfalso; apply Hn; split; reflexivity].
  destruct (m_mode p =? CK_Mode)%Z; reflexivity.
Qed.

Lemma star_entry_fit (p : Params R) (c : TCache R) coeffs r k :
  pair_entry false (star_entry p (m_logt c) coeffs) (star_entry p (m_logt c) coeffs) r k
  = star_fit p c coeffs r k.
Proof.
  unfold pair_entry, star_fit, star_entry. case_decide.
  - subst. rewrite Nat.min_id, Nat.max_id. reflexivity.
  - destruct (Nat.ltb_spec r k).
    + rewrite Nat.min_l, Nat.max_r by lia. reflexivity.
    + rewrite Nat.min_r, Nat.max_l by lia. reflexivity.
Qed.

Lemma star_loop_spec n (p : Params R) (c : TCache R) q :
  squares4 n q ->
  let q' := for_upper n (star_body p (m_logt c)) q in
  squares4 n q' /\
  forall i j, i < n -> j < n ->
    value (fst (fst (fst q'))) i j = star_fit p c (m_om22_poly p) i j /\
    value (snd (fst (fst q'))) i j = star_fit p c (m_astar_poly p) i j /\
    value (snd (fst q')) i j = star_fit p c (m_bstar_poly p) i j /\
    value (snd q') i j = star_fit p c (m_cstar_poly p) i j.
Proof.
  intros Hq q'. subst q'.
  pose proof (fun proj coeffs Hstep =>
    pair_loop_spec proj (squares4 n) (star_body p (m_logt c)) n false
      (star_entry p (m_logt c) coeffs) (star_entry p (m_logt c) coeffs) Hstep q Hq) as L.
  assert (Hstep : forall i j a, squares4 n a -> i <= j -> j < n ->
            squares4 n (star_body p (m_logt c) i j a)).
  { intros i j a Ha Hij Hj. rewrite (star_body_pairs n) by (assumption || lia).
    destruct Ha as (H1 & H2 & H3 & H4). unfold squares4. cbn [fst snd].
    split; [|split; [|split]]; apply pair_body_square; assumption. }
  destruct (L (fun q => fst (fst (fst q))) (m_om22_poly p)) as (HQ & _ & Ho).
  { intros i j a Ha _ Hij Hj. split; [apply Hstep; assumption|].
    rewrite (star_body_pairs n) by (assumption || lia). reflexivity. }
  { apply Hq. }
  destruct (L (fun q => snd (fst (fst q))) (m_astar_poly p)) as (_ & _ & Ha).
  { intros i j a Ha _ Hij Hj. split; [apply Hstep; assumption|].
    rewrite (star_body_pairs n) by (assumption || lia). reflexivity. }
  { apply Hq. }
  destruct (L (fun q => snd (fst q)) (m_bstar_poly p)) as (_ & _ & Hb).
  { intros i j a Ha' _ Hij Hj. split; [apply Hstep; assumption|].
    rewrite (star_body_pairs n) by (assumption || lia). reflexivity. }
  { apply Hq. }
  destruct (L (fun q => snd q) (m_cstar_poly p)) as (_ & _ & Hc).
  { intros i j a Ha' _ Hij Hj. split; [apply Hstep; assumption|].
    rewrite (star_body_pairs n) by (assumption || lia). reflexivity. }
  { apply Hq. }
  split; [exact HQ|].
  intros i j Hi Hj. rewrite Ho, Ha, Hb, Hc by assumption.
  rewrite !star_entry_fit. auto.
Qed.

End PairLoops.

(* ================================================================== *)
(** * The temperature tier in every reachable state *)
(* ================================================================== *)

Section Tiers.
Context {R : Type} {SC : Scalar R} {CO : Collab R}.
Implicit Types (s : MultiTransport R) (u : Updaters) (id : UpdaterId).

Local Abbreviation flags s := (updaters (m_thermo s)).

Lemma update_preserves (P : MultiTransport R -> Prop) id run s :
  P s ->
  (is_ok (flags s) id = false ->
   P (set_thermo (run s) (set_updaters (m_thermo (run s)) (mark_ok id (flags (run s)))))) ->
  P (update id run s).
Proof.
  intros H Hrun. unfold update. destruct (is_ok (flags s) id); [exact H|].
  apply Hrun. reflexivity.
Qed.

Lemma tiered_transfer s s' :
  par s' = par s -> tc s' = tc s -> same_phase (m_thermo s) (m_thermo s') ->
  (forall id, is_T id = true -> is_ok (flags s') id = is_ok (flags s) id) ->
  tiered s -> tiered s'.
Proof.
  intros Hp Hc Hth Htag [].
  pose proof (Htag U_transport_T eq_refl) as HT.
  pose proof (Htag U_spvisc_T eq_refl) as HS.
  pose proof (Htag U_visc_T eq_refl) as HV.
  pose proof (Htag U_thermal_T eq_refl) as HH.
  simpl in HT, HS, HV, HH.
  split; rewrite ?Hp, ?Hc, ?HT, ?HS, ?HV, ?HH; try assumption.
  - intros id Hid. rewrite (Htag id Hid). apply ti_on_T0. exact Hid.
  - rewrite Hth. simpl. assumption.
  - rewrite Hth. simpl. assumption.
Qed.

Lemma log_powers_written (l : R) (v : list R) :
  length v = 5 ->
  <[4 := (l * l * l * l)%fp]> (<[3 := (l * l * l)%fp]> (<[2 := (l * l)%fp]>
    (<[1 := l]> (<[0 := lit 1]> v)))) = log_powers l.
Proof.
  intros H. destruct v as [|a [|b [|c [|d [|e [|]]]]]]; simpl in H; try discriminate.
  reflexivity.
Qed.

Lemma updateTransport_T_tiered s : tiered s -> tiered (updateTransport_T s).
Proof.
  intros HI. apply (update_preserves tiered); [exact HI|]. intros Hst. simpl in Hst.
  destruct HI.
  assert (Hno : forall id, is_T id = true -> is_ok (flags s) id = true -> False).
  { intros id H1 H2. rewrite (ti_on_T0 id H1 H2) in Hst. discriminate. }
  split; simpl; try assumption;
    try (intros H; exfalso;
         first [apply (Hno U_spvisc_T eq_refl H) | apply (Hno U_visc_T eq_refl H)
               | apply (Hno U_thermal_T eq_refl H)]).
  - rewrite !length_insert. assumption.
  - reflexivity.
  - intros _. split; simpl; try reflexivity. apply log_powers_written. assumption.
Qed.


Ltac keep_scalars :=
  let Hs := fresh in
  intros Hs;
  match goal with H : _ -> at_temperature _ _ |- _ => destruct (H Hs) end;
  split; simpl; assumption.

Lemma updateTransport_C_tiered s : tiered s -> tiered (updateTransport_C s).
Proof.
  apply tiered_transfer.
  - apply updateTransport_C_par.
  - apply updateTransport_C_tc.
  - apply updateTransport_C_phase.
  - intros id Hid. apply updateTransport_C_tags. exact Hid.
Qed.

Lemma updateDiff_T_tiered s : tiered s -> tiered (updateDiff_T s).
Proof.
  intros HI. apply (update_preserves tiered); [exact HI|]. intros _.
  pose proof (updateTransport_T_tiered s HI) as HI1.
  pose proof (updateTransport_T_ok s) as Hok1.
  unfold _update_diff_T.
  remember (updateTransport_T s) as s1 eqn:Es1. clear Es1 HI s.
  destruct HI1.
  split; simpl; try assumption; try keep_scalars.
  intros _ _ _. exact Hok1.
Qed.

Lemma updateSpeciesViscosities_T_tiered s : tiered s -> tiered (updateSpeciesViscosities_T s).
Proof.
  intros HI. apply (update_preserves tiered); [exact HI|]. intros Hst. simpl in Hst.
  pose proof (updateTransport_T_tiered s HI) as HI1.
  pose proof (updateTransport_T_ok s) as Hok1.
  pose proof (updateTransport_T_tags s U_spvisc_T ltac:(discriminate)) as Hsp1.
  simpl in Hsp1. rewrite Hst in Hsp1.
  unfold _update_species_visc_T.
  remember (updateTransport_T s) as s1 eqn:Es1. clear Es1 HI Hst s.
  destruct HI1.
  assert (Hv : ok_visc_T (flags s1) = false).
  { destruct (ok_visc_T (flags s1)) eqn:E; [|reflexivity].
    rewrite ti_visc_on0 in Hsp1 by reflexivity. discriminate. }
  assert (Hh : ok_thermal_T (flags s1) = false).
  { destruct (ok_thermal_T (flags s1)) eqn:E; [|reflexivity].
    rewrite ti_thermal_on0 in Hsp1 by reflexivity. discriminate. }
  split; simpl; try assumption; try keep_scalars; try (rewrite ?Hv, ?Hh; discriminate).
  - rewrite for_range_insert_length. assumption.
  - intros _ _ _. exact Hok1.
  - intros _ k Hk. rewrite for_range_fill by lia.
    destruct (decide (0 <= k < m_nsp (par s1))); [|lia].
    unfold visc_fit. simpl. destruct (m_mode (par s1) =? CK_Mode)%Z; reflexivity.
Qed.

Lemma updateViscosity_T_tiered s : tiered s -> tiered (updateViscosity_T s).
Proof.
  intros HI. apply (update_preserves tiered); [exact HI|]. intros _.
  pose proof (updateSpeciesViscosities_T_tiered s HI) as HI1.
  pose proof (updateSpeciesViscosities_T_ok s) as Hsp1.
  unfold _update_visc_T.
  remember (updateSpeciesViscosities_T s) as s1 eqn:Es1. clear Es1 HI s.
  destruct HI1.
  destruct (phi_loop_spec (m_nsp (par s1)) (m_visc (tc s1)) (m_mw (par s1)) (m_phi (tc s1)))
    as [Hsq Hphi]; [assumption|].
  split; simpl; try assumption; try keep_scalars.
  - intros id Hid _. apply (ti_on_T0 U_spvisc_T eq_refl Hsp1).
  - intros _. exact Hsp1.
  - intros _ r c Hr Hc. apply Hphi; assumption.
Qed.

Lemma updateThermal_T_tiered s : tiered s -> tiered (updateThermal_T s).
Proof.
  intros HI. apply (update_preserves tiered); [exact HI|]. intros _.
  pose proof (updateSpeciesViscosities_T_tiered s HI) as HI1.
  pose proof (updateSpeciesViscosities_T_ok s) as Hsp1.
  unfold _update_thermal_T.
  remember (updateSpeciesViscosities_T s) as s1 eqn:Es1. clear Es1 HI s.
  pose proof (updateDiff_T_tiered s1 HI1) as HI2.
  pose proof (tf_grow _ _ (updateDiff_T_frame s1) U_spvisc_T Hsp1) as Hsp2.
  simpl in Hsp2.
  remember (updateDiff_T s1) as s2 eqn:Es2. clear Es2 HI1 Hsp1 s1.
  destruct HI2.
  destruct (star_loop_spec (m_nsp (par s2)) (par s2) (tc s2)
              (m_om22 (tc s2), m_astar (tc s2), m_bstar (tc s2), m_cstar (tc s2)))
    as [(Q1 & Q2 & Q3 & Q4) Hst]; [unfold squares4; simpl; auto|].
  simpl in Q1, Q2, Q3, Q4.
  split; simpl; try assumption; try keep_scalars.
  - rewrite for_range_insert_length. assumption.
  - rewrite for_range_insert_length. assumption.
  - intros id Hid _. apply (ti_on_T0 U_spvisc_T eq_refl Hsp2).
  - intros _. exact Hsp2.
  - intros _ i j Hi Hj. apply Hst; assumption.
  - intros _ k Hk. rewrite !for_range_fill by lia.
    destruct (decide (0 <= k < m_nsp (par s2))); [|lia]. split; reflexivity.
Qed.

Lemma tiered_init (tr : TransportParams R) : tiered (init tr).
Proof.
  split; simpl; try discriminate;
    rewrite ?vec_resize_length; try reflexivity;
    try (split; simpl; rewrite ?vec_resize_length; reflexivity).
  intros id _. destruct id; discriminate.
Qed.

Lemma tiered_core s s' : same_core s s' -> tiered s -> tiered s'.
Proof.
  intros [Hp Hc _ Hth _ _]. apply tiered_transfer; try assumption.
  - rewrite Hth. apply same_phase_refl.
  - intros id _. rewrite Hth. reflexivity.
Qed.

Lemma tiered_solved s s' : tiered s -> solved s s' -> tiered s'.
Proof.
  intros HI Hs. destruct (solved_frame s s' Hs) as (Hp & Hc & _ & Hth & _).
  apply (tiered_transfer (updateTransport_C (updateThermal_T s))); try assumption.
  - rewrite Hth. apply same_phase_refl.
  - intros id _. rewrite Hth. reflexivity.
  - apply updateTransport_C_tiered, updateThermal_T_tiered, HI.
Qed.

Lemma getSpeciesFluxes_tiered ndim grad_T ldx grad_X ldf fluxes s s' :
  tiered s ->
  state_after (object_of (getSpeciesFluxes ndim grad_T ldx grad_X ldf fluxes s)) = Some s' ->
  tiered s'.
Proof.
  intros HI. unfold getSpeciesFluxes. cbv zeta.
  pose proof (updateDiff_T_tiered s HI) as HI1.
  remember (updateDiff_T s) as s1 eqn:Es1. clear Es1 HI s.
  destruct (any_nonzero ndim grad_T).
  - destruct (getThermalDiffCoeffs (m_spwork (wk s1)) s1) as [[s2 dt]|e s2|c|] eqn:E.
    + assert (Hs : solved s1 s2)
        by (apply (getThermalDiffCoeffs_state (m_spwork (wk s1))); rewrite E; reflexivity).
      pose proof (tiered_solved _ _ HI1 Hs) as HI2.
      simpl. intros H. apply solve_fluxes_state in H. destruct H as [H _].
      eapply tiered_core; [exact H|].
      eapply tiered_transfer; [..|exact HI2]; try reflexivity.
      apply same_phase_refl.
    + simpl. intros H. inversion H; subst.
      apply (tiered_solved s1); [exact HI1|].
      apply (getThermalDiffCoeffs_state (m_spwork (wk s1))). rewrite E. reflexivity.
    + simpl. discriminate.
    + simpl. discriminate.
  - simpl. intros H. apply solve_fluxes_state in H. destruct H as [H _].
    eapply tiered_core; eassumption.
Qed.

Lemma query_tiered q s s' : tiered s -> state_after (query q s) = Some s' -> tiered s'.
Proof.
  intros HI H. apply query_cases in H.
  destruct q as [|ld d| |dt|ndim grad_T ldx grad_X ldf fluxes|ld d].
  - subst. apply updateTransport_C_tiered, updateViscosity_T_tiered, HI.
  - subst. apply updateDiff_T_tiered, HI.
  - eapply tiered_solved; eassumption.
  - eapply tiered_solved; eassumption.
  - eapply getSpeciesFluxes_tiered; eassumption.
  - eapply tiered_core; [exact H|]. apply updateDiff_T_tiered, updateTransport_C_tiered, HI.
Qed.

Lemma reachable_tiered s : reachable s -> tiered s.
Proof.
  induction 1.
  - apply tiered_init.
  - destruct IHreachable. split; simpl; assumption.
  - destruct IHreachable. split; simpl; try assumption; try discriminate.
    intros id Hid. destruct id; simpl; try discriminate.
  - destruct IHreachable. split; simpl; try assumption.
    intros id Hid Hok. apply (ti_on_T0 id Hid). destruct id; try discriminate; exact Hok.
  - destruct IHreachable. split; simpl; assumption.
  - eapply query_tiered; eassumption.
Qed.

End Tiers.

Section TierTheorems.
Context {R : Type} {SC : Scalar R} {CO : Collab R}.
Implicit Types (s : MultiTransport R) (u : Updaters) (id : UpdaterId).

Local Abbreviation flags s := (updaters (m_thermo s)).

Lemma getSpeciesFluxes_phase ndim grad_T ldx grad_X ldf fluxes s s' :
  state_after (object_of (getSpeciesFluxes ndim grad_T ldx grad_X ldf fluxes s)) = Some s' ->
  par s' = par s /\ same_phase (m_thermo s) (m_thermo s').
Proof.
  unfold getSpeciesFluxes. cbv zeta.
  pose proof (tf_phase _ _ (updateDiff_T_frame s)) as Hph.
  pose proof (tf_par _ _ (updateDiff_T_frame s)) as Hpar.
  remember (updateDiff_T s) as s1 eqn:Es1. clear Es1.
  destruct (any_nonzero ndim grad_T).
  - destruct (getThermalDiffCoeffs (m_spwork (wk s1)) s1) as [[s2 dt]|e s2|c|] eqn:E.
    + assert (Hs : solved s1 s2)
        by (apply (getThermalDiffCoeffs_state (m_spwork (wk s1))); rewrite E; reflexivity).
      simpl. intros H. apply solve_fluxes_state in H.
      destruct H as [[Hp' _ _ Hth' _ _] _].
      simpl in Hp', Hth'. rewrite Hp', Hth', (solved_par _ _ Hs), Hpar.
      split; [reflexivity|].
      eapply same_phase_trans; [exact Hph|]. apply solved_phase. exact Hs.
    + simpl. intros H. inversion H; subst.
      assert (Hs : solved s1 s')
        by (apply (getThermalDiffCoeffs_state (m_spwork (wk s1))); rewrite E; reflexivity).
      rewrite (solved_par _ _ Hs), Hpar. split; [reflexivity|].
      eapply same_phase_trans; [exact Hph|]. apply solved_phase. exact Hs.
    + simpl. discriminate.
    + simpl. discriminate.
  - simpl. intros H. apply solve_fluxes_state in H. destruct H as [[Hp' _ _ Hth' _ _] _].
    rewrite Hp', Hth', Hpar. split; [reflexivity|exact Hph].
Qed.

(** A query changes neither the fixed members nor, tags apart, the phase. *)
Lemma query_phase q s s' :
  state_after (query q s) = Some s' ->
  par s' = par s /\ same_phase (m_thermo s) (m_thermo s').
Proof.
  intros H. apply query_cases in H.
  destruct q as [|ld d| |dt|ndim grad_T ldx grad_X ldf fluxes|ld d].
  - subst. rewrite updateTransport_C_par.
    rewrite (tf_par _ _ (updateViscosity_T_frame s)). split; [reflexivity|].
    eapply same_phase_trans; [apply (tf_phase _ _ (updateViscosity_T_frame s))|].
    apply updateTransport_C_phase.
  - subst. split; [apply (tf_par _ _ (updateDiff_T_frame s))|].
    apply (tf_phase _ _ (updateDiff_T_frame s)).
  - split; [apply solved_par; exact H|apply solved_phase; exact H].
  - split; [apply solved_par; exact H|apply solved_phase; exact H].
  - eapply getSpeciesFluxes_phase; eassumption.
  - destruct H as [Hp _ _ Hth _ _]. rewrite Hp, Hth.
    rewrite (tf_par _ _ (updateDiff_T_frame _)), updateTransport_C_par.
    split; [reflexivity|].
    eapply same_phase_trans; [apply updateTransport_C_phase|].
    apply (tf_phase _ _ (updateDiff_T_frame _)).
Qed.

Lemma same_phase_temperature (th th' : ThermoPhase R) :
  same_phase th th' -> temperature th' = temperature th.
Proof. intros ->. reflexivity. Qed.

(** Every query asks for a temperature updater. *)
Lemma query_asks_T (q : Query (R:=R)) : exists id, is_T id = true /\ In id (triggers q).
Proof.
  destruct q as [|ld d| |dt|ndim grad_T ldx grad_X ldf fluxes|ld d]; simpl.
  - exists U_visc_T. auto.
  - exists U_diff_T. auto.
  - exists U_thermal_T. auto.
  - exists U_thermal_T. auto.
  - exists U_diff_T. destruct (any_nonzero ndim grad_T); simpl; auto.
  - exists U_diff_T. auto.
Qed.

(** X1. After any query, whatever was valid before, the scalar members
    of the temperature tier and the cached powers of log T are those of
    the temperature T the phase has: m_temp = T, m_logt = log T,
    m_kbt = k_B T, m_sqrt_t = sqrt T, m_t32 = T sqrt T,
    m_sqrt_kbt = sqrt (k_B T) and m_polytempvec holds 1, log T and its
    second, third and fourth powers.  The query does not change the
    temperature of the phase. *)
Theorem temperature_tier_follows_phase q s s' :
  reachable s ->
  state_after (query q s) = Some s' ->
  let T := temperature (m_thermo s) in
  temperature (m_thermo s') = T /\
  m_temp (tc s') = T /\
  m_logt (tc s') = log T /\
  m_kbt (tc s') = (Boltzmann * T)%fp /\
  m_sqrt_t (tc s') = sqrt T /\
  m_t32 (tc s') = (T * sqrt T)%fp /\
  m_sqrt_kbt (tc s') = sqrt (Boltzmann * T)%fp /\
  m_polytempvec (tc s')
  = [lit 1; log T; (log T * log T)%fp; (log T * log T * log T)%fp;
     (log T * log T * log T * log T)%fp].
Proof.
  intros Hr Hq T.
  assert (Hr' : reachable s') by (eapply reach_query; eassumption).
  pose proof (reachable_tiered s' Hr') as Ht.
  destruct (query_phase q s s' Hq) as [_ Hph].
  apply same_phase_temperature in Hph.
  destruct (query_asks_T q) as (id & Hid & Hin).
  pose proof (query_validates q s s' id Hq Hin) as Hok.
  pose proof (ti_on_T _ Ht id Hid Hok) as HT.
  destruct (ti_scalars _ Ht HT). rewrite Hph in *. subst T. auto 10.
Qed.

(** X2. In every state the object can reach, while the tag of the
    species-viscosity updater is valid the cached viscosity of every
    species k is the fit at the temperature T the phase has: in CK mode
    exp of the 4-term dot product of the powers of log T with the
    coefficients of species k, otherwise sqrt T times the 5-term dot
    product. *)
Theorem species_viscosities_follow_phase s k :
  reachable s ->
  ok_spvisc_T (flags s) = true ->
  k < m_nsp (par s) ->
  let T := temperature (m_thermo s) in
  let powers :=
    [lit 1; log T; (log T * log T)%fp; (log T * log T * log T)%fp;
     (log T * log T * log T * log T)%fp] in
  m_visc (tc s) !!! k
  = if Z.eqb (m_mode (par s)) CK_Mode
    then exp (dot4 powers (m_visccoeffs (par s) !!! k))
    else (sqrt T * dot5 powers (m_visccoeffs (par s) !!! k))%fp.
Proof.
  intros Hr Hok Hk T powers. pose proof (reachable_tiered s Hr) as Ht.
  rewrite (ti_visc _ Ht Hok k Hk). unfold visc_fit.
  destruct (ti_scalars _ Ht (ti_on_T _ Ht U_spvisc_T eq_refl Hok)) as [_ _ _ Hs _ _ Hp].
  rewrite Hs, Hp. reflexivity.
Qed.

(** What [viscosity()] returns and leaves. *)
Lemma viscosity_value s s' v :
  reachable s ->
  viscosity s = (s', v) ->
  let n := m_nsp (par s) in
  let x := clamped (m_thermo s) in
  let eta := m_visc (tc s') in
  reachable s' /\
  ok_visc_T (flags s') = true /\ ok_transport_C (flags s') = true /\
  par s' = par s /\ same_phase (m_thermo s) (m_thermo s') /\
  v = sum_over 0 n (fun k =>
        (x k * eta !!! k
         / sum_over 0 n (fun j => (wilke_phi eta (m_mw (par s)) k j * x j)%fp))%fp).
Proof.
  intros Hr Hv n x eta. unfold viscosity in Hv. cbv zeta in Hv. inversion Hv as [[Hs' Hval]].
  clear Hv Hval. rewrite Hs'.
  assert (Hq : state_after (query Q_viscosity s) = Some s').
  { simpl. rewrite <- Hs'. reflexivity. }
  assert (Hr' : reachable s') by (eapply reach_query; eassumption).
  pose proof (reachable_tiered s' Hr') as Ht.
  destruct (query_phase _ _ _ Hq) as [Hp Hph].
  pose proof (query_validates _ _ _ U_visc_T Hq ltac:(simpl; auto)) as Hok.
  pose proof (query_validates _ _ _ U_transport_C Hq ltac:(simpl; auto)) as Hc.
  simpl in Hok, Hc.
  split; [exact Hr'|]. split; [exact Hok|]. split; [exact Hc|]. split; [exact Hp|].
  split; [exact Hph|].
  assert (Hx : forall k, k < n -> m_molefracs s' !!! k = x k).
  { intros k Hk. rewrite <- Hs'. rewrite composition_refreshed.
    - apply clamped_same_phase, (tf_phase _ _ (updateViscosity_T_frame s)).
    - apply updateViscosity_T_Inv, reachable_Inv, Hr.
    - rewrite (tf_par _ _ (updateViscosity_T_frame s)). exact Hk. }
  rewrite Hp. fold n.
  rewrite <- (sum_over_shift 0 n). simpl.
  apply for_range_ext. intros k acc Hk. rewrite Nat.add_0_r. f_equal.
  rewrite Hx by lia. f_equal.
  rewrite <- (sum_over_shift 0 n). simpl.
  apply for_range_ext. intros j acc' Hj. rewrite Nat.add_0_r. f_equal.
  rewrite Hx by lia. f_equal.
  rewrite <- Hp at 1. apply (ti_phi _ Ht Hok); rewrite Hp; lia.
Qed.

(** The cached species viscosities, from the temperature of the phase. *)
Lemma species_viscosity_value s k :
  reachable s ->
  ok_spvisc_T (flags s) = true ->
  k < m_nsp (par s) ->
  m_visc (tc s) !!! k = species_viscosity (par s) (temperature (m_thermo s)) k.
Proof.
  intros Hr Hok Hk. pose proof (reachable_tiered s Hr) as Ht.
  rewrite (ti_visc _ Ht Hok k Hk). unfold visc_fit, species_viscosity.
  destruct (ti_scalars _ Ht (ti_on_T _ Ht U_spvisc_T eq_refl Hok)) as [_ _ _ Hs _ _ Hp].
  rewrite Hs, Hp. reflexivity.
Qed.

(** X3. [viscosity()] returns Wilke's mixture rule: the sum over the
    species k, from 0 upwards, of x_k eta_k / (sum over j of
    phi(k,j) x_j), where x is the floor-clamped mole fraction of the
    phase, eta_k the viscosity fit of species k at the temperature of
    the phase, and phi the weights [_update_visc_T] computes from eta
    and the molecular weights.  On return the viscosity and composition
    tags are valid. *)
Theorem viscosity_is_wilke_mixture s s' v :
  reachable s ->
  viscosity s = (s', v) ->
  let n := m_nsp (par s) in
  let x := clamped (m_thermo s) in
  let eta := m_visc (tc s') in
  ok_visc_T (flags s') = true /\ ok_transport_C (flags s') = true /\
  (forall k, k < n ->
     eta !!! k = species_viscosity (par s) (temperature (m_thermo s)) k) /\
  v = sum_over 0 n (fun k =>
        (x k * eta !!! k
         / sum_over 0 n (fun j => (wilke_phi eta (m_mw (par s)) k j * x j)%fp))%fp).
Proof.
  intros Hr Hv n x eta.
  destruct (viscosity_value s s' v Hr Hv) as (Hr' & Hok & Hc & Hp & Hph & Hval).
  split; [exact Hok|]. split; [exact Hc|]. split; [|exact Hval].
  intros k Hk. subst eta.
  rewrite <- Hp, <- (same_phase_temperature _ _ Hph).
  apply species_viscosity_value; try assumption.
  - apply (ti_visc_on _ (reachable_tiered s' Hr') Hok).
  - rewrite Hp. exact Hk.
Qed.

Lemma wilke_phi_ext (eta eta' mw : list R) n r c :
  (forall k, k < n -> eta' !!! k = eta !!! k) -> r < n -> c < n ->
  wilke_phi eta' mw r c = wilke_phi eta mw r c.
Proof.
  intros H Hr Hc. unfold wilke_phi, wilke_upper, wilke_lower.
  rewrite !(H r Hr), !(H c Hc). reflexivity.
Qed.

(** X19. The lazy updating of the viscosity is invisible: in two states
    the object can reach that agree on the fixed members and, tags
    apart, on the phase, [viscosity()] returns the same value, whatever
    was computed and cached on the way to either. *)
Theorem viscosity_depends_on_phase_only s t :
  reachable s -> reachable t ->
  par t = par s -> same_phase (m_thermo s) (m_thermo t) ->
  snd (viscosity t) = snd (viscosity s).
Proof.
  intros Hrs Hrt Hp Hph.
  destruct (viscosity s) as [s' v] eqn:Es. destruct (viscosity t) as [t' w] eqn:Et. simpl.
  destruct (viscosity_value s s' v Hrs Es) as (Hrs' & Hoks & _ & Hps & Hphs & ->).
  destruct (viscosity_value t t' w Hrt Et) as (Hrt' & Hokt & _ & Hpt & Hpht & ->).
  assert (Heta : forall k, k < m_nsp (par s) -> m_visc (tc t') !!! k = m_visc (tc s') !!! k).
  { intros k Hk.
    rewrite (species_viscosity_value t' k Hrt'), (species_viscosity_value s' k Hrs').
    - rewrite Hpt, Hps, Hp.
      rewrite (same_phase_temperature _ _ Hpht), (same_phase_temperature _ _ Hphs),
        (same_phase_temperature _ _ Hph). reflexivity.
    - apply (ti_visc_on _ (reachable_tiered s' Hrs') Hoks).
    - rewrite Hps. exact Hk.
    - apply (ti_visc_on _ (reachable_tiered t' Hrt') Hokt).
    - rewrite Hpt, Hp. exact Hk. }
  rewrite Hp. apply sum_over_ext. intros k Hk.
  rewrite (clamped_same_phase _ _ k Hph), Heta by lia. f_equal.
  apply sum_over_ext. intros j Hj.
  rewrite (clamped_same_phase _ _ j Hph).
  rewrite (wilke_phi_ext (m_visc (tc s')) (m_visc (tc t')) _ (m_nsp (par s))) by (auto || lia).
  reflexivity.
Qed.

(** X4. In every state the object can reach, while the tag of the
    thermal updater is valid the four collision-integral matrices are
    symmetric, and entry (i,j) of each is its polynomial fit for the
    unordered pair: the polynomial [m_poly[lo][hi]] selects, at
    log T - m_log_eps_k(lo,hi), lo and hi the smaller and the larger of
    i and j and T the temperature of the phase. *)
Theorem collision_integrals_symmetric s i j :
  reachable s ->
  ok_thermal_T (flags s) = true ->
  i < m_nsp (par s) -> j < m_nsp (par s) ->
  m_logt (tc s) = log (temperature (m_thermo s)) /\
  (value (m_om22 (tc s)) i j = star_fit (par s) (tc s) (m_om22_poly (par s)) i j /\
   value (m_astar (tc s)) i j = star_fit (par s) (tc s) (m_astar_poly (par s)) i j /\
   value (m_bstar (tc s)) i j = star_fit (par s) (tc s) (m_bstar_poly (par s)) i j /\
   value (m_cstar (tc s)) i j = star_fit (par s) (tc s) (m_cstar_poly (par s)) i j) /\
  (value (m_om22 (tc s)) i j = value (m_om22 (tc s)) j i /\
   value (m_astar (tc s)) i j = value (m_astar (tc s)) j i /\
   value (m_bstar (tc s)) i j = value (m_bstar (tc s)) j i /\
   value (m_cstar (tc s)) i j = value (m_cstar (tc s)) j i).
Proof.
  intros Hr Hok Hi Hj. pose proof (reachable_tiered s Hr) as Ht.
  destruct (ti_scalars _ Ht (ti_on_T _ Ht U_thermal_T eq_refl Hok)) as [_ Hl _ _ _ _ _].
  destruct (ti_stars _ Ht Hok i j Hi Hj) as (H1 & H2 & H3 & H4).
  destruct (ti_stars _ Ht Hok j i Hj Hi) as (G1 & G2 & G3 & G4).
  assert (Hsym : forall coeffs, star_fit (par s) (tc s) coeffs i j
                                = star_fit (par s) (tc s) coeffs j i).
  { intros coeffs. unfold star_fit. rewrite (Nat.min_comm i j), (Nat.max_comm i j).
    reflexivity. }
  split; [exact Hl|]. split; [auto|].
  rewrite H1, H2, H3, H4, G1, G2, G3, G4, !Hsym. auto.
Qed.

(** X5. In every state the object can reach, while the tag of the
    thermal updater is valid, for every species k the cached rotational
    relaxation number is max(1, zrot_k) * Frot_298,k / Frot(eps_k/(k_B T),
    sqrt(eps_k/k_B)/sqrt T) and the cached internal heat capacity is
    cp_k/R - 2.5, with T and cp/R those of the phase. *)
Theorem rotational_relaxation_and_internal_cp s k :
  reachable s ->
  ok_thermal_T (flags s) = true ->
  k < m_nsp (par s) ->
  let T := temperature (m_thermo s) in
  m_rotrelax (tc s) !!! k
  = (fmaxx (lit 1) (m_zrot (par s) !!! k) * m_frot_298 (par s) !!! k
     / Frot (m_eps (par s) !!! k / (Boltzmann * T))
            (m_sqrt_eps_k (par s) !!! k / sqrt T))%fp /\
  m_cinternal (tc s) !!! k = (cp_R (m_thermo s) !!! k - lit 2.5)%fp.
Proof.
  intros Hr Hok Hk T. pose proof (reachable_tiered s Hr) as Ht.
  destruct (ti_scalars _ Ht (ti_on_T _ Ht U_thermal_T eq_refl Hok)) as [_ _ Hkb Hsq _ _ _].
  destruct (ti_rot _ Ht Hok k Hk) as [H1 H2]. split; [|exact H2].
  rewrite H1. unfold rot_relax. rewrite Hkb, Hsq. reflexivity.
Qed.

End TierTheorems.

(* ================================================================== *)
(** * Multicomponent diffusion coefficients *)
(* ================================================================== *)

Section MultiDiffusion.
Context {R : Type} {SC : Scalar R} {CO : Collab R}.
Implicit Types (s : MultiTransport R) (u : Updaters) (id : UpdaterId).

Local Abbreviation flags s := (updaters (m_thermo s)).

(** What [getMultiDiffCoeffs] does when the inversion succeeds. *)
Lemma getMultiDiffCoeffs_ok ld d s s' d' :
  getMultiDiffCoeffs ld d s = Ok (s', d') ->
  let s2 := updateDiff_T (updateTransport_C s) in
  let L := if m_l0000_ok (fl s2) then m_Lmatrix (wk s2)
           else eval_L L0000 (par s2) (tc s2) (m_molefracs s2) (m_Lmatrix (wk s2)) in
  fst (invert L (m_nsp (par s2))) = 0%Z /\
  m_Lmatrix (wk s') = snd (invert L (m_nsp (par s2))) /\
  par s' = par s2 /\ tc s' = tc s2 /\ m_molefracs s' = m_molefracs s2 /\
  m_thermo s' = m_thermo s2 /\
  m_l0000_ok (fl s') = false /\
  calls s' = calls s2 ++ [EvInvert] /\
  d' = for_range 0 (m_nsp (par s2))
         (fun i => for_range 0 (m_nsp (par s2))
            (fun j d =>
               <[(ld * j + i)%nat :=
                   (lit 16 * m_temp (tc s2) * meanMolecularWeight (m_thermo s2)
                    / (lit 25 * pressure (m_thermo s)) / m_mw (par s2) !!! j
                    * m_molefracs s2 !!! i
                    * (value (m_Lmatrix (wk s')) i j - value (m_Lmatrix (wk s')) i i))%fp]> d))
         d.
Proof.
  unfold getMultiDiffCoeffs. cbv zeta.
  set (s2 := updateDiff_T (updateTransport_C s)).
  match goal with |- context [invert ?L ?n] => destruct (invert L n) as [ierr L'] eqn:E end.
  destruct (ierr =? 0)%Z eqn:Ez; simpl; [|discriminate].
  intros H. inversion H; subst. clear H. simpl.
  apply Z.eqb_eq in Ez. auto 12.
Qed.

(** X6. When the inversion succeeds, [getMultiDiffCoeffs] writes, for
    all species i and j, d[ld*j + i] = (16 T W / (25 p)) / M_j * x_i *
    (Linv(i,j) - Linv(i,i)), where T, p and the mean molecular weight W
    are those of the phase, x_i is the floor-clamped mole fraction of
    the phase, M the molecular weights and Linv the matrix [invert]
    left in [m_Lmatrix]; it clears [m_l0000_ok] and makes one call of
    [invert].  The array has leading dimension at least N and room for
    N columns. *)
Theorem multicomponent_diffusion_coefficients ld d s s' d' :
  reachable s ->
  m_nsp (par s) <= ld -> ld * m_nsp (par s) <= length d ->
  getMultiDiffCoeffs ld d s = Ok (s', d') ->
  let T := temperature (m_thermo s) in
  let W := meanMolecularWeight (m_thermo s) in
  let p := pressure (m_thermo s) in
  m_l0000_ok (fl s') = false /\
  calls s' = calls s ++ [EvInvert] /\
  forall i j, i < m_nsp (par s) -> j < m_nsp (par s) ->
    d' !!! (ld * j + i)
    = (lit 16 * T * W / (lit 25 * p) / m_mw (par s) !!! j * clamped (m_thermo s) i
       * (value (m_Lmatrix (wk s')) i j - value (m_Lmatrix (wk s')) i i))%fp.
Proof.
  intros Hr Hld Hlen H T W p.
  destruct (getMultiDiffCoeffs_ok _ _ _ _ _ H) as (_ & _ & _ & _ & _ & _ & Hfl & Hcalls & Hd).
  pose proof (reachable_Inv s Hr) as HI.
  pose proof (updateTransport_C_Inv s HI) as HI1.
  pose proof (updateDiff_T_Inv _ HI1) as HI2.
  pose proof (updateDiff_T_frame (updateTransport_C s)) as Hf.
  set (s1 := updateTransport_C s) in *. set (s2 := updateDiff_T s1) in *.
  assert (Hp : par s2 = par s) by (rewrite (tf_par _ _ Hf); apply updateTransport_C_par).
  assert (Hph : same_phase (m_thermo s) (m_thermo s2)).
  { eapply same_phase_trans; [apply updateTransport_C_phase|apply (tf_phase _ _ Hf)]. }
  assert (HT : m_temp (tc s2) = T).
  { destruct HI2 as [_ Hco]. rewrite (co_temperature _ Hco).
    - rewrite Hph. reflexivity.
    - apply (co_diff_T _ Hco). apply updateDiff_T_ok. }
  assert (HW : meanMolecularWeight (m_thermo s2) = W) by (rewrite Hph; reflexivity).
  split; [exact Hfl|]. split.
  - rewrite Hcalls, (tf_calls _ _ Hf). unfold s1. rewrite updateTransport_C_calls. reflexivity.
  - intros i j Hi Hj. rewrite Hd, Hp.
    rewrite (output_loops_lookup (m_nsp (par s)) (m_nsp (par s)) ld
               (fun i j => (lit 16 * m_temp (tc s2) * meanMolecularWeight (m_thermo s2)
                    / (lit 25 * pressure (m_thermo s)) / m_mw (par s) !!! j
                    * m_molefracs s2 !!! i
                    * (value (m_Lmatrix (wk s')) i j - value (m_Lmatrix (wk s')) i i))%fp))
      by assumption.
    rewrite HT, HW, (tf_molefracs _ _ Hf). unfold s1.
    rewrite composition_refreshed by assumption. reflexivity.
Qed.

(** X8. After a successful [thermalConductivity()] the flag
    [m_l0000_ok] says whether the solve left the assembled matrix
    intact: it is true after the iterative solve and false after the LU
    solve.  A [getMultiDiffCoeffs] call made next recomputes no tier and
    honours the flag: after the iterative solve it hands [invert] the
    matrix the solve left, after the LU solve it evaluates the 00,00
    block anew over the factors first.  Either way it ends with
    [m_l0000_ok] false. *)
Theorem multi_diffusion_honours_block_flag s s1 v ld d s2 d' :
  reachable s ->
  thermalConductivity s = Ok (s1, v) ->
  getMultiDiffCoeffs ld d s1 = Ok (s2, d') ->
  m_l0000_ok (fl s1) = m_gmres (par s) /\
  m_Lmatrix (wk s2)
  = snd (invert
           (if m_gmres (par s) then m_Lmatrix (wk s1)
            else eval_L L0000 (par s1) (tc s1) (m_molefracs s1) (m_Lmatrix (wk s1)))
           (m_nsp (par s))) /\
  tc s2 = tc s1 /\ m_molefracs s2 = m_molefracs s1 /\
  m_l0000_ok (fl s2) = false.
Proof.
  intros Hr H1 H2.
  assert (Hok : solveLMatrixEquation s = Ok s1).
  { unfold thermalConductivity in H1.
    destruct (solveLMatrixEquation s) as [s0|e s0|c|]; simpl in H1; inversion H1.
    reflexivity. }
  assert (Hs : solved s s1) by (left; exact Hok).
  assert (Hr1 : reachable s1).
  { apply (reach_query s Q_thermalConductivity); [exact Hr|]. simpl. rewrite H1. reflexivity. }
  destruct (reachable_Inv _ Hr1) as [_ Hco].
  destruct (solved_tags _ _ Hs) as (Ht & Hc & _).
  destruct (co_thermal_T _ Hco Ht) as [Hd _].
  assert (Hfix : updateDiff_T (updateTransport_C s1) = s1).
  { unfold updateTransport_C. rewrite update_valid by exact Hc.
    unfold updateDiff_T. apply update_valid. exact Hd. }
  destruct (getMultiDiffCoeffs_ok _ _ _ _ _ H2) as (_ & HL & _ & Htc & Hx & _ & Hfl & _).
  rewrite Hfix in HL, Htc, Hx. rewrite (solved_par _ _ Hs) in HL.
  assert (Hflag : m_l0000_ok (fl s1) = m_gmres (par s)).
  { clear - Hok. unfold solveLMatrixEquation in Hok. cbv zeta in Hok.
    pose proof (updateTransport_C_par (updateThermal_T s)) as Hp.
    rewrite (tf_par _ _ (updateThermal_T_frame s)) in Hp.
    set (s0 := updateTransport_C (updateThermal_T s)) in *.
    cbn [par set_wk log_call] in Hok. rewrite Hp in Hok.
    destruct (m_gmres (par s)).
    - inversion Hok. reflexivity.
    - match type of Hok with context [solve ?L ?a] => destruct (solve L a) as [[info L'] a'] end.
      destruct (negb (info =? 0)%Z); [discriminate|]. inversion Hok. reflexivity. }
  split; [exact Hflag|]. rewrite Hflag in HL.
  split; [rewrite (solved_par _ _ Hs); exact HL|]. auto.
Qed.

End MultiDiffusion.

(* ================================================================== *)
(** * How the solves end *)
(* ================================================================== *)

Section SolveOutcome.
Context {R : Type} {SC : Scalar R} {CO : Collab R}.
Implicit Types (s : MultiTransport R).

Local Abbreviation flags s := (updaters (m_thermo s)).

(** The loop that fills [grx] stays inside it exactly when ldx * ndim
    does not exceed the ldx * m_nsp entries it has. *)
Lemma fill_grx_overrun n ndim ldx (grad_X : list R) :
  fill_grx n ndim ldx grad_X = None <-> ldx * n < ldx * ndim.
Proof.
  unfold fill_grx.
  pose (P := fun (k : nat) (st : option (list R)) =>
    (k <= ldx * n -> exists v, st = Some v /\ length v = ldx * n) /\
    (ldx * n < k -> st = None)).
  assert (HP : P (ldx * ndim)
                 (for_range 0 (ldx * ndim) (fun k grx => store k (grad_X !!! k) grx)
                    (Some (vec_resize (ldx * n) (lit 0) [])))).
  { apply (for_range_ind P); [lia| |].
    - split; [|lia]. intros _. eexists. split; [reflexivity|apply vec_resize_length].
    - intros k st _ [Hin Hout]. split.
      + intros Hk. destruct Hin as (v & -> & Hv); [lia|]. simpl. rewrite Hv.
        destruct (Nat.ltb_spec k (ldx * n)); [|lia].
        eexists. split; [reflexivity|]. rewrite length_insert. exact Hv.
      + intros Hk. destruct (decide (k = ldx * n)) as [->|Hne].
        * destruct Hin as (v & -> & Hv); [lia|]. simpl. rewrite Hv.
          destruct (Nat.ltb_spec (ldx * n) (ldx * n)); [lia|reflexivity].
        * rewrite Hout by lia. reflexivity. }
  destruct HP as [Hin Hout]. split.
  - intros H. destruct (decide (ldx * n < ldx * ndim)) as [|Hge]; [assumption|].
    destruct Hin as (v & Hv & _); [lia|]. congruence.
  - exact Hout.
Qed.

(** The flux solver proper overruns [grx] or goes on to LAPACK. *)
Lemma solve_fluxes_overrun add ndim grad_T ldx grad_X ldf fluxes s :
  solve_fluxes add ndim grad_T ldx grad_X ldf fluxes s = Overrun <->
  fill_grx (m_nsp (par s)) ndim ldx grad_X = None.
Proof.
  unfold solve_fluxes. cbv zeta.
  destruct (fill_grx _ _ _ _) as [grx|]; [|split; reflexivity].
  match goal with |- context [ct_dgetrf ?a ?b ?c ?d] =>
    destruct (ct_dgetrf a b c d) as [[lu piv] info] end.
  destruct (negb (info =? 0)%Z); [split; discriminate|].
  match goal with |- context [ct_dgetrs ?a ?b ?c ?d ?e ?f ?g] =>
    destruct (ct_dgetrs a b c d e f g) as [fl' info'] end.
  match goal with |- context [Z.ltb 50 ?i] => destruct (Z.ltb 50 i) end; split; discriminate.
Qed.

Lemma flux_stage_par ndim grad_T s s1 :
  flux_stage ndim grad_T s = Some s1 -> par s1 = par s.
Proof.
  unfold flux_stage. cbv zeta.
  pose proof (tf_par _ _ (updateDiff_T_frame s)) as Hp.
  destruct (any_nonzero ndim grad_T).
  - destruct (getThermalDiffCoeffs _ _) as [[s2 dt]|e s2|c|] eqn:E; try discriminate.
    intros H. inversion H; subst. simpl.
    assert (Hs : solved (updateDiff_T s) s2)
      by (apply (getThermalDiffCoeffs_state (m_spwork (wk (updateDiff_T s))));
          rewrite E; reflexivity).
    rewrite (solved_par _ _ Hs). exact Hp.
  - intros H. inversion H; subst. exact Hp.
Qed.

(** X10. [getSpeciesFluxes] writes past the end of its local vector
    [grx] exactly when the number of directions exceeds the number of
    species and ldx is positive, unless the L-matrix solve has ended
    the call before: [grx] is allocated with ldx * m_nsp entries and
    the loop that fills it runs over ldx * ndim.  In every other case
    the loop stays inside the vector. *)
Theorem species_flux_overrun ndim grad_T ldx grad_X ldf fluxes s :
  getSpeciesFluxes ndim grad_T ldx grad_X ldf fluxes s = Overrun <->
  m_nsp (par s) < ndim /\ 0 < ldx /\ exists s1, flux_stage ndim grad_T s = Some s1.
Proof.
  split.
  - intros H. destruct (flux_stage ndim grad_T s) as [s1|] eqn:Est.
    + rewrite (getSpeciesFluxes_stage _ _ _ _ _ _ _ _ Est) in H.
      apply solve_fluxes_overrun, fill_grx_overrun in H.
      rewrite (flux_stage_par _ _ _ _ Est) in H.
      split; [nia|]. split; [nia|]. eexists. reflexivity.
    + exfalso. revert H Est. unfold getSpeciesFluxes, flux_stage. cbv zeta.
      destruct (any_nonzero ndim grad_T); [|discriminate].
      unfold getThermalDiffCoeffs.
      pose proof (solveLMatrixEquation_no_exit (updateDiff_T s)) as Hne.
      assert (Hno : solveLMatrixEquation (updateDiff_T s) <> Overrun).
      { unfold solveLMatrixEquation.
        match goal with |- context [if ?g then _ else _] => destruct g end; [discriminate|].
        match goal with |- context [solve ?L ?a] =>
          destruct (solve L a) as [[info L'] a'] end.
        destruct (negb (info =? 0)%Z); discriminate. }
      destruct (solveLMatrixEquation (updateDiff_T s)) as [s2|e s2|c|]; simpl;
        try discriminate. contradiction.
  - intros (Hn & Hl & s1 & Est).
    rewrite (getSpeciesFluxes_stage _ _ _ _ _ _ _ _ Est).
    apply solve_fluxes_overrun, fill_grx_overrun.
    rewrite (flux_stage_par _ _ _ _ Est). nia.
Qed.

(** The one error [solveLMatrixEquation] throws. *)
Lemma solveLMatrixEquation_throws s e s' :
  solveLMatrixEquation s = Throw e s' -> e = solve_error.
Proof.
  unfold solveLMatrixEquation.
  match goal with |- context [if ?g then _ else _] => destruct g end; [discriminate|].
  match goal with |- context [solve ?L ?a] => destruct (solve L a) as [[info L'] a'] end.
  destruct (negb (info =? 0)%Z); [|discriminate].
  intros H. inversion H. reflexivity.
Qed.

(** The right-hand sides "copy grad_X to fluxes" leaves: in every
    direction the gradients of that direction, with a zero at the
    species whose equation is replaced. *)
Lemma flux_rhs_lookup n ndim ldx ldf jmax (grad_X fluxes : list R) d k :
  n <= ldf -> ldf * ndim <= length fluxes -> jmax < n -> d < ndim -> k < n ->
  flux_rhs n ndim ldx ldf jmax grad_X fluxes !!! (k + d * ldf)
  = if decide (k = jmax) then lit 0 else grad_X !!! (ldx * d + k).
Proof.
  intros Hld Hlen Hj Hd Hk. unfold flux_rhs.
  pose (P := fun (m : nat) (w : list R) =>
    length w = length fluxes /\
    forall e, e < m ->
      w !!! (k + e * ldf) = if decide (k = jmax) then lit 0 else grad_X !!! (ldx * e + k)).
  assert (HP : P ndim (for_range 0 ndim
    (fun d fluxes =>
       let fluxes := copy grad_X (ldx * d) n fluxes (ldf * d) in
       <[jmax + d * ldf := lit 0]> fluxes) fluxes)).
  { apply (for_range_ind P); [lia | split; [reflexivity | intros; lia] |].
    intros m w Hm [Hl Hw]. cbv zeta. split; [rewrite length_insert, copy_length; exact Hl|].
    intros e He. destruct (decide (e = m)) as [->|Hne].
    - destruct (decide (k = jmax)) as [->|Hkj].
      + apply list_lookup_total_insert_eq. rewrite copy_length. nia.
      + rewrite list_lookup_total_insert_ne by nia.
        rewrite copy_lookup by nia.
        destruct (decide (ldf * m <= k + m * ldf < ldf * m + n)); [|exfalso; nia].
        f_equal. nia.
    - rewrite list_lookup_total_insert_ne by nia.
      rewrite copy_lookup by nia.
      destruct (decide (ldf * m <= k + e * ldf < ldf * m + n)); [exfalso; nia|].
      apply Hw. lia. }
  destruct HP as [_ HP]. apply HP. exact Hd.
Qed.

(** X16. What [getSpeciesFluxes] leaves in the caller's [fluxes] when
    it throws.  At the throw of the L-matrix solve the array has not
    been written.  At "Error in DGETRF" it has already been
    overwritten: in every direction it holds the mole-fraction
    gradients of that direction, with a zero at the species whose
    equation was replaced; no flux has been computed and the array is
    not restored.  The flux array has leading dimension at least N and
    room for ndim directions. *)
Theorem failed_factorisation_leaves_gradients ndim grad_T ldx grad_X ldf fluxes s e s' fl :
  m_nsp (par s) <= ldf -> ldf * ndim <= length fluxes ->
  getSpeciesFluxes ndim grad_T ldx grad_X ldf fluxes s = Throw e (s', fl) ->
  (e = solve_error -> fl = fluxes) /\
  (e = dgetrf_error ->
   forall d k, d < ndim -> k < m_nsp (par s) ->
     fl !!! (k + d * ldf)
     = if decide (k = find_jmax (m_nsp (par s)) grad_X) then lit 0
       else grad_X !!! (ldx * d + k)).
Proof.
  intros Hld Hlen H.
  destruct (flux_stage ndim grad_T s) as [s1|] eqn:Est.
  - rewrite (getSpeciesFluxes_stage _ _ _ _ _ _ _ _ Est) in H.
    pose proof (flux_stage_par _ _ _ _ Est) as Hp.
    revert H. unfold solve_fluxes. cbv zeta. rewrite Hp.
    destruct (fill_grx _ _ _ _) as [grx|]; [|discriminate].
    match goal with |- context [ct_dgetrf ?a ?b ?c ?d] =>
      destruct (ct_dgetrf a b c d) as [[lu piv] info] end.
    destruct (negb (info =? 0)%Z).
    + intros H. inversion H; subst. split; [discriminate|].
      intros _ d k Hd Hk. unfold flux_system. cbn [snd].
      apply flux_rhs_lookup; try assumption.
      apply find_jmax_lt. lia.
    + match goal with |- context [ct_dgetrs ?a ?b ?c ?d ?e ?f ?g] =>
        destruct (ct_dgetrs a b c d e f g) as [fl' info'] end.
      match goal with |- context [Z.ltb 50 ?i] => destruct (Z.ltb 50 i) end;
        intros H; inversion H; subst. split; discriminate.
  - revert H Est. unfold getSpeciesFluxes, flux_stage. cbv zeta.
    destruct (any_nonzero ndim grad_T); [|discriminate].
    destruct (getThermalDiffCoeffs _ _) as [[s2 dt]|e2 s2|c|] eqn:E; simpl;
      try discriminate.
    intros H _. inversion H; subst. split; [reflexivity|].
    intros He. exfalso. revert E. unfold getThermalDiffCoeffs.
    destruct (solveLMatrixEquation (updateDiff_T s)) as [s2|e2 s2|c|] eqn:E2; simpl;
      try discriminate.
    intros E. inversion E; subst.
    apply solveLMatrixEquation_throws in E2. discriminate.
Qed.

(** X9. With every component of grad_T zero, [getSpeciesFluxes] does
    not ask for the composition update: the mole fractions it builds
    the flux system from are the ones an earlier query cached (all zero
    on a new object), even when the composition tag is stale, and the
    tag is left as it was.  With a nonzero component the composition
    tier is brought up to date first. *)
Theorem zero_gradient_uses_cached_composition ndim grad_T ldx grad_X ldf fluxes s s' :
  reachable s ->
  state_after (object_of (getSpeciesFluxes ndim grad_T ldx grad_X ldf fluxes s)) = Some s' ->
  if any_nonzero ndim grad_T then
    ok_transport_C (flags s') = true /\
    forall k, k < m_nsp (par s) -> m_molefracs s' !!! k = clamped (m_thermo s) k
  else
    m_molefracs s' = m_molefracs s /\
    ok_transport_C (flags s') = ok_transport_C (flags s) /\
    (forall fl, getSpeciesFluxes ndim grad_T ldx grad_X ldf fluxes s = Ok (s', fl) ->
       fl = flux_scale (m_nsp (par s)) ndim ldf (density (m_thermo s)) (pressure (m_thermo s))
              (massFractions (m_thermo s))
              (let sys := flux_system (m_nsp (par s)) ndim ldx ldf (m_molefracs s)
                            (massFractions (m_thermo s)) (m_bdiff (tc (updateDiff_T s)))
                            (m_aa (wk s)) grad_X fluxes in
               lapack_velocities (fst sys) ndim (snd sys) ldf)).
Proof.
  intros Hr H.
  pose proof (updateDiff_T_frame s) as Hf.
  destruct (any_nonzero ndim grad_T) eqn:Enz.
  - destruct (getSpeciesFluxes_tags _ _ _ _ _ _ _ _ H) as [_ Hnz].
    rewrite Enz in Hnz. destruct (Hnz eq_refl) as [_ Hc]. split; [exact Hc|].
    intros k Hk.
    unfold getSpeciesFluxes in H. cbv zeta in H. rewrite Enz in H.
    pose proof (updateDiff_T_Inv s (reachable_Inv s Hr)) as HI1.
    set (s1 := updateDiff_T s) in *.
    assert (Hx : forall s2, solved s1 s2 -> m_molefracs s2 !!! k = clamped (m_thermo s) k).
    { intros s2 Hs. rewrite (solved_molefracs s1 s2 k HI1 Hs).
      - apply clamped_same_phase, (tf_phase _ _ Hf).
      - rewrite (tf_par _ _ Hf). exact Hk. }
    destruct (getThermalDiffCoeffs (m_spwork (wk s1)) s1) as [[s2 dt]|e s2|c|] eqn:E.
    + assert (Hs : solved s1 s2)
        by (apply (getThermalDiffCoeffs_state (m_spwork (wk s1))); rewrite E; reflexivity).
      simpl in H. apply solve_fluxes_state in H. destruct H as [[_ _ Hm _ _ _] _].
      simpl in Hm. rewrite Hm. apply Hx. exact Hs.
    + simpl in H. inversion H; subst. apply Hx.
      apply (getThermalDiffCoeffs_state (m_spwork (wk s1))). rewrite E. reflexivity.
    + simpl in H. discriminate.
    + simpl in H. discriminate.
  - unfold getSpeciesFluxes in H |- *. cbv zeta in H |- *. rewrite Enz in H |- *.
    simpl in H |- *.
    pose proof H as H'. apply solve_fluxes_state in H'. destruct H' as [[_ _ Hm Hth _ _] _].
    rewrite Hm, Hth, (tf_molefracs _ _ Hf), (tf_C _ _ Hf).
    split; [reflexivity|]. split; [reflexivity|].
    intros fl Hfl. destruct (solve_fluxes_ok _ _ _ _ _ _ _ _ _ _ Hfl) as (-> & _).
    rewrite (tf_par _ _ Hf), (tf_wk _ _ Hf), (tf_molefracs _ _ Hf).
    pose proof (tf_phase _ _ Hf) as Hph. rewrite Hph. reflexivity.
Qed.

End SolveOutcome.

(* ================================================================== *)
(** * The Stefan-Maxwell matrix *)
(* ================================================================== *)

Section FluxMatrix.
Context {R : Type} {SC : Scalar R} {CO : Collab R}.
Implicit Types (M : DenseMatrix R).

Lemma sum_over_snoc lo hi (f : nat -> R) :
  lo <= hi -> sum_over lo (S hi) f = (sum_over lo hi f + f hi)%fp.
Proof.
  intros H. unfold sum_over.
  apply (for_range_snoc lo hi (fun k acc => (acc + f k)%fp) (lit 0) H).
Qed.

Lemma sum_over_empty lo hi (f : nat -> R) : hi <= lo -> sum_over lo hi f = lit 0.
Proof.
  intros H. unfold sum_over. replace (hi - lo) with 0 by lia. reflexivity.
Qed.

(** One row of the Stefan-Maxwell loop: the entries of row [i] are
    written, their sum is accumulated, and the sum is taken off the
    diagonal entry. *)
Lemma flux_matrix_row n (x : list R) (bdiff : DenseMatrix R) M i :
  square n M -> i < n ->
  let M' :=
    (let '(aa, sum) := for_range 0 n
       (fun j '(aa, sum) =>
          let aa := mat_set aa i j (x !!! j * x !!! i / value bdiff i j)%fp in
          (aa, (sum + value aa i j)%fp))
       (M, lit 0) in
     mat_set aa i i (value aa i i - sum)%fp) in
  square n M' /\
  forall i' j', i' < n -> j' < n ->
    value M' i' j'
    = if decide (i' = i)
      then (if decide (j' = i)
            then (maxwell_term x bdiff i i - sum_over 0 n (maxwell_term x bdiff i))%fp
            else maxwell_term x bdiff i j')
      else value M i' j'.
Proof.
  intros Hsq Hi M'. subst M'.
  pose (P := fun (k : nat) (q : DenseMatrix R * R) =>
    square n (fst q) /\ snd q = sum_over 0 k (maxwell_term x bdiff i) /\
    forall i' j', i' < n -> j' < n ->
      value (fst q) i' j'
      = if decide (i' = i /\ j' < k) then maxwell_term x bdiff i j' else value M i' j').
  match goal with |- context [for_range 0 n ?body (M, lit 0)] =>
    assert (HP : P n (for_range 0 n body (M, lit 0))) end.
  { apply (for_range_ind P); [lia | |].
    - split; [exact Hsq|]. split; [symmetry; apply sum_over_empty; lia|].
      intros i' j' _ _. case_decide; [lia|reflexivity].
    - intros k [a sm] Hk (Hsqk & Hsm & Hval). simpl in Hsqk, Hsm, Hval.
      split; [apply square_mat_set; exact Hsqk|]. simpl. split.
      + rewrite sum_over_snoc by lia. rewrite Hsm.
        rewrite (square_value_set n) by (assumption || lia).
        destruct (decide (i = i /\ k = k)) as [_|Hn]; [|exfalso; apply Hn; auto].
        reflexivity.
      + intros i' j' Hi' Hj'. rewrite (square_value_set n) by (assumption || lia).
        rewrite Hval by assumption.
        repeat case_decide; try reflexivity; try (exfalso; lia).
        unfold maxwell_term. intuition (subst; reflexivity). }
  destruct (for_range 0 n _ (M, lit 0)) as [a sm]. destruct HP as (HsqA & Hsm & Hval).
  simpl in HsqA, Hsm, Hval.
  split; [apply square_mat_set; exact HsqA|].
  intros i' j' Hi' Hj'. rewrite (square_value_set n) by assumption.
  rewrite !Hval by assumption. rewrite Hsm.
  repeat case_decide; try reflexivity; exfalso; lia.
Qed.

(** The matrix the first loop nest of [getSpeciesFluxes] builds. *)
Lemma flux_matrix_entries n (x : list R) (bdiff aa : DenseMatrix R) i j :
  square n aa -> i < n -> j < n ->
  value (flux_matrix n x bdiff aa) i j
  = if decide (j = i)
    then (maxwell_term x bdiff i i - sum_over 0 n (maxwell_term x bdiff i))%fp
    else maxwell_term x bdiff i j.
Proof.
  intros Hsq Hi Hj. unfold flux_matrix.
  pose (P := fun (k : nat) (M : DenseMatrix R) =>
    square n M /\
    forall i' j', i' < n -> j' < n ->
      value M i' j'
      = if decide (i' < k)
        then (if decide (j' = i')
              then (maxwell_term x bdiff i' i' - sum_over 0 n (maxwell_term x bdiff i'))%fp
              else maxwell_term x bdiff i' j')
        else value aa i' j').
  match goal with |- value (for_range 0 n ?body aa) i j = _ =>
    assert (HP : P n (for_range 0 n body aa)) end.
  { apply (for_range_ind P); [lia | |].
    - split; [exact Hsq|]. intros i' j' _ _. case_decide; [lia|reflexivity].
    - intros k M Hk [HsqM Hval].
      destruct (flux_matrix_row n x bdiff M k HsqM) as [H1 H2]; [lia|].
      split; [exact H1|].
      intros i' j' Hi' Hj'. rewrite H2 by assumption. rewrite Hval by assumption.
      repeat case_decide; subst; try reflexivity; try (exfalso; lia). }
  destruct HP as [_ Hval]. rewrite Hval by assumption.
  destruct (decide (i < n)); [reflexivity|lia].
Qed.

End FluxMatrix.

Section ExactExtras.
Context {R : Type} {SC : Scalar R} {CO : Collab R}.
Variables (sopp sinv : R -> R).
Hypothesis exact_ring : ring_theory (lit 0) (lit 1) sadd smul ssub sopp (@eq R).
Hypothesis exact_div : forall a b : R, sdiv a b = smul a (sinv b).

Add Ring exact_scalars_more : exact_ring.

(** Taking [c] off one term of a sum takes it off the sum. *)
Lemma sum_over_point n (f : nat -> R) (c : R) i :
  i < n ->
  sum_over 0 n (fun j => if decide (j = i) then (f j - c)%fp else f j)
  = (sum_over 0 n f - c)%fp.
Proof using exact_ring.
  intros Hi. induction n as [|n IH]; [lia|].
  rewrite !sum_over_snoc by lia.
  destruct (decide (i = n)) as [->|Hne].
  - destruct (decide (n = n)); [|contradiction].
    rewrite (sum_over_ext 0 n _ f).
    + ring.
    + intros k Hk. destruct (decide (k = n)); [lia|reflexivity].
  - rewrite IH by lia. destruct (decide (n = i)); [lia|]. ring.
Qed.

(** X11. In exact arithmetic every row of the matrix the first loop
    nest of [getSpeciesFluxes] builds sums to zero: off the diagonal
    entry (i,j) is x_j x_i / D(i,j), and the diagonal entry is what is
    left of x_i x_i / D(i,i) once the sum of the row has been taken off.
    The matrix is singular before the row of species jmax is replaced by
    the mass fractions. *)
Theorem stefan_maxwell_rows_sum_to_zero n (x : list R) (bdiff aa : DenseMatrix R) i :
  square n aa -> i < n ->
  (forall j, j < n -> j <> i ->
     value (flux_matrix n x bdiff aa) i j = (x !!! j * x !!! i / value bdiff i j)%fp) /\
  sum_over 0 n (fun j => value (flux_matrix n x bdiff aa) i j) = lit 0.
Proof using exact_ring.
  intros Hsq Hi. split.
  - intros j Hj Hne. rewrite flux_matrix_entries by assumption.
    destruct (decide (j = i)); [contradiction|reflexivity].
  - rewrite (sum_over_ext 0 n _
      (fun j => if decide (j = i)
                then (maxwell_term x bdiff i j - sum_over 0 n (maxwell_term x bdiff i))%fp
                else maxwell_term x bdiff i j)).
    + rewrite sum_over_point by exact Hi. ring.
    + intros j Hj. rewrite flux_matrix_entries by (assumption || lia).
      destruct (decide (j = i)); [subst; reflexivity|reflexivity].
Qed.

(** X7. In exact arithmetic the diagonal of the matrix
    [getMultiDiffCoeffs] returns is zero: entry (i,i) is a multiple of
    Linv(i,i) - Linv(i,i). *)
Theorem multicomponent_diagonal_is_zero ld d (s s' : MultiTransport R) d' i :
  m_nsp (par s) <= ld -> ld * m_nsp (par s) <= length d ->
  getMultiDiffCoeffs ld d s = Ok (s', d') ->
  i < m_nsp (par s) ->
  d' !!! (ld * i + i) = lit 0.
Proof using exact_ring.
  intros Hld Hlen H Hi.
  destruct (getMultiDiffCoeffs_ok _ _ _ _ _ H) as (_ & _ & _ & _ & _ & _ & _ & _ & Hd).
  assert (Hp : par (updateDiff_T (updateTransport_C s)) = par s).
  { rewrite (tf_par _ _ (updateDiff_T_frame _)). apply updateTransport_C_par. }
  rewrite Hp in Hd. rewrite Hd.
  match goal with |- context [for_range 0 _ (fun i => for_range 0 _
                     (fun j d => <[_ := @?g i j]> d)) d] =>
    rewrite (output_loops_lookup (m_nsp (par s)) (m_nsp (par s)) ld g) by assumption
  end.
  cbv beta. ring.
Qed.

End ExactExtras.

Section ExactDiagonal.
Context {R : Type} {SC : Scalar R} {CO : Collab R}.
Variables (sopp : R -> R).
Hypothesis exact_ring : ring_theory (lit 0) (lit 1) sadd smul ssub sopp (@eq R).

Add Ring exact_scalars_diagonal : exact_ring.

(** X25. In exact arithmetic the matrix the first loop nest of
    [getSpeciesFluxes] builds does not depend on the diagonal of the
    binary diffusion matrix: the term x_i x_i / D(i,i) is added to the
    row sum and taken off again.  Whether the diagonal holds the
    polynomial fit or the self-diffusion estimate makes no difference
    to the flux system. *)
Theorem flux_matrix_ignores_diffusion_diagonal n (x : list R) (bdiff bdiff' aa : DenseMatrix R)
    i j :
  square n aa -> i < n -> j < n ->
  (forall r c, r < n -> c < n -> r <> c -> value bdiff' r c = value bdiff r c) ->
  value (flux_matrix n x bdiff' aa) i j = value (flux_matrix n x bdiff aa) i j.
Proof using exact_ring.
  intros Hsq Hi Hj Hoff.
  rewrite !flux_matrix_entries by assumption.
  destruct (decide (j = i)) as [->|Hne].
  - assert (Hd : forall D : DenseMatrix R,
              (maxwell_term x D i i - sum_over 0 n (maxwell_term x D i))%fp
              = (lit 0 - sum_over 0 n (fun c => if decide (c = i)
                                                then (maxwell_term x D i c
                                                      - maxwell_term x D i i)%fp
                                                else maxwell_term x D i c))%fp).
    { intros D. rewrite (sum_over_point sopp exact_ring) by exact Hi. ring. }
    rewrite !Hd. f_equal. apply sum_over_ext. intros c Hc.
    destruct (decide (c = i)) as [->|Hc']; [ring|].
    unfold maxwell_term. rewrite Hoff by (lia || congruence). reflexivity.
  - unfold maxwell_term. rewrite Hoff by (lia || congruence). reflexivity.
Qed.

End ExactDiagonal.

Section OrderedScalars.
Context {R : Type} {SC : Scalar R} {CO : Collab R}.
Hypothesis gt_irrefl : forall a : R, sgt a a = false.
Hypothesis gt_asym : forall a c : R, sgt c a = true -> sgt a c = false.
Hypothesis gt_chain : forall a m c : R, sgt a m = false -> sgt c m = true -> sgt c a = true.
Hypothesis abs_above : forall a : R, sgt (fabs a) (lit (-1)) = true.

(** X12. Over scalars that [>] orders totally (no NaN) and whose
    absolute values exceed -1, the row [getSpeciesFluxes] replaces is
    the one of the first species whose mole-fraction gradient in the
    first coordinate direction is largest in absolute value: no species
    has a larger one, and every species before it has a strictly
    smaller one. *)
Theorem replaced_row_is_first_largest n (grad_X : list R) :
  0 < n ->
  let jmax := find_jmax n grad_X in
  jmax < n /\
  (forall j, j < n -> sgt (fabs (grad_X !!! j)) (fabs (grad_X !!! jmax)) = false) /\
  (forall j, j < jmax -> sgt (fabs (grad_X !!! jmax)) (fabs (grad_X !!! j)) = true).
Proof using gt_irrefl gt_asym gt_chain abs_above.
  intros Hn jmax. subst jmax. unfold find_jmax.
  pose (P := fun (k : nat) (q : nat * R) =>
    (k = 0 /\ q = (0, lit (-1))) \/
    (fst q < k /\ snd q = fabs (grad_X !!! fst q) /\
     (forall j, j < k -> sgt (fabs (grad_X !!! j)) (snd q) = false) /\
     (forall j, j < fst q -> sgt (snd q) (fabs (grad_X !!! j)) = true))).
  match goal with |- context [for_range 0 n ?body ?init] =>
    assert (HP : P n (for_range 0 n body init)) end.
  { apply (for_range_ind P); [lia | left; auto |].
    intros k [jm gm] Hk [[-> Hq]|(Hjm & Hgm & Hle & Hlt)]; right.
    - inversion Hq; subst. rewrite abs_above. simpl.
      split; [lia|]. split; [reflexivity|]. split; [|intros; lia].
      intros j Hj. assert (j = 0) by lia. subst. apply gt_irrefl.
    - simpl in Hjm, Hgm, Hle, Hlt.
      destruct (sgt (fabs (grad_X !!! k)) gm) eqn:E; simpl.
      + split; [lia|]. split; [reflexivity|]. split.
        * intros j Hj. destruct (decide (j = k)) as [->|Hne]; [apply gt_irrefl|].
          apply gt_asym. apply (gt_chain _ gm); [apply Hle; lia|exact E].
        * intros j Hj. apply (gt_chain _ gm); [apply Hle; lia|exact E].
      + split; [lia|]. split; [exact Hgm|]. split; [|exact Hlt].
        intros j Hj. destruct (decide (j = k)) as [->|Hne]; [exact E|]. apply Hle. lia. }
  destruct HP as [[-> _]|(Hjm & Hgm & Hle & Hlt)]; [lia|].
  split; [exact Hjm|]. rewrite <- Hgm. auto.
Qed.

End OrderedScalars.

Section OutputFrame.
Context {R : Type} {SC : Scalar R} {CO : Collab R}.
Implicit Types (s : MultiTransport R).

Local Abbreviation flags s := (updaters (m_thermo s)).




End OutputFrame.

Section Construction.
Context {R : Type} {SC : Scalar R} {CO : Collab R}.

(** X14. [init] fills [m_log_eps_k] from the upper triangle of
    [tr.epsilon] alone: for all species i and j the entry (i,j) is
    log(epsilon(lo,hi) / Boltzmann) with lo and hi the smaller and the
    larger of i and j, so the matrix is symmetric whatever the lower
    triangle of [tr.epsilon] holds. *)
Theorem init_log_eps_k_from_upper_triangle (tr : TransportParams R) i j :
  let n := nSpecies (tr_thermo tr) in
  let M := m_log_eps_k (par (init tr)) in
  i < n -> j < n ->
  value M i j = log (value (tr_epsilon tr) (Nat.min i j) (Nat.max i j) / Boltzmann)%fp /\
  value M i j = value M j i.
Proof.
  intros n M Hi Hj. subst M. simpl. fold n.
  pose (f := fun i j => log (value (tr_epsilon tr) i j / Boltzmann)%fp).
  match goal with |- context [for_upper n ?b ?M0] =>
    destruct (pair_loop_spec (fun M => M) (fun _ => True) b n false f f) with (a := M0)
      as (_ & _ & Hval)
  end.
  - intros a b M _ Hsq Hab Hb. split; [exact I|]. unfold pair_body, f.
    rewrite (square_value_set n) by (assumption || lia).
    destruct (decide (a = a /\ b = b)) as [_|Hn]; [reflexivity|exfalso; apply Hn; auto].
  - exact I.
  - split; [reflexivity|]. unfold resize. simpl. rewrite vec_resize_length. reflexivity.
  - assert (He : forall r c, r < n -> c < n ->
              pair_entry false f f r c = f (Nat.min r c) (Nat.max r c)).
    { intros r c _ _. unfold pair_entry. case_decide.
      - subst. rewrite Nat.min_id, Nat.max_id. reflexivity.
      - destruct (Nat.ltb_spec r c).
        + rewrite Nat.min_l, Nat.max_r by lia. reflexivity.
        + rewrite Nat.min_r, Nat.max_l by lia. reflexivity. }
    rewrite !Hval, !He by assumption.
    rewrite (Nat.min_comm j i), (Nat.max_comm j i). auto.
Qed.

(** X15. [init] keeps a copy of the molecular weights of the phase
    (the same vector, when the phase gives one weight per species) and
    precomputes, for every species k, sqrt(eps_k / Boltzmann) and the
    Parker correction at 298 K,
    Frot(eps_k / (Boltzmann * 298), sqrt(eps_k / Boltzmann) / sqrt 298).
    It selects the LU solve, with the iterative solver's defaults 100
    and 1e-4, and leaves every updater stale. *)
Theorem init_precomputes_species_constants (tr : TransportParams R) :
  let th := tr_thermo tr in
  let s := init tr in
  length (molecularWeights th) = nSpecies th ->
  m_mw (par s) = molecularWeights th /\
  (forall k, k < nSpecies th ->
     m_sqrt_eps_k (par s) !!! k = sqrt (tr_eps tr !!! k / Boltzmann)%fp /\
     m_frot_298 (par s) !!! k
     = Frot (tr_eps tr !!! k / (Boltzmann * lit 298))%fp
            (sqrt (tr_eps tr !!! k / Boltzmann)%fp / sqrt (lit 298))%fp) /\
  m_gmres (par s) = false /\ m_mgmres (par s) = 100 /\ m_eps_gmres (par s) = lit 1e-4 /\
  (forall id, is_ok (updaters (m_thermo s)) id = false).
Proof.
  intros th s Hlen. subst s. simpl. fold th. set (n := nSpecies th) in *.
  split.
  { apply list_eq_same_length with n.
    - exact Hlen.
    - rewrite copy_length, vec_resize_length. reflexivity.
    - intros k a b Hk Ha Hb.
      apply list_lookup_total_correct in Ha, Hb. subst a b.
      rewrite copy_lookup by (rewrite vec_resize_length; lia).
      destruct (decide (0 <= k < 0 + length (molecularWeights th))); [|lia].
      f_equal. lia. }
  split.
  { intros k Hk.
    pose (P := fun (m : nat) (q : list R * list R) =>
      length (fst q) = n /\ length (snd q) = n /\
      forall k, k < m ->
        fst q !!! k = sqrt (tr_eps tr !!! k / Boltzmann)%fp /\
        snd q !!! k = Frot (tr_eps tr !!! k / (Boltzmann * lit 298))%fp
                        (sqrt (tr_eps tr !!! k / Boltzmann)%fp / sqrt (lit 298))%fp).
    match goal with |- context [for_range 0 n ?b ?q0] =>
      assert (HP : P n (for_range 0 n b q0)) end.
    { apply (for_range_ind P); [lia | |].
      - split; [apply vec_resize_length|]. split; [apply vec_resize_length|]. intros; lia.
      - intros m [se fr] Hm (Hl1 & Hl2 & Hv). simpl in Hl1, Hl2, Hv.
        split; [simpl; rewrite length_insert; exact Hl1|].
        split; [simpl; rewrite length_insert; exact Hl2|].
        intros k' Hk'. simpl. destruct (decide (k' = m)) as [->|Hne].
        + rewrite !list_lookup_total_insert_eq by lia. auto.
        + rewrite !list_lookup_total_insert_ne by congruence. apply Hv. lia. }
    destruct HP as (_ & _ & Hv). apply Hv. exact Hk. }
  repeat split; try reflexivity. intros id. destruct id; reflexivity.
Qed.

End Construction.

Section MoreFluxes.
Context {R : Type} {SC : Scalar R} {CO : Collab R}.
Implicit Types (s : MultiTransport R).

Local Abbreviation flags s := (updaters (m_thermo s)).

(** The thermal-diffusion term is switched on by the first ndim
    components of grad_T and by nothing else: [addThermalDiffusion] is
    true exactly when one of them compares different from 0. *)
Theorem thermal_diffusion_switch ndim (grad_T : list R) :
  any_nonzero ndim grad_T = true <->
  exists i, i < ndim /\ sne (grad_T !!! i) (lit 0) = true.
Proof.
  unfold any_nonzero.
  pose (P := fun (k : nat) (b : bool) =>
    b = true <-> exists i, i < k /\ sne (grad_T !!! i) (lit 0) = true).
  apply (for_range_ind P); [lia | |].
  - split; [discriminate|]. intros (i & Hi & _). lia.
  - intros k acc Hk [H1 H2]. split.
    + destruct (sne (grad_T !!! k) (lit 0)) eqn:E.
      * intros _. exists k. split; [lia|exact E].
      * intros Ha. destruct (H1 Ha) as (i & Hi & Hs). exists i. split; [lia|exact Hs].
    + intros (i & Hi & Hs). destruct (decide (i = k)) as [->|Hne].
      * rewrite Hs. reflexivity.
      * destruct (sne (grad_T !!! k) (lit 0)); [reflexivity|].
        apply H2. exists i. split; [lia|exact Hs].
Qed.



End MoreFluxes.

Section CacheHits.
Context {R : Type} {SC : Scalar R} {CO : Collab R}.
Implicit Types (s : MultiTransport R).

Local Abbreviation flags s := (updaters (m_thermo s)).

(** X20. A repeated [viscosity()] or [getBinaryDiffCoeffs] call is
    served from the cache: made on the state the first call left, with
    the same arguments, it changes nothing of the object and returns
    the same result. *)
Theorem cached_queries_are_idempotent s ld d :
  (let r := viscosity s in viscosity (fst r) = r) /\
  (let r := getBinaryDiffCoeffs ld d s in getBinaryDiffCoeffs ld d (fst r) = r).
Proof.
  split; cbv zeta.
  - unfold viscosity at 2 3. cbv zeta. cbn [fst].
    set (s1 := updateTransport_C (updateViscosity_T s)).
    assert (Hv : updateViscosity_T s1 = s1).
    { apply update_valid. unfold s1.
      rewrite (updateTransport_C_tags _ U_visc_T) by reflexivity.
      apply (updateViscosity_T_ok s). }
    assert (Hc : updateTransport_C s1 = s1).
    { apply update_valid. apply (updateTransport_C_ok (updateViscosity_T s)). }
    unfold viscosity. cbv zeta. rewrite Hv, Hc. reflexivity.
  - unfold getBinaryDiffCoeffs at 2 3. cbv zeta. cbn [fst].
    set (s1 := updateDiff_T s).
    assert (Hd : updateDiff_T s1 = s1).
    { apply update_valid. apply (updateDiff_T_ok s). }
    unfold getBinaryDiffCoeffs. cbv zeta. rewrite Hd. reflexivity.
Qed.

(** X21. When the binary-diffusion tag is stale (on a new object, or
    after a temperature change), [getBinaryDiffCoeffs] returns the
    polynomial fit of the pair in every entry, the diagonal included:
    d[ld*j + i] = (1/p) * fit(i,j) at the temperature of the phase.  The
    self-diffusion estimate appears on the diagonal only once a thermal
    query has run at that temperature, so the diagonal the caller gets
    depends on the calls made before. *)
Theorem stale_binary_diffusion_is_the_fit s ld d s' d' i j :
  reachable s ->
  ok_diff_T (flags s) = false ->
  m_nsp (par s) <= ld -> ld * m_nsp (par s) <= length d ->
  getBinaryDiffCoeffs ld d s = (s', d') ->
  i < m_nsp (par s) -> j < m_nsp (par s) ->
  m_temp (tc s') = temperature (m_thermo s) /\
  d' !!! (ld * j + i) = (lit 1 / pressure (m_thermo s) * bdiff_fit (par s) (tc s') i j)%fp.
Proof.
  intros Hr Hst Hld Hlen H Hi Hj.
  destruct (getBinaryDiffCoeffs_lookup ld d s s' d' i j H Hld Hlen Hi Hj) as [-> Hd].
  pose proof (updateDiff_T_Inv s (reachable_Inv s Hr)) as [_ Hco].
  pose proof (updateDiff_T_frame s) as Hf.
  split.
  - rewrite (co_temperature _ Hco).
    + rewrite (tf_phase _ _ Hf). reflexivity.
    + apply (co_diff_T _ Hco), updateDiff_T_ok.
  - rewrite Hd. f_equal. clear Hd H.
    unfold updateDiff_T. rewrite update_stale by exact Hst.
    unfold _update_diff_T. cbv zeta. cbn [tc set_thermo set_fl set_tc m_bdiff set_bdiff par].
    pose proof (updateTransport_T_Inv s (reachable_Inv s Hr)) as [Hsz _].
    pose proof (tf_par _ _ (updateTransport_T_frame s)) as Hp.
    set (s1 := updateTransport_T s) in *.
    match goal with |- context [for_upper _ (diff_body ?f) _] => set (fit := f) end.
    destruct (diff_loop_spec (m_nsp (par s1)) fit (m_bdiff (tc s1))) as [_ Hval].
    { split; [apply (sz_bdiff_r _ Hsz)|apply (sz_bdiff _ Hsz)]. }
    rewrite Hval by (rewrite Hp; assumption).
    unfold bdiff_fit, fit. cbn. rewrite Hp.
    destruct (m_mode (par s) =? CK_Mode)%Z; reflexivity.
Qed.

End CacheHits.

(* ================================================================== *)
(** * The product of the L matrix with a vector *)
(* ================================================================== *)

Section ExactProduct.
Context {R : Type} {SC : Scalar R} {CO : Collab R}.
Variables (sopp sinv : R -> R).
Hypothesis exact_ring : ring_theory (lit 0) (lit 1) sadd smul ssub sopp (@eq R).

Add Ring exact_scalars_product : exact_ring.

Lemma sum_over_zero lo hi (f : nat -> R) :
  (forall k, lo <= k < hi -> f k = lit 0) -> sum_over lo hi f = lit 0.
Proof using exact_ring.
  intros Hf. destruct (decide (lo <= hi)) as [Hle|Hgt]; [|apply sum_over_empty; lia].
  induction hi as [|hi IH].
  - apply sum_over_empty. lia.
  - destruct (decide (lo = S hi)) as [->|Hne]; [apply sum_over_empty; lia|].
    rewrite sum_over_snoc by lia. rewrite IH by (intros; try apply Hf; lia).
    rewrite Hf by lia. ring.
Qed.

Lemma sum_over_split lo mid hi (f : nat -> R) :
  lo <= mid -> mid <= hi ->
  sum_over lo hi f = (sum_over lo mid f + sum_over mid hi f)%fp.
Proof using exact_ring.
  intros H1 H2. induction hi as [|hi IH].
  - assert (mid = 0) by lia. subst. rewrite !sum_over_empty by lia. ring.
  - destruct (decide (mid = S hi)) as [->|Hne].
    + rewrite (sum_over_empty (S hi) (S hi)) by lia. ring.
    + rewrite !sum_over_snoc by lia. rewrite IH by lia. ring.
Qed.

(** A sum with one nonzero term. *)
Lemma sum_over_single lo hi (f : nat -> R) k :
  lo <= k < hi -> (forall j, lo <= j < hi -> j <> k -> f j = lit 0) ->
  sum_over lo hi f = f k.
Proof using exact_ring.
  intros Hk Hf.
  rewrite (sum_over_split lo k hi) by lia.
  rewrite (sum_over_split k (S k) hi) by lia.
  rewrite (sum_over_zero lo k) by (intros; apply Hf; lia).
  rewrite (sum_over_zero (S k) hi) by (intros; apply Hf; lia).
  rewrite sum_over_snoc by lia. rewrite sum_over_empty by lia. ring.
Qed.

(** The stand-in meets the contract. *)
Lemma ref_dgemv_computes : @dgemv_computes R SC ref_blas.
Proof using exact_ring.
  intros m n a aoff lda x xoff y yoff Hlen y'. subst y'. simpl. unfold ref_dgemv.
  split; [apply for_range_insert_length|].
  intros p.
  rewrite (for_range_update m (fun i => yoff + i)
             (fun i _ => (lit 0 * y !!! (yoff + i)%nat
                          + lit 1 * sum_over 0 n (fun j => (a !!! (aoff + i + lda * j)%nat
                                                           * x !!! (xoff + j)%nat)%fp))%fp)
             yoff) by (auto || lia).
  case_decide; [|reflexivity]. ring.
Qed.

Section WithBlas.
Context {BL : Blas R}.
Hypothesis blas_ok : dgemv_computes.

(** What [mult] leaves at every position of [prod], given a DGEMV that
    meets its contract. *)
Lemma mult_lookup (L : DenseMatrix R) (b prod : list R) n :
  nRows L = 3 * n -> 3 * n <= length prod ->
  length (mult L b prod) = length prod /\
  forall p,
    mult L b prod !!! p
    = if decide (p < n) then sum_over 0 (2 * n) (fun j => (value L p j * b !!! j)%fp)
      else if decide (p < 2 * n) then sum_over 0 (3 * n) (fun j => (value L p j * b !!! j)%fp)
      else if decide (p < 3 * n)
           then (sum_over n (2 * n) (fun j => (value L p j * b !!! j)%fp)
                 + b !!! p * value L p p)%fp
           else prod !!! p.
Proof using blas_ok.
  intros Hrows Hlen. unfold mult. rewrite Hrows.
  replace (3 * n / 3) with n by (rewrite Nat.mul_comm, Nat.div_mul; lia).
  cbv zeta.
  destruct (blas_ok n (2 * n) (mdata L) 0 (3 * n) b 0 prod 0) as [Hl1 H1]; [lia|].
  set (p1 := ct_dgemv n (2 * n) (lit 1) (mdata L) 0 (3 * n) b 0 (lit 0) prod 0) in *.
  destruct (blas_ok n (3 * n) (mdata L) n (3 * n) b 0 p1 n) as [Hl2 H2]; [lia|].
  set (p2 := ct_dgemv n (3 * n) (lit 1) (mdata L) n (3 * n) b 0 (lit 0) p1 n) in *.
  destruct (blas_ok n n (mdata L) (n * (3 * n) + 2 * n) (3 * n) b n p2 (2 * n))
    as [Hl3 H3]; [lia|].
  set (p3 := ct_dgemv n n (lit 1) (mdata L) (n * (3 * n) + 2 * n) (3 * n) b n (lit 0)
               p2 (2 * n)) in *.
  split; [rewrite for_range_insert_length; congruence|].
  intros p.
  rewrite (for_range_update n (fun i => i + 2 * n)
             (fun i v => (v + b !!! (i + 2 * n)%nat * value L (i + 2 * n) (i + 2 * n))%fp)
             (2 * n)) by (intros; lia).
  rewrite ?H3, ?H2, ?H1.
  repeat case_decide; try lia; try reflexivity.
  - replace (p - 2 * n + 2 * n) with p by lia. f_equal.
    assert (Hs : forall F : nat -> R,
              sum_over n (2 * n) F
              = for_range 0 n (fun k acc => (acc + F (k + n)%nat)%fp) (lit 0)).
    { intros F. rewrite sum_over_shift. f_equal. lia. }
    rewrite Hs.
    apply (for_range_ext 0 n
             (fun j acc => (acc + mdata L !!! (n * (3 * n) + 2 * n
                                  + (p - 2 * n) + 3 * n * j)%nat
                                  * b !!! (n + j)%nat)%fp)).
    intros j acc Hj. unfold value. rewrite Hrows. do 3 f_equal; lia.
  - apply sum_over_ext. intros j Hj. unfold value. rewrite Hrows. do 2 f_equal; lia.
  - apply sum_over_ext. intros j Hj. unfold value. rewrite Hrows. do 2 f_equal; lia.
Qed.

(** X17. Given a DGEMV that meets its contract and a matrix whose row
    count is 3n, [mult] writes prod[0..3n) and nothing else of the
    array: for i < n, the product of row i with the first 2n entries of
    b; the product of row n+i with all 3n entries; and the product of
    the entries n..2n-1 of row 2n+i with b[n..2n) plus the diagonal term
    L(2n+i,2n+i) b[2n+i].  The columns 2n..3n-1 of the first block row,
    the columns 0..n-1 of the third and the off-diagonal of the block
    01,01 are never read. *)
Theorem mult_is_seven_block_product (L : DenseMatrix R) (b prod : list R) n :
  nRows L = 3 * n -> 3 * n <= length prod ->
  let r := mult L b prod in
  length r = length prod /\
  (forall p, 3 * n <= p -> r !!! p = prod !!! p) /\
  forall i, i < n ->
    r !!! i = sum_over 0 (2 * n) (fun j => (value L i j * b !!! j)%fp) /\
    r !!! (n + i) = sum_over 0 (3 * n) (fun j => (value L (n + i) j * b !!! j)%fp) /\
    r !!! (2 * n + i)
    = (sum_over n (2 * n) (fun j => (value L (2 * n + i) j * b !!! j)%fp)
       + b !!! (2 * n + i)%nat * value L (2 * n + i) (2 * n + i))%fp.
Proof using blas_ok.
  intros Hrows Hlen r. subst r.
  destruct (mult_lookup L b prod n Hrows Hlen) as [Hl Hm].
  split; [exact Hl|]. split.
  - intros p Hp. rewrite Hm. repeat case_decide; try lia. reflexivity.
  - intros i Hi. rewrite !Hm.
    destruct (decide (i < n)); [|lia].
    destruct (decide (n + i < n)); [lia|].
    destruct (decide (n + i < 2 * n)); [|lia].
    destruct (decide (2 * n + i < n)); [lia|].
    destruct (decide (2 * n + i < 2 * n)); [lia|].
    destruct (decide (2 * n + i < 3 * n)); [|lia].
    auto.
Qed.

(** X18. In exact arithmetic, on a 3n by 3n matrix whose blocks 00,01
    and 01,00 are zero and whose block 01,01 is diagonal, [mult] is the
    matrix-vector product: entry r of the result is the sum over all 3n
    columns j of L(r,j) b[j]. *)
Theorem mult_is_matrix_vector_product (L : DenseMatrix R) (b prod : list R) n r :
  nRows L = 3 * n -> 3 * n <= length prod ->
  seven_blocks n L ->
  r < 3 * n ->
  mult L b prod !!! r = sum_over 0 (3 * n) (fun j => (value L r j * b !!! j)%fp).
Proof using blas_ok exact_ring.
  intros Hrows Hlen H7 Hr.
  destruct (mult_lookup L b prod n Hrows Hlen) as [_ Hm]. rewrite Hm.
  destruct (decide (r < n)) as [H1|H1].
  - rewrite (sum_over_split 0 (2 * n) (3 * n)) by lia.
    rewrite (sum_over_zero (2 * n) (3 * n)); [ring|].
    intros k Hk. destruct (H7 r (k - 2 * n)) as (Hz & _ & _); [lia..|].
    replace (2 * n + (k - 2 * n)) with k in Hz by lia. rewrite Hz. ring.
  - destruct (decide (r < 2 * n)) as [H2|H2]; [reflexivity|].
    destruct (decide (r < 3 * n)); [|lia].
    rewrite (sum_over_split 0 n (3 * n)) by lia.
    rewrite (sum_over_split n (2 * n) (3 * n)) by lia.
    rewrite (sum_over_zero 0 n).
    + rewrite (sum_over_single (2 * n) (3 * n) _ r); [ring|lia|].
      intros j Hj Hne. destruct (H7 (r - 2 * n) (j - 2 * n)) as (_ & _ & Hz); [lia..|].
      replace (2 * n + (r - 2 * n)) with r in Hz by lia.
      replace (2 * n + (j - 2 * n)) with j in Hz by lia.
      rewrite Hz by lia. ring.
    + intros k Hk. destruct (H7 (r - 2 * n) k) as (_ & Hz & _); [lia..|].
      replace (2 * n + (r - 2 * n)) with r in Hz by lia. rewrite Hz. ring.
Qed.

End WithBlas.
End ExactProduct.

(* ================================================================== *)
(** * The diffusive fluxes of the one-dimensional flow *)
(* ================================================================== *)

Section FlowFluxes.
Context {R : Type} {SC : Scalar R} {FE : StFlow.FlowEnv R}.
Implicit Types (f : StFlow.t R).

(** X22. [setTransport] accepts a multicomponent manager, with or
    without the Soret effect, and a mixture-averaged one without it;
    otherwise it throws.  The manager and the Soret flag are stored
    before the model is examined, so at the throw the object already
    holds the rejected manager: with the mixture-averaged option and
    the Soret flag set in the first case, with the option it had in
    the second. *)
Theorem setTransport_outcomes model withSoret f :
  match StFlow.setTransport model withSoret f with
  | Ok f' =>
      (model = StFlow.cMulticomponent /\ StFlow.m_transport_option f' = StFlow.c_Multi_Transport \/
       model <> StFlow.cMulticomponent /\ model = StFlow.cMixtureAveraged /\ withSoret = false /\
       StFlow.m_transport_option f' = StFlow.c_Mixav_Transport) /\
      StFlow.m_trans f' = Some model /\ StFlow.m_do_soret f' = withSoret
  | Throw e f' =>
      err_proc e = "setTransport"%string /\
      StFlow.m_trans f' = Some model /\ StFlow.m_do_soret f' = withSoret /\
      model <> StFlow.cMulticomponent /\
      (model = StFlow.cMixtureAveraged /\ withSoret = true /\
       StFlow.m_transport_option f' = StFlow.c_Mixav_Transport \/
       model <> StFlow.cMixtureAveraged /\
       e = {| err_proc := "setTransport"; err_msg := "unknown transport model." |} /\
       StFlow.m_transport_option f' = StFlow.m_transport_option f)
  | Exit _ => False
  | Overrun => False
  end.
Proof.
  unfold StFlow.setTransport. cbv zeta.
  destruct (Z.eqb_spec model StFlow.cMulticomponent) as [E1|E1]; [simpl; auto|].
  destruct (Z.eqb_spec model StFlow.cMixtureAveraged) as [E2|E2].
  - destruct withSoret; simpl; auto 10.
  - simpl. auto 10.
Qed.

(** X23. With the multicomponent option, which is the one
    [setTransport] selects for a multicomponent manager,
    [updateDiffFluxes] computes nothing: the flux array is left as it
    was and " not yet implemented... " is printed, followed by
    " net yet implemented... " when the Soret effect was asked for.
    The two option codes are different, as the labels of one [switch]
    are. *)
Theorem multicomponent_fluxes_are_not_computed withSoret f f' x j0 j1 :
  StFlow.c_Multi_Transport <> StFlow.c_Mixav_Transport ->
  StFlow.setTransport StFlow.cMulticomponent withSoret f = Ok f' ->
  let f2 := StFlow.updateDiffFluxes x j0 j1 f' in
  StFlow.m_flux f2 = StFlow.m_flux f /\
  StFlow.cout f2
  = StFlow.cout f ++ " not yet implemented... "%string
      :: (if withSoret then [" net yet implemented... "%string] else []).
Proof.
  intros Hne H. unfold StFlow.setTransport in H. cbv zeta in H.
  rewrite Z.eqb_refl in H. inversion H; subst f'. clear H.
  unfold StFlow.updateDiffFluxes. cbv zeta. cbn [StFlow.m_transport_option].
  destruct (Z.eqb_spec StFlow.c_Multi_Transport StFlow.c_Mixav_Transport) as [E|_]; [contradiction|].
  rewrite Z.eqb_refl. destruct withSoret; cbn.
  - split; [reflexivity|]. rewrite <- app_assoc. reflexivity.
  - auto.
Qed.

(** The first loop over the species, at grid point [j]. *)
Lemma mixav_first_loop x f j (flux : DenseMatrix R) :
  nRows flux = StFlow.m_nsp f ->
  StFlow.m_nsp f * (j + 1) <= length (mdata flux) ->
  let r := for_range 0 (StFlow.m_nsp f)
    (fun k (q : DenseMatrix R * R) =>
       let fl := mat_set (fst q) k j
         (StFlow.m_wt f !!! k * (StFlow.density j * value (StFlow.m_diff f) k j
                                 / StFlow.m_wtm f !!! j))%fp in
       let fl := mat_set fl k j
         (value fl k j * ((StFlow.X x k j - StFlow.X x k (j + 1)) / (StFlow.z (j + 1) - StFlow.z j)))%fp in
       (fl, (snd q - value fl k j)%fp))
    (flux, lit 0) in
  nRows (fst r) = StFlow.m_nsp f /\ length (mdata (fst r)) = length (mdata flux) /\
  snd r = StFlow.mixav_correction x f j /\
  forall k c, k < StFlow.m_nsp f ->
    value (fst r) k c = if decide (c = j) then StFlow.mixav_term x f j k else value flux k c.
Proof.
  intros Hrows Hlen r. subst r.
  set (n := StFlow.m_nsp f) in *.
  pose (P := fun (m : nat) (q : DenseMatrix R * R) =>
    nRows (fst q) = n /\ length (mdata (fst q)) = length (mdata flux) /\
    snd q = for_range 0 m (fun k sum => (sum - StFlow.mixav_term x f j k)%fp) (lit 0) /\
    forall k c, k < n ->
      value (fst q) k c
      = if decide (c = j /\ k < m) then StFlow.mixav_term x f j k else value flux k c).
  match goal with |- context [for_range 0 n ?body (flux, lit 0)] =>
    assert (HP : P n (for_range 0 n body (flux, lit 0))) end.
  { apply (for_range_ind P); [lia | |].
    - split; [exact Hrows|]. split; [reflexivity|]. split; [reflexivity|].
      intros k c _. case_decide; [lia|reflexivity].
    - intros m [fl sm] Hm (Hr & Hl & Hs & Hv). simpl in Hr, Hl, Hs, Hv.
      assert (Hin : nRows fl * j + m < length (mdata fl)) by (rewrite Hr, Hl; nia).
      assert (Hw : forall v k c, k < n ->
                value (mat_set fl m j v) k c
                = if decide (m = k /\ j = c) then v else value fl k c).
      { intros v k c Hk. apply value_mat_set; rewrite ?Hr; (lia || exact Hin). }
      assert (Hw2 : forall v w k c, k < n ->
                value (mat_set (mat_set fl m j v) m j w) k c
                = if decide (m = k /\ j = c) then w else value fl k c).
      { intros v w k c Hk. rewrite value_mat_set; rewrite ?mat_set_nRows, ?mat_set_length,
          ?Hr; try lia; try (rewrite <- Hr; exact Hin).
        rewrite Hw by exact Hk. repeat case_decide; reflexivity. }
      split; [exact Hr|]. split; [simpl; rewrite !length_insert; exact Hl|].
      assert (Hval : forall v,
                value (mat_set (mat_set fl m j v) m j
                         (value (mat_set fl m j v) m j
                          * ((StFlow.X x m j - StFlow.X x m (j + 1)) / (StFlow.z (j + 1) - StFlow.z j)))%fp) m j
                = (v * ((StFlow.X x m j - StFlow.X x m (j + 1)) / (StFlow.z (j + 1) - StFlow.z j)))%fp).
      { intros v. rewrite Hw2 by lia. rewrite Hw by lia.
        destruct (decide (m = m /\ j = j)) as [_|Hn]; [reflexivity|exfalso; apply Hn; auto]. }
      split.
      + cbn [snd fst]. rewrite for_range_snoc by lia. rewrite Hs, Hval. reflexivity.
      + intros k c Hk. cbn [fst]. rewrite Hw2 by exact Hk. rewrite Hw by lia.
        destruct (decide (m = m /\ j = j)) as [_|Hn]; [|exfalso; apply Hn; auto].
        rewrite Hv by exact Hk.
        repeat case_decide; try reflexivity; try (exfalso; lia).
        destruct H as [-> _]. reflexivity. }
  destruct HP as (H1 & H2 & H3 & H4). split; [exact H1|]. split; [exact H2|].
  split; [exact H3|].
  intros k c Hk. rewrite H4 by exact Hk.
  repeat case_decide; try reflexivity; exfalso; lia.
Qed.

(** One grid point of the mixture-averaged case: column [j] of the flux
    array gets the corrected fluxes, the other columns are as they
    were. *)
Lemma mixav_point_spec x f j (flux : DenseMatrix R) :
  nRows flux = StFlow.m_nsp f ->
  StFlow.m_nsp f * (j + 1) <= length (mdata flux) ->
  let flux' := StFlow.mixav_point x f j flux in
  nRows flux' = StFlow.m_nsp f /\ length (mdata flux') = length (mdata flux) /\
  forall k c, k < StFlow.m_nsp f ->
    value flux' k c
    = if decide (c = j)
      then (StFlow.mixav_term x f j k + StFlow.mixav_correction x f j * StFlow.Y x k j)%fp
      else value flux k c.
Proof.
  intros Hrows Hlen flux'. subst flux'. unfold StFlow.mixav_point. cbv zeta.
  destruct (mixav_first_loop x f j flux Hrows Hlen) as (H1 & H2 & H3 & H4).
  match goal with |- context [for_range 0 (StFlow.m_nsp f) ?body (flux, lit 0)] =>
    set (r := for_range 0 (StFlow.m_nsp f) body (flux, lit 0)) in * end.
  rewrite H3. set (n := StFlow.m_nsp f) in *.
  set (corr := StFlow.mixav_correction x f j).
  pose (P := fun (m : nat) (fl : DenseMatrix R) =>
    nRows fl = n /\ length (mdata fl) = length (mdata flux) /\
    forall k c, k < n ->
      value fl k c
      = if decide (c = j /\ k < m)
        then (StFlow.mixav_term x f j k + corr * StFlow.Y x k j)%fp else value (fst r) k c).
  match goal with |- context [for_range 0 n ?body (fst r)] =>
    assert (HP : P n (for_range 0 n body (fst r))) end.
  { apply (for_range_ind P); [lia | |].
    - split; [exact H1|]. split; [exact H2|]. intros k c _. case_decide; [lia|reflexivity].
    - intros m fl Hm (Hr & Hl & Hv).
      split; [exact Hr|]. split; [rewrite mat_set_length; exact Hl|].
      intros k c Hk. rewrite value_mat_set by (rewrite ?Hr, ?Hl; nia).
      rewrite !Hv by lia. rewrite H4 by lia.
      repeat case_decide; try reflexivity; try (exfalso; lia).
      destruct H as [-> _]. reflexivity. }
  destruct HP as (G1 & G2 & G3). split; [exact G1|]. split; [exact G2|].
  intros k c Hk. rewrite G3 by exact Hk. rewrite H4 by exact Hk.
  repeat case_decide; try reflexivity; exfalso; lia.
Qed.

(** The loop over the grid points. *)
Lemma mixav_loop_spec x f j0 j1 (flux : DenseMatrix R) :
  nRows flux = StFlow.m_nsp f ->
  StFlow.m_nsp f * j1 <= length (mdata flux) ->
  let flux' := for_range j0 j1 (StFlow.mixav_point x f) flux in
  forall k c, k < StFlow.m_nsp f ->
    value flux' k c
    = if decide (j0 <= c < j1)
      then (StFlow.mixav_term x f c k + StFlow.mixav_correction x f c * StFlow.Y x k c)%fp
      else value flux k c.
Proof.
  intros Hrows Hlen flux'. subst flux'.
  destruct (decide (j0 <= j1)) as [Hle|Hgt].
  - pose (P := fun (m : nat) (fl : DenseMatrix R) =>
      nRows fl = StFlow.m_nsp f /\ length (mdata fl) = length (mdata flux) /\
      forall k c, k < StFlow.m_nsp f ->
        value fl k c
        = if decide (j0 <= c < m)
          then (StFlow.mixav_term x f c k + StFlow.mixav_correction x f c * StFlow.Y x k c)%fp
          else value flux k c).
    assert (HP : P j1 (for_range j0 j1 (StFlow.mixav_point x f) flux)).
    { apply (for_range_ind P); [exact Hle | |].
      - split; [exact Hrows|]. split; [reflexivity|].
        intros k c _. case_decide; [lia|reflexivity].
      - intros m fl Hm (Hr & Hl & Hv).
        destruct (mixav_point_spec x f m fl Hr) as (G1 & G2 & G3); [rewrite Hl; nia|].
        split; [exact G1|]. split; [congruence|].
        intros k c Hk. rewrite G3 by exact Hk. rewrite Hv by exact Hk.
        repeat case_decide; subst; try reflexivity; exfalso; lia. }
    destruct HP as (_ & _ & HP). exact HP.
  - intros k c Hk. rewrite for_range_ge by lia. case_decide; [lia|reflexivity].
Qed.

End FlowFluxes.

Section ExactFlow.
Context {R : Type} {SC : Scalar R} {FE : StFlow.FlowEnv R}.
Variables (sopp : R -> R).
Hypothesis exact_ring : ring_theory (lit 0) (lit 1) sadd smul ssub sopp (@eq R).

Add Ring exact_scalars_flow : exact_ring.

Lemma sum_over_plus lo hi (f g : nat -> R) :
  sum_over lo hi (fun k => (f k + g k)%fp) = (sum_over lo hi f + sum_over lo hi g)%fp.
Proof using exact_ring.
  destruct (decide (lo <= hi)) as [Hle|Hgt].
  - induction hi as [|hi IH].
    + rewrite !sum_over_empty by lia. ring.
    + destruct (decide (lo = S hi)) as [->|Hne]; [rewrite !sum_over_empty by lia; ring|].
      rewrite !sum_over_snoc by lia. rewrite IH by lia. ring.
  - rewrite !sum_over_empty by lia. ring.
Qed.

Lemma mixav_correction_sum x (f : StFlow.t R) j :
  (StFlow.mixav_correction x f j + sum_over 0 (StFlow.m_nsp f) (StFlow.mixav_term x f j))%fp
  = lit 0.
Proof using exact_ring.
  unfold StFlow.mixav_correction. induction (StFlow.m_nsp f) as [|n IH].
  - rewrite sum_over_empty by lia. rewrite for_range_ge by lia. ring.
  - rewrite for_range_snoc, sum_over_snoc by lia.
    transitivity (for_range 0 n (fun k sum => (sum - StFlow.mixav_term x f j k)%fp) (lit 0)
                  + sum_over 0 n (StFlow.mixav_term x f j))%fp; [ring|exact IH].
Qed.

(** X24. In exact arithmetic, with the mixture-averaged option, the
    fluxes [updateDiffFluxes] leaves at a grid point j of its range,
    where the mass fractions sum to 1, sum to zero over the species:
    each is the mixture-averaged flux W_k rho D_k / Wbar * (X_k(j) -
    X_k(j+1)) / dz plus the mass fraction Y_k times the opposite of
    their sum.  The flux array has one row per species and reaches
    column j1 - 1; the columns outside the range are as they were. *)
Theorem mixture_averaged_fluxes_sum_to_zero x (f : StFlow.t R) j0 j1 j :
  StFlow.m_transport_option f = StFlow.c_Mixav_Transport ->
  nRows (StFlow.m_flux f) = StFlow.m_nsp f ->
  StFlow.m_nsp f * j1 <= length (mdata (StFlow.m_flux f)) ->
  j0 <= j < j1 ->
  sum_over 0 (StFlow.m_nsp f) (fun k => StFlow.Y x k j) = lit 1 ->
  let flux' := StFlow.m_flux (StFlow.updateDiffFluxes x j0 j1 f) in
  (forall k c, k < StFlow.m_nsp f ->
     value flux' k c
     = if decide (j0 <= c < j1)
       then (StFlow.mixav_term x f c k + StFlow.mixav_correction x f c * StFlow.Y x k c)%fp
       else value (StFlow.m_flux f) k c) /\
  sum_over 0 (StFlow.m_nsp f) (fun k => value flux' k j) = lit 0.
Proof using exact_ring.
  intros Hopt Hrows Hlen Hj HY flux'.
  assert (Hfl : flux' = for_range j0 j1 (StFlow.mixav_point x f) (StFlow.m_flux f)).
  { subst flux'. unfold StFlow.updateDiffFluxes. cbv zeta. rewrite Hopt, Z.eqb_refl.
    destruct (StFlow.m_do_soret _); reflexivity. }
  rewrite Hfl. clear Hfl flux'.
  pose proof (mixav_loop_spec x f j0 j1 (StFlow.m_flux f) Hrows Hlen) as Hv.
  cbv zeta in Hv. split; [exact Hv|].
  rewrite (sum_over_ext 0 (StFlow.m_nsp f) _
             (fun k => (StFlow.mixav_term x f j k
                        + StFlow.Y x k j * StFlow.mixav_correction x f j)%fp)).
  - rewrite sum_over_plus, (sum_over_scaled sopp exact_ring), HY.
    pose proof (mixav_correction_sum x f j) as Hc.
    transitivity (StFlow.mixav_correction x f j
                  + sum_over 0 (StFlow.m_nsp f) (StFlow.mixav_term x f j))%fp;
      [ring|exact Hc].
  - intros k Hk. rewrite Hv by lia. destruct (decide (j0 <= j < j1)); [ring|lia].
Qed.

End ExactFlow.

(* ================================================================== *)
(** * Further examples *)
(* ================================================================== *)

Lemma ex_recomposed_reachable : reachable ex_recomposed.
Proof. apply reach_composition, ex_after_conductivity_reachable. Qed.

Lemma temperature_tier_example :
  reachable ex_init /\
  state_after (query Q_viscosity ex_init) = Some ex_after_viscosity /\
  let T := temperature (m_thermo ex_init) in
  temperature (m_thermo ex_after_viscosity) = T /\
  m_temp (tc ex_after_viscosity) = T /\
  m_logt (tc ex_after_viscosity) = log T /\
  m_kbt (tc ex_after_viscosity) = (Boltzmann * T)%fp /\
  m_sqrt_t (tc ex_after_viscosity) = sqrt T /\
  m_t32 (tc ex_after_viscosity) = (T * sqrt T)%fp /\
  m_sqrt_kbt (tc ex_after_viscosity) = sqrt (Boltzmann * T)%fp /\
  m_polytempvec (tc ex_after_viscosity)
  = [lit 1; log T; (log T * log T)%fp; (log T * log T * log T)%fp;
     (log T * log T * log T * log T)%fp].
Proof.
  split; [apply ex_init_reachable|]. split; [vm_compute; reflexivity|].
  apply (temperature_tier_follows_phase Q_viscosity ex_init ex_after_viscosity).
  - apply ex_init_reachable.
  - vm_compute. reflexivity.
Defined.

Lemma species_viscosities_example :
  reachable ex_after_viscosity /\
  ok_spvisc_T (updaters (m_thermo ex_after_viscosity)) = true /\
  0 < m_nsp (par ex_after_viscosity) /\
  let T := temperature (m_thermo ex_after_viscosity) in
  let powers :=
    [lit 1; log T; (log T * log T)%fp; (log T * log T * log T)%fp;
     (log T * log T * log T * log T)%fp] in
  m_visc (tc ex_after_viscosity) !!! 0
  = if Z.eqb (m_mode (par ex_after_viscosity)) (CK_Mode (R:=float))
    then exp (dot4 powers (m_visccoeffs (par ex_after_viscosity) !!! 0))
    else (sqrt T * dot5 powers (m_visccoeffs (par ex_after_viscosity) !!! 0))%fp.
Proof.
  split; [apply ex_after_viscosity_reachable|]. split; [vm_compute; reflexivity|].
  split; [vm_compute; lia|].
  apply (species_viscosities_follow_phase ex_after_viscosity 0).
  - apply ex_after_viscosity_reachable.
  - vm_compute. reflexivity.
  - vm_compute. lia.
Defined.

Lemma viscosity_example :
  exists v,
    reachable ex_init /\
    viscosity ex_init = (ex_after_viscosity, v) /\
    let n := m_nsp (par ex_init) in
    let x := clamped (m_thermo ex_init) in
    let eta := m_visc (tc ex_after_viscosity) in
    ok_visc_T (updaters (m_thermo ex_after_viscosity)) = true /\
    ok_transport_C (updaters (m_thermo ex_after_viscosity)) = true /\
    (forall k, k < n ->
       eta !!! k = species_viscosity (par ex_init) (temperature (m_thermo ex_init)) k) /\
    v = sum_over 0 n (fun k =>
          (x k * eta !!! k
           / sum_over 0 n (fun j => (wilke_phi eta (m_mw (par ex_init)) k j * x j)%fp))%fp).
Proof.
  eexists. split; [apply ex_init_reachable|]. split; [vm_compute; reflexivity|].
  apply (viscosity_is_wilke_mixture ex_init ex_after_viscosity).
  - apply ex_init_reachable.
  - vm_compute. reflexivity.
Defined.

Lemma viscosity_transparency_example :
  reachable ex_init /\ reachable ex_after_conductivity /\
  par ex_after_conductivity = par ex_init /\
  same_phase (m_thermo ex_init) (m_thermo ex_after_conductivity) /\
  snd (viscosity ex_after_conductivity) = snd (viscosity ex_init).
Proof.
  assert (Hp : par ex_after_conductivity = par ex_init) by (vm_compute; reflexivity).
  assert (Hph : same_phase (m_thermo ex_init) (m_thermo ex_after_conductivity))
    by (vm_compute; reflexivity).
  split; [apply ex_init_reachable|]. split; [apply ex_after_conductivity_reachable|].
  split; [exact Hp|]. split; [exact Hph|].
  apply (viscosity_depends_on_phase_only ex_init ex_after_conductivity).
  - apply ex_init_reachable.
  - apply ex_after_conductivity_reachable.
  - exact Hp.
  - exact Hph.
Defined.

Lemma collision_integrals_example :
  let s := ex_after_conductivity in
  reachable s /\ ok_thermal_T (updaters (m_thermo s)) = true /\
  0 < m_nsp (par s) /\ 1 < m_nsp (par s) /\
  m_logt (tc s) = log (temperature (m_thermo s)) /\
  (value (m_om22 (tc s)) 0 1 = star_fit (par s) (tc s) (m_om22_poly (par s)) 0 1 /\
   value (m_astar (tc s)) 0 1 = star_fit (par s) (tc s) (m_astar_poly (par s)) 0 1 /\
   value (m_bstar (tc s)) 0 1 = star_fit (par s) (tc s) (m_bstar_poly (par s)) 0 1 /\
   value (m_cstar (tc s)) 0 1 = star_fit (par s) (tc s) (m_cstar_poly (par s)) 0 1) /\
  (value (m_om22 (tc s)) 0 1 = value (m_om22 (tc s)) 1 0 /\
   value (m_astar (tc s)) 0 1 = value (m_astar (tc s)) 1 0 /\
   value (m_bstar (tc s)) 0 1 = value (m_bstar (tc s)) 1 0 /\
   value (m_cstar (tc s)) 0 1 = value (m_cstar (tc s)) 1 0).
Proof.
  cbv zeta.
  split; [apply ex_after_conductivity_reachable|]. split; [vm_compute; reflexivity|].
  split; [vm_compute; lia|]. split; [vm_compute; lia|].
  apply (collision_integrals_symmetric ex_after_conductivity 0 1).
  - apply ex_after_conductivity_reachable.
  - vm_compute. reflexivity.
  - vm_compute. lia.
  - vm_compute. lia.
Defined.

Lemma rotational_relaxation_example :
  let s := ex_after_conductivity in
  reachable s /\ ok_thermal_T (updaters (m_thermo s)) = true /\ 0 < m_nsp (par s) /\
  let T := temperature (m_thermo s) in
  m_rotrelax (tc s) !!! 0
  = (fmaxx (lit 1) (m_zrot (par s) !!! 0%nat) * m_frot_298 (par s) !!! 0%nat
     / Frot (m_eps (par s) !!! 0%nat / (Boltzmann * T))
            (m_sqrt_eps_k (par s) !!! 0%nat / sqrt T))%fp /\
  m_cinternal (tc s) !!! 0 = (cp_R (m_thermo s) !!! 0%nat - lit 2.5)%fp.
Proof.
  cbv zeta.
  split; [apply ex_after_conductivity_reachable|]. split; [vm_compute; reflexivity|].
  split; [vm_compute; lia|].
  apply (rotational_relaxation_and_internal_cp ex_after_conductivity 0).
  - apply ex_after_conductivity_reachable.
  - vm_compute. reflexivity.
  - vm_compute. lia.
Defined.

Lemma multicomponent_diffusion_example :
  exists s' d',
    getMultiDiffCoeffs 2 ex_buffer4 ex_init = Ok (s', d') /\
    reachable ex_init /\
    m_nsp (par ex_init) <= 2 /\ 2 * m_nsp (par ex_init) <= length ex_buffer4 /\
    let T := temperature (m_thermo ex_init) in
    let W := meanMolecularWeight (m_thermo ex_init) in
    let p := pressure (m_thermo ex_init) in
    m_l0000_ok (fl s') = false /\
    calls s' = calls ex_init ++ [EvInvert] /\
    forall i j, i < m_nsp (par ex_init) -> j < m_nsp (par ex_init) ->
      d' !!! (2 * j + i)
      = (lit 16 * T * W / (lit 25 * p) / m_mw (par ex_init) !!! j
         * clamped (m_thermo ex_init) i
         * (value (m_Lmatrix (wk s')) i j - value (m_Lmatrix (wk s')) i i))%fp.
Proof.
  do 2 eexists. split; [vm_compute; reflexivity|].
  split; [apply ex_init_reachable|]. split; [vm_compute; lia|]. split; [vm_compute; lia|].
  eapply (multicomponent_diffusion_coefficients 2 ex_buffer4 ex_init).
  - apply ex_init_reachable.
  - vm_compute. lia.
  - vm_compute. lia.
  - vm_compute. reflexivity.
Defined.

Lemma multicomponent_diagonal_example :
  exists s' d',
    getMultiDiffCoeffs 2 ex_exact_buffer4 ex_exact = Ok (s', d') /\
    m_nsp (par ex_exact) <= 2 /\ 2 * m_nsp (par ex_exact) <= length ex_exact_buffer4 /\
    1 < m_nsp (par ex_exact) /\
    d' !!! (2 * 1 + 1) = lit 0.
Proof.
  do 2 eexists. split; [vm_compute; reflexivity|].
  split; [vm_compute; lia|]. split; [vm_compute; lia|]. split; [vm_compute; lia|].
  eapply (multicomponent_diagonal_is_zero Qcopp Qc_exact_ring 2 ex_exact_buffer4 ex_exact).
  - vm_compute. lia.
  - vm_compute. lia.
  - vm_compute. reflexivity.
  - vm_compute. lia.
Defined.

Lemma block_flag_example :
  exists v s2 d',
    reachable ex_init /\
    thermalConductivity ex_init = Ok (ex_after_conductivity, v) /\
    getMultiDiffCoeffs 2 ex_buffer4 ex_after_conductivity = Ok (s2, d') /\
    let s1 := ex_after_conductivity in
    m_l0000_ok (fl s1) = m_gmres (par ex_init) /\
    m_Lmatrix (wk s2)
    = snd (invert
             (if m_gmres (par ex_init) then m_Lmatrix (wk s1)
              else eval_L L0000 (par s1) (tc s1) (m_molefracs s1) (m_Lmatrix (wk s1)))
             (m_nsp (par ex_init))) /\
    tc s2 = tc s1 /\ m_molefracs s2 = m_molefracs s1 /\
    m_l0000_ok (fl s2) = false.
Proof.
  do 3 eexists. split; [apply ex_init_reachable|].
  split; [vm_compute; reflexivity|]. split; [vm_compute; reflexivity|].
  eapply (multi_diffusion_honours_block_flag ex_init ex_after_conductivity _ 2 ex_buffer4).
  - apply ex_init_reachable.
  - vm_compute. reflexivity.
  - vm_compute. reflexivity.
Defined.

(** [>] on the rationals is the strict order. *)
Lemma Qc_sgt_spec (a b : Qc) : sgt a b = true <-> (b < a)%Qc.
Proof.
  simpl. split.
  - intros H. apply Qcgt_alt. destruct (a ?= b)%Qc; (reflexivity || discriminate).
  - intros H. apply Qcgt_alt in H. rewrite H. reflexivity.
Qed.

Lemma Qc_sgt_false (a b : Qc) : sgt a b = false <-> (a <= b)%Qc.
Proof.
  split.
  - intros H. apply Qcnot_lt_le. intros Hlt. apply Qc_sgt_spec in Hlt. congruence.
  - intros H. destruct (sgt a b) eqn:E; [|reflexivity].
    apply Qc_sgt_spec in E. exfalso. exact (Qcle_not_lt _ _ H E).
Qed.

Lemma Qc_gt_irrefl (a : Qc) : sgt a a = false.
Proof. apply Qc_sgt_false, Qcle_refl. Qed.

Lemma Qc_gt_asym (a c : Qc) : sgt c a = true -> sgt a c = false.
Proof.
  intros H. apply Qc_sgt_spec in H. apply Qc_sgt_false, Qclt_le_weak, H.
Qed.

Lemma Qc_gt_chain (a m c : Qc) : sgt a m = false -> sgt c m = true -> sgt c a = true.
Proof.
  intros H1 H2. apply Qc_sgt_false in H1. apply Qc_sgt_spec in H2.
  apply Qc_sgt_spec. exact (Qcle_lt_trans _ _ _ H1 H2).
Qed.

Lemma Qc_abs_above (a : Qc) : sgt (fabs a) (lit (-1)) = true.
Proof.
  apply Qc_sgt_spec.
  assert (Hm : (lit (-1) : Qc) = (- (1))%Qc) by (apply Qc_is_canon; reflexivity).
  rewrite Hm. simpl. unfold Qc_abs.
  assert (H0 : (- (1) < 0)%Qc) by reflexivity.
  destruct (a ?= 0)%Qc eqn:E.
  - apply Qceq_alt in E. subst. exact H0.
  - apply Qclt_alt in E. apply Qclt_le_weak, Qcopp_le_compat in E.
    apply (Qclt_le_trans _ (- 0)); [reflexivity|exact E].
  - apply Qcgt_alt in E. exact (Qclt_trans _ _ _ H0 E).
Qed.

Lemma replaced_row_example :
  0 < 2 /\
  let grad_X := [ex_q 1 1; ex_q (-1) 1] in
  let jmax := find_jmax 2 grad_X in
  jmax < 2 /\
  (forall j, j < 2 -> sgt (fabs (grad_X !!! j)) (fabs (grad_X !!! jmax)) = false) /\
  (forall j, j < jmax -> sgt (fabs (grad_X !!! jmax)) (fabs (grad_X !!! j)) = true).
Proof.
  split; [lia|].
  apply (replaced_row_is_first_largest Qc_gt_irrefl Qc_gt_asym Qc_gt_chain Qc_abs_above
           2 [ex_q 1 1; ex_q (-1) 1]).
  lia.
Defined.

(** With the temperature gradient 1 and the stand-in L matrix the
    thermal diffusion coefficients of the example are (0.000192...,
    0.000577...) and the fluxes sum to minus their sum: the fluxes are
    balanced up to the thermal term.  Whether the coefficients the
    evaluators of [L_matrix.h] give sum to zero cannot be read off
    [MultiTransport.cpp]. *)
Lemma thermal_gradient_flux_sum_example :
  exists s' fl,
    getSpeciesFluxes 1 [1%float] 2 ex_grad_X 2 ex_buffer2 ex_after_viscosity = Ok (s', fl) /\
    m_spwork (wk s') = [0.00019243554745685212; 0.00057730664237055636]%float /\
    fl = [-0.75019243554745685; 0.74942269335762945]%float /\
    flux_sum 2 2 0 fl = (-0.00076974218982739373)%float.
Proof.
  do 2 eexists. split; [vm_compute; reflexivity|].
  repeat split; vm_compute; reflexivity.
Qed.

(** Three directions for two species: the loop over [grx] leaves the
    vector. *)
Lemma species_flux_overrun_example :
  getSpeciesFluxes 3 [0; 0; 0]%float 2 [1; -1; 0; 0; 0; 0]%float 2 [0; 0; 0; 0; 0; 0]%float
    ex_after_viscosity = Overrun.
Proof.
  apply (proj2 (species_flux_overrun 3 [0; 0; 0]%float 2 [1; -1; 0; 0; 0; 0]%float 2
                  [0; 0; 0; 0; 0; 0]%float ex_after_viscosity)).
  split; [vm_compute; lia|]. split; [lia|]. eexists. vm_compute. reflexivity.
Defined.

(** On a new object no mole fraction has been cached: with grad_T = 0
    the flux matrix is zero but for the replaced row, the factorisation
    fails, and the caller's array is left holding the gradients (0, -1)
    instead of fluxes. *)
Lemma failed_factorisation_example :
  exists s' fl,
    getSpeciesFluxes 1 [0%float] 2 ex_grad_X 2 ex_buffer2 ex_init
    = Throw dgetrf_error (s', fl) /\
    fl = [0; -1]%float /\
    m_nsp (par ex_init) <= 2 /\ 2 * 1 <= length ex_buffer2 /\
    (dgetrf_error = solve_error -> fl = ex_buffer2) /\
    (dgetrf_error = dgetrf_error ->
     forall d k, d < 1 -> k < m_nsp (par ex_init) ->
       fl !!! (k + d * 2)
       = if decide (k = find_jmax (m_nsp (par ex_init)) ex_grad_X) then lit 0
         else ex_grad_X !!! (2 * d + k)).
Proof.
  do 2 eexists. split; [vm_compute; reflexivity|]. split; [reflexivity|].
  split; [vm_compute; lia|]. split; [vm_compute; lia|].
  eapply (failed_factorisation_leaves_gradients 1 [0%float] 2 ex_grad_X 2 ex_buffer2
            ex_init dgetrf_error).
  - vm_compute. lia.
  - vm_compute. lia.
  - vm_compute. reflexivity.
Defined.

Lemma zero_gradient_example :
  exists s',
    reachable ex_recomposed /\
    state_after (object_of (getSpeciesFluxes 1 [0%float] 2 ex_grad_X 2 ex_buffer2 ex_recomposed))
    = Some s' /\
    if any_nonzero 1 [0%float] then
      ok_transport_C (updaters (m_thermo s')) = true /\
      forall k, k < m_nsp (par ex_recomposed) ->
        m_molefracs s' !!! k = clamped (m_thermo ex_recomposed) k
    else
      m_molefracs s' = m_molefracs ex_recomposed /\
      ok_transport_C (updaters (m_thermo s'))
      = ok_transport_C (updaters (m_thermo ex_recomposed)) /\
      (forall fl,
         getSpeciesFluxes 1 [0%float] 2 ex_grad_X 2 ex_buffer2 ex_recomposed = Ok (s', fl) ->
         fl = flux_scale (m_nsp (par ex_recomposed)) 1 2 (density (m_thermo ex_recomposed))
                (pressure (m_thermo ex_recomposed)) (massFractions (m_thermo ex_recomposed))
                (let sys := flux_system (m_nsp (par ex_recomposed)) 1 2 2
                              (m_molefracs ex_recomposed)
                              (massFractions (m_thermo ex_recomposed))
                              (m_bdiff (tc (updateDiff_T ex_recomposed)))
                              (m_aa (wk ex_recomposed)) ex_grad_X ex_buffer2 in
                 lapack_velocities (fst sys) 1 (snd sys) 2)).
Proof.
  eexists. split; [apply ex_recomposed_reachable|]. split; [vm_compute; reflexivity|].
  apply (zero_gradient_uses_cached_composition 1 [0%float] 2 ex_grad_X 2 ex_buffer2
           ex_recomposed).
  - apply ex_recomposed_reachable.
  - vm_compute. reflexivity.
Defined.

Lemma stefan_maxwell_example :
  let x := m_molefracs ex_exact in
  let bdiff := m_bdiff (tc ex_exact) in
  let aa := m_aa (wk ex_exact) in
  square 2 aa /\ 0 < 2 /\
  (forall j, j < 2 -> j <> 0 ->
     value (flux_matrix 2 x bdiff aa) 0 j = (x !!! j * x !!! 0%nat / value bdiff 0 j)%fp) /\
  sum_over 0 2 (fun j => value (flux_matrix 2 x bdiff aa) 0 j) = lit 0.
Proof.
  cbv zeta.
  assert (Hsq : square 2 (m_aa (wk ex_exact))) by (split; reflexivity).
  split; [exact Hsq|]. split; [lia|].
  apply (stefan_maxwell_rows_sum_to_zero Qcopp Qc_exact_ring 2 (m_molefracs ex_exact)
           (m_bdiff (tc ex_exact)) (m_aa (wk ex_exact)) 0); [exact Hsq|lia].
Defined.

Lemma init_log_eps_k_example :
  let n := nSpecies (tr_thermo ex_tr) in
  let M := m_log_eps_k (par (init ex_tr)) in
  0 < n /\ 1 < n /\
  value M 1 0
  = log (value (tr_epsilon ex_tr) (Nat.min 1 0) (Nat.max 1 0) / Boltzmann)%fp /\
  value M 1 0 = value M 0 1.
Proof.
  cbv zeta. split; [vm_compute; lia|]. split; [vm_compute; lia|].
  apply (init_log_eps_k_from_upper_triangle ex_tr 1 0); vm_compute; lia.
Defined.

Lemma init_constants_example :
  let th := tr_thermo ex_tr in
  let s := init ex_tr in
  length (molecularWeights th) = nSpecies th /\
  m_mw (par s) = molecularWeights th /\
  (forall k, k < nSpecies th ->
     m_sqrt_eps_k (par s) !!! k = sqrt (tr_eps ex_tr !!! k / Boltzmann)%fp /\
     m_frot_298 (par s) !!! k
     = Frot (tr_eps ex_tr !!! k / (Boltzmann * lit 298))%fp
            (sqrt (tr_eps ex_tr !!! k / Boltzmann)%fp / sqrt (lit 298))%fp) /\
  m_gmres (par s) = false /\ m_mgmres (par s) = 100 /\ m_eps_gmres (par s) = lit 1e-4 /\
  (forall id, is_ok (updaters (m_thermo s)) id = false).
Proof.
  cbv zeta. split; [reflexivity|].
  apply (init_precomputes_species_constants ex_tr). reflexivity.
Defined.

Lemma ex_L3_seven_blocks : seven_blocks 1 ex_L3.
Proof.
  intros i j Hi Hj. assert (i = 0) by lia. assert (j = 0) by lia. subst.
  split; [reflexivity|]. split; [reflexivity|]. intros H. contradiction.
Qed.

Lemma mult_blocks_example :
  dgemv_computes (R:=Qc) /\ nRows ex_L3 = 3 * 1 /\ 3 * 1 <= length ex_buffer3 /\
  let r := mult ex_L3 ex_b3 ex_buffer3 in
  length r = length ex_buffer3 /\
  (forall p, 3 * 1 <= p -> r !!! p = ex_buffer3 !!! p) /\
  forall i, i < 1 ->
    r !!! i = sum_over 0 (2 * 1) (fun j => (value ex_L3 i j * ex_b3 !!! j)%fp) /\
    r !!! (1 + i) = sum_over 0 (3 * 1) (fun j => (value ex_L3 (1 + i) j * ex_b3 !!! j)%fp) /\
    r !!! (2 * 1 + i)
    = (sum_over 1 (2 * 1) (fun j => (value ex_L3 (2 * 1 + i) j * ex_b3 !!! j)%fp)
       + ex_b3 !!! (2 * 1 + i)%nat * value ex_L3 (2 * 1 + i) (2 * 1 + i))%fp.
Proof.
  split; [apply (ref_dgemv_computes Qcopp Qc_exact_ring)|].
  split; [reflexivity|]. split; [simpl; lia|].
  apply (mult_is_seven_block_product (ref_dgemv_computes Qcopp Qc_exact_ring)
           ex_L3 ex_b3 ex_buffer3 1); [reflexivity|simpl; lia].
Defined.

Lemma mult_product_example :
  dgemv_computes (R:=Qc) /\ nRows ex_L3 = 3 * 1 /\ 3 * 1 <= length ex_buffer3 /\
  seven_blocks 1 ex_L3 /\ 2 < 3 * 1 /\
  mult ex_L3 ex_b3 ex_buffer3 !!! 2
  = sum_over 0 (3 * 1) (fun j => (value ex_L3 2 j * ex_b3 !!! j)%fp).
Proof.
  split; [apply (ref_dgemv_computes Qcopp Qc_exact_ring)|].
  split; [reflexivity|]. split; [simpl; lia|]. split; [apply ex_L3_seven_blocks|].
  split; [lia|].
  apply (mult_is_matrix_vector_product Qcopp Qc_exact_ring
           (ref_dgemv_computes Qcopp Qc_exact_ring) ex_L3 ex_b3 ex_buffer3 1 2);
    [reflexivity|simpl; lia|apply ex_L3_seven_blocks|lia].
Defined.

Lemma stale_binary_diffusion_example :
  exists s' d',
    getBinaryDiffCoeffs 2 ex_buffer4 ex_init = (s', d') /\
    reachable ex_init /\ ok_diff_T (updaters (m_thermo ex_init)) = false /\
    m_nsp (par ex_init) <= 2 /\ 2 * m_nsp (par ex_init) <= length ex_buffer4 /\
    1 < m_nsp (par ex_init) /\
    m_temp (tc s') = temperature (m_thermo ex_init) /\
    d' !!! (2 * 1 + 1)
    = (lit 1 / pressure (m_thermo ex_init) * bdiff_fit (par ex_init) (tc s') 1 1)%fp.
Proof.
  do 2 eexists. split; [vm_compute; reflexivity|].
  split; [apply ex_init_reachable|]. split; [reflexivity|].
  split; [vm_compute; lia|]. split; [vm_compute; lia|]. split; [vm_compute; lia|].
  eapply (stale_binary_diffusion_is_the_fit ex_init 2 ex_buffer4 _ _ 1 1).
  - apply ex_init_reachable.
  - reflexivity.
  - vm_compute. lia.
  - vm_compute. lia.
  - vm_compute. reflexivity.
  - vm_compute. lia.
  - vm_compute. lia.
Defined.

Lemma flux_matrix_diagonal_example :
  let x := m_molefracs ex_exact in
  let aa := m_aa (wk ex_exact) in
  square 2 aa /\ 0 < 2 /\ 0 < 2 /\
  (forall r c, r < 2 -> c < 2 -> r <> c ->
     value ex_other_diagonal r c = value (m_bdiff (tc ex_exact)) r c) /\
  value (flux_matrix 2 x ex_other_diagonal aa) 0 0
  = value (flux_matrix 2 x (m_bdiff (tc ex_exact)) aa) 0 0.
Proof.
  cbv zeta.
  assert (Hsq : square 2 (m_aa (wk ex_exact))) by (split; reflexivity).
  assert (Hoff : forall r c, r < 2 -> c < 2 -> r <> c ->
            value ex_other_diagonal r c = value (m_bdiff (tc ex_exact)) r c).
  { intros r c Hr Hc Hne.
    destruct r as [|[|r]]; destruct c as [|[|c]]; try lia; try contradiction; reflexivity. }
  split; [exact Hsq|]. split; [lia|]. split; [lia|]. split; [exact Hoff|].
  apply (flux_matrix_ignores_diffusion_diagonal Qcopp Qc_exact_ring 2 (m_molefracs ex_exact)
           (m_bdiff (tc ex_exact)) ex_other_diagonal (m_aa (wk ex_exact)) 0 0);
    [exact Hsq|lia|lia|exact Hoff].
Defined.

Lemma multicomponent_fluxes_example :
  exists f',
    (StFlow.c_Multi_Transport (R:=Qc)) <> StFlow.c_Mixav_Transport /\
    StFlow.setTransport StFlow.cMulticomponent true ex_flow = Ok f' /\
    let f2 := StFlow.updateDiffFluxes ex_solution 0 1 f' in
    StFlow.m_flux f2 = StFlow.m_flux ex_flow /\
    StFlow.cout f2
    = StFlow.cout ex_flow ++ " not yet implemented... "%string
        :: (if true then [" net yet implemented... "%string] else []).
Proof.
  eexists. split; [discriminate|]. split; [reflexivity|].
  apply (multicomponent_fluxes_are_not_computed true ex_flow _ ex_solution 0 1);
    [discriminate|reflexivity].
Defined.

Lemma mixture_averaged_fluxes_example :
  let f := ex_flow_mixav in
  StFlow.m_transport_option f = StFlow.c_Mixav_Transport /\
  nRows (StFlow.m_flux f) = StFlow.m_nsp f /\
  StFlow.m_nsp f * 1 <= length (mdata (StFlow.m_flux f)) /\
  0 <= 0 < 1 /\
  sum_over 0 (StFlow.m_nsp f) (fun k => StFlow.Y ex_solution k 0) = lit 1 /\
  let flux' := StFlow.m_flux (StFlow.updateDiffFluxes ex_solution 0 1 f) in
  (forall k c, k < StFlow.m_nsp f ->
     value flux' k c
     = if decide (0 <= c < 1)
       then (StFlow.mixav_term ex_solution f c k
             + StFlow.mixav_correction ex_solution f c * StFlow.Y ex_solution k c)%fp
       else value (StFlow.m_flux f) k c) /\
  sum_over 0 (StFlow.m_nsp f) (fun k => value flux' k 0) = lit 0.
Proof.
  cbv zeta.
  assert (HY : sum_over 0 (StFlow.m_nsp ex_flow_mixav) (fun k => StFlow.Y ex_solution k 0) = lit 1)
    by (apply Qc_is_canon; vm_compute; reflexivity).
  split; [reflexivity|]. split; [reflexivity|]. split; [simpl; lia|]. split; [lia|].
  split; [exact HY|].
  apply (mixture_averaged_fluxes_sum_to_zero Qcopp Qc_exact_ring ex_solution ex_flow_mixav
           0 1 0); [reflexivity|reflexivity|simpl; lia|lia|exact HY].
Defined.
